(** * dynamicgo/json: position-based JSON scanning primitives

    A shallow embedding of the portable scanner of package [json]
    ([Peek], [DecodeValue], [SkipValue] and the skippers and decoders they
    dispatch to) and of the amd64 [quote] routine, followed by the
    properties of these functions.

    Conventions of the embedding.
    - A Go [string] is a [list ascii]; [len] is its length as a [Z].
    - A Go [int] used as an offset is a [Z].  Offsets within a string are
      bounded by its length, so no 64-bit wrap-around occurs on them; for an
      offset far beyond the string a sum of the source such as [pos + 4]
      may wrap around, which the embedding does not follow.
    - The unsafe pointers [sp], [se] of the source are kept as offsets from
      the start of the string: [rt.IndexCharUint(src, pos)] is [pos],
      [rt.StrBoundary(src)] is [len src], and the byte read through the
      pointer [sp] is [byte_at src sp].  The functions are specified for [0 <= pos]; a
      negative [pos] makes the source read before the string, which has no
      defined behaviour.
    - A [for] loop whose pointer only moves forward is a [Fixpoint] on a
      counter [n] that bounds the distance [se - sp]; at [n = 0] that
      distance is not positive, which is the loop's own exit condition. *)

From Stdlib Require Import ZArith List Ascii String Bool Lia PrimFloat.
Import ListNotations.
Local Open Scope Z_scope.

(** ** Bytes and strings *)

Abbreviation byte := ascii (only parsing).

(** [c == d] is the byte comparison [c == 'd'] of the source. *)
Notation "c == d" := (Ascii.eqb c d%char) (at level 70, no associativity).

Definition bytes (s : string) : list byte := list_ascii_of_string s.

Definition len (src : list byte) : Z := Z.of_nat (List.length src).

(** [src[i]] read through a pointer. *)
Definition byte_at (src : list byte) (i : Z) : byte :=
  nth (Z.to_nat i) src "000"%char.

(** [src[lo:hi]]. *)
Definition slice (src : list byte) (lo hi : Z) : list byte :=
  firstn (Z.to_nat (hi - lo)) (skipn (Z.to_nat lo) src).

Definition bytes_eqb (a b : list byte) : bool :=
  if list_eq_dec ascii_dec a b then true else false.

(** The double quote and the backslash. *)
Definition dquote : byte := "034"%char.
Definition bslash : byte := "\"%char.

(** ** Package [types]: error kinds and value tags *)

(** Modelled from the spec: the [ParsingError] enumeration of package
    [types] is not among the sources.  Section 7 of the spec fixes the three
    kinds used by the scanner, each returned as a negated magnitude; the
    magnitudes below are positive and pairwise distinct, which is all the
    scanner relies on. *)
Definition ERR_EOF : Z := 1.
Definition ERR_INVALID_CHAR : Z := 2.
Definition ERR_INVALID_NUMBER_FMT : Z := 6.

(** Modelled from the spec: [types.ValueType] and [types.JsonState] are not
    among the sources.  Section 3 of the spec gives the state as a tagged
    union; a negative scan result converted by [types.ValueType(ret)] is the
    error tag carrying that result. *)
Inductive ValueType : Type :=
| V_NULL
| V_TRUE
| V_FALSE
| V_ARRAY
| V_OBJECT
| V_STRING
| V_DOUBLE
| V_INTEGER
| V_ERROR (code : Z).

Record JsonState : Type := mkJsonState {
  Vt : ValueType;
  Dv : float;
  Iv : Z;
  Ep : Z
}.

(** A composite literal [types.JsonState{Vt: vt}]: the other fields are zero. *)
Definition state_of (vt : ValueType) : JsonState :=
  mkJsonState vt PrimFloat.zero 0 0.

(** Modelled from the spec: the literals [bytesNull], [bytesTrue] and
    [bytesFalse] are declared outside the sources; section 4.2 of the spec
    gives them as the 4 or 5 byte windows of the three JSON literals. *)
Definition bytesNull : list byte := bytes "null".
Definition bytesTrue : list byte := bytes "true".
Definition bytesFalse : list byte := bytes "false".

(** ** Blank skipping *)

Definition isSpace (c : byte) : bool :=
  (c == " ") || (c == "009") || (c == "010") || (c == "013").

(** Modelled from the spec: [SkipBlank] is called by [Peek], [DecodeValue]
    and [SkipValue] but is not among the sources.  Section 4.1: it skips
    leading whitespace (space, tab, newline, carriage return) starting at
    [pos] and returns the post-whitespace position; on reaching the end of
    the input while skipping it returns the negative EOF code. *)
Fixpoint skip_blank (rest : list byte) (p : Z) : Z :=
  match rest with
  | [] => - ERR_EOF
  | c :: rest' => if isSpace c then skip_blank rest' (p + 1) else p
  end.

Definition SkipBlank (src : list byte) (pos : Z) : Z :=
  skip_blank (skipn (Z.to_nat pos) src) pos.

(** ** Fixed literals *)

Definition decodeNull (src : list byte) (pos : Z) : Z :=
  let ret := pos + 4 in
  if ret >? len src then - ERR_EOF
  else if bytes_eqb (slice src pos ret) bytesNull then ret
  else - ERR_INVALID_CHAR.

Definition decodeTrue (src : list byte) (pos : Z) : Z :=
  let ret := pos + 4 in
  if ret >? len src then - ERR_EOF
  else if bytes_eqb (slice src pos ret) bytesTrue then ret
  else - ERR_INVALID_CHAR.

Definition decodeFalse (src : list byte) (pos : Z) : Z :=
  let ret := pos + 5 in
  if ret >? len src then - ERR_EOF
  else if bytes_eqb (slice src pos ret) bytesFalse then ret
  else - ERR_INVALID_CHAR.

Definition isDigit (c : byte) : bool :=
  ("0" <=? c)%char && (c <=? "9")%char.

(** ** Token classification *)

Inductive TokenState : Type :=
| Invalid
| Null
| True_
| False_
| Number
| String_
| Obj
| Arr
| EndObj
| EndArr
| Comma
| Colon.

Definition Peek (src : list byte) (pos : Z) : Z * TokenState :=
  let pos := SkipBlank src pos in
  if pos <? 0 then (pos, Invalid)
  else
    let c := byte_at src pos in
    if c == "{" then (pos, Obj)
    else if c == "[" then (pos, Arr)
    else if c == "," then (pos, Comma)
    else if c == ":" then (pos, Colon)
    else if c == "]" then (pos, EndArr)
    else if c == "}" then (pos, EndObj)
    else if c == "n" then (pos, Null)
    else if c == dquote then (pos, String_)
    else if c == "t" then (pos, True_)
    else if c == "f" then (pos, False_)
    else if (c == "-") || (c == "+") || isDigit c then (pos, Number)
    else (- ERR_INVALID_CHAR, Invalid).

(** ** Go's [strconv]: integer and float parsing *)

(** The [Err] field of a [*strconv.NumError]. *)
Inductive NumError : Type :=
| ErrRange
| ErrSyntax.

Definition maxUint64 : Z := 2 ^ 64 - 1.

(** [c - '0'] for a digit [c]. *)
Definition digit_val (c : byte) : Z :=
  Z.of_N (N_of_ascii c) - 48.

(** The digit loop of [strconv.ParseUint(s, 10, 64)] (Go's standard library,
    outside the repository; transcribed for base 10 and 64 bits).  [cutoff]
    is the smallest number whose tenfold exceeds [maxUint64]. *)
Fixpoint ParseUint_loop (s : list byte) (n : Z) : Z * option NumError :=
  match s with
  | [] => (n, None)
  | c :: s' =>
      if isDigit c then
        let d := digit_val c in
        if n >=? maxUint64 / 10 + 1 then (maxUint64, Some ErrRange)
        else
          let n := n * 10 in
          let n1 := (n + d) mod 2 ^ 64 in
          if (n1 <? n) || (n1 >? maxUint64) then (maxUint64, Some ErrRange)
          else ParseUint_loop s' n1
      else (0, Some ErrSyntax)
  end.

Definition ParseUint (s : list byte) : Z * option NumError :=
  match s with
  | [] => (0, Some ErrSyntax)
  | _ => ParseUint_loop s 0
  end.

(** [strconv.ParseInt(s, 10, 64)]: an optional sign, then [ParseUint]; the
    magnitude is checked against [cutoff = 1 << 63]. *)
Definition ParseInt (s : list byte) : Z * option NumError :=
  match s with
  | [] => (0, Some ErrSyntax)
  | c0 :: s1 =>
      let neg := c0 == "-" in
      let s' := if (c0 == "+") || (c0 == "-") then s1 else s in
      match ParseUint s' with
      | (_, Some ErrSyntax) => (0, Some ErrSyntax)
      | (un, _) =>
          let cutoff := 2 ^ 63 in
          if negb neg && (un >=? cutoff) then (cutoff - 1, Some ErrRange)
          else if neg && (un >? cutoff) then (- cutoff, Some ErrRange)
          else (if neg then - un else un, None)
      end
  end.

Definition isNumberChars (c : byte) : bool :=
  (("0" <=? c)%char && (c <=? "9")%char)
  || (c == "+") || (c == "-") || (c == "e") || (c == "E") || (c == ".").

(** [for ; sp < se; sp += 1 { if !isDigit(src[sp]) { break } }] *)
Fixpoint digit_run (n : nat) (src : list byte) (sp se : Z) : Z :=
  match n with
  | O => sp
  | S n' =>
      if sp <? se then
        if negb (isDigit (byte_at src sp)) then sp
        else digit_run n' src (sp + 1) se
      else sp
  end.

(** [for ; sp < se; sp += 1 { if !isNumberChars(src[sp]) { break } }] *)
Fixpoint number_chars_run (n : nat) (src : list byte) (sp se : Z) : Z :=
  match n with
  | O => sp
  | S n' =>
      if sp <? se then
        if negb (isNumberChars (byte_at src sp)) then sp
        else number_chars_run n' src (sp + 1) se
      else sp
  end.

Definition decodeInt64 (src : list byte) (pos : Z) : Z * Z * option NumError :=
  let sp := pos in
  let se := len src in
  if sp >=? se then (- ERR_EOF, 0, None)
  else
    let sp := if byte_at src sp == "-" then sp + 1 else sp in
    if sp >=? se then (- ERR_EOF, 0, None)
    else
      let sp := digit_run (Z.to_nat (se - sp)) src sp se in
      if (sp <? se)
         && (let c := byte_at src sp in (c == ".") || (c == "e") || (c == "E"))
      then (- ERR_INVALID_NUMBER_FMT, 0, None)
      else
        let ret := sp in
        let vv := slice src pos ret in
        match ParseInt vv with
        | (v, None) => (ret, v, None)
        | (_, Some ErrRange) => (ret, 0, Some ErrRange)
        | (_, Some e) => (- ERR_INVALID_CHAR, 0, Some e)
        end.

(** ** Structural skippers *)

(** The loop of [skipNumber].  An early [return] of the loop body is [inl]
    of the returned code; leaving the loop (by [break] or by [sp >= se]) is
    [inr] of the final pointer and of [nextNeedDigit]. *)
Fixpoint skipNumber_loop (n : nat) (src : list byte) (ss se sp : Z)
  (pointer exponent lastIsDigit nextNeedDigit : bool) : Z + Z * bool :=
  match n with
  | O => inr (sp, nextNeedDigit)
  | S n' =>
      if sp <? se then
        let c := byte_at src sp in
        if isDigit c then
          skipNumber_loop n' src ss se (sp + 1) pointer exponent true false
        else if nextNeedDigit then inl (- ERR_INVALID_CHAR)
        else if c == "." then
          if negb lastIsDigit || pointer || (sp =? ss) then inl (- ERR_INVALID_CHAR)
          else skipNumber_loop n' src ss se (sp + 1) true exponent false true
        else if (c == "e") || (c == "E") then
          if negb lastIsDigit || exponent then inl (- ERR_INVALID_CHAR)
          else if sp =? se - 1 then inl (- ERR_EOF)
          else skipNumber_loop n' src ss se (sp + 1) pointer true false false
        else if (c == "-") || (c == "+") then
          let prev := byte_at src (sp - 1) in
          if negb (prev == "e") && negb (prev == "E") then inl (- ERR_INVALID_CHAR)
          else skipNumber_loop n' src ss se (sp + 1) pointer exponent false true
        else inr (sp, nextNeedDigit)
      else inr (sp, nextNeedDigit)
  end.

Definition skipNumber (src : list byte) (pos : Z) : Z :=
  let sp := pos in
  let se := len src in
  if sp >=? se then - ERR_EOF
  else
    let sp := if byte_at src sp == "-" then sp + 1 else sp in
    let ss := sp in
    match skipNumber_loop (Z.to_nat (se - sp)) src ss se sp false false false true with
    | inl code => code
    | inr (sp, nextNeedDigit) =>
        if nextNeedDigit then - ERR_EOF else sp
    end.

(** The loop of [skipString]: the final pointer and first-escape offset. *)
Fixpoint skipString_loop (n : nat) (src : list byte) (se sp ep : Z) : Z * Z :=
  match n with
  | O => (sp, ep)
  | S n' =>
      if sp <? se then
        let c := byte_at src sp in
        if c == bslash then
          let ep := if ep =? -1 then sp else ep in
          skipString_loop n' src se (sp + 2) ep
        else
          let sp := sp + 1 in
          if c == dquote then (sp, ep)
          else skipString_loop n' src se sp ep
      else (sp, ep)
  end.

Definition skipString (src : list byte) (pos : Z) : Z * Z :=
  if pos + 1 >=? len src then (- ERR_EOF, -1)
  else
    let sp := pos in
    let se := len src in
    if negb (byte_at src sp == dquote) then (- ERR_INVALID_CHAR, -1)
    else
      let sp := sp + 1 in
      let '(sp, ep) := skipString_loop (Z.to_nat (se - sp)) src se sp (-1) in
      if sp >? se then (- ERR_EOF, -1)
      else (sp, ep).

(** The loop of [skipPair]: the final pointer and nesting counter. *)
Fixpoint skipPair_loop (n : nat) (src : list byte) (lchar rchar : byte)
  (se sp nbrace : Z) (inquote : bool) : Z * Z :=
  match n with
  | O => (sp, nbrace)
  | S n' =>
      if sp <? se then
        let c := byte_at src sp in
        if c == bslash then
          skipPair_loop n' src lchar rchar se (sp + 2) nbrace inquote
        else if c == dquote then
          skipPair_loop n' src lchar rchar se (sp + 1) nbrace (negb inquote)
        else if c == lchar then
          if negb inquote then
            skipPair_loop n' src lchar rchar se (sp + 1) (nbrace + 1) inquote
          else skipPair_loop n' src lchar rchar se (sp + 1) nbrace inquote
        else if c == rchar then
          if negb inquote then
            let nbrace := nbrace - 1 in
            if nbrace =? 0 then (sp + 1, nbrace)
            else skipPair_loop n' src lchar rchar se (sp + 1) nbrace inquote
          else skipPair_loop n' src lchar rchar se (sp + 1) nbrace inquote
        else skipPair_loop n' src lchar rchar se (sp + 1) nbrace inquote
      else (sp, nbrace)
  end.

Definition skipPair (src : list byte) (pos : Z) (lchar rchar : byte) : Z :=
  if pos + 1 >=? len src then - ERR_EOF
  else
    let sp := pos in
    let se := len src in
    if negb (byte_at src sp == lchar) then - ERR_INVALID_CHAR
    else
      let sp := sp + 1 in
      let '(sp, nbrace) :=
        skipPair_loop (Z.to_nat (se - sp)) src lchar rchar se sp 1 false in
      if negb (nbrace =? 0) then - ERR_INVALID_CHAR
      else sp.

(** ** Value dispatch *)

Definition SkipValue (src : list byte) (pos : Z) : Z * Z :=
  let pos := SkipBlank src pos in
  if pos <? 0 then (pos, -1)
  else
    let c := byte_at src pos in
    let ret :=
      if c == "n" then decodeNull src pos
      else if c == dquote then fst (skipString src pos)
      else if c == "{" then skipPair src pos "{" "}"
      else if c == "[" then skipPair src pos "[" "]"
      else if c == "t" then decodeTrue src pos
      else if c == "f" then decodeFalse src pos
      else if (c == "-") || (c == "+") || isDigit c then skipNumber src pos
      else - ERR_INVALID_CHAR in
    (ret, pos).

Section Decode.

(** [strconv.ParseFloat(s, 64)] of Go's standard library: the parsed double
    and the error kind, if any. *)
Variable ParseFloat : list byte -> float * option NumError.

Definition decodeFloat64 (src : list byte) (pos : Z) : Z * float * option NumError :=
  let sp := pos in
  let se := len src in
  if sp >=? se then (- ERR_EOF, PrimFloat.zero, None)
  else
    let sp := if byte_at src sp == "-" then sp + 1 else sp in
    if sp =? se then (- ERR_EOF, PrimFloat.zero, None)
    else
      let sp := number_chars_run (Z.to_nat (se - sp)) src sp se in
      let ret := sp in
      let vv := slice src pos ret in
      match ParseFloat vv with
      | (v, None) => (ret, v, None)
      | (_, Some ErrRange) => (ret, PrimFloat.zero, Some ErrRange)
      | (_, Some e) => (- ERR_INVALID_CHAR, PrimFloat.zero, Some e)
      end.

Definition DecodeValue (src : list byte) (pos : Z) : Z * JsonState :=
  let pos := SkipBlank src pos in
  if pos <? 0 then (pos, state_of (V_ERROR pos))
  else
    let c := byte_at src pos in
    if c == "n" then
      let ret := decodeNull src pos in
      if ret <? 0 then (ret, state_of (V_ERROR ret))
      else (ret, state_of V_NULL)
    else if c == dquote then
      let '(ret, ep) := skipString src pos in
      if ret <? 0 then (ret, state_of (V_ERROR ret))
      else (ret, mkJsonState V_STRING PrimFloat.zero (pos + 1) ep)
    else if c == "{" then (pos + 1, state_of V_OBJECT)
    else if c == "[" then (pos + 1, state_of V_ARRAY)
    else if c == "t" then
      let ret := decodeTrue src pos in
      if ret <? 0 then (ret, state_of (V_ERROR ret))
      else (ret, state_of V_TRUE)
    else if c == "f" then
      let ret := decodeFalse src pos in
      if ret <? 0 then (ret, state_of (V_ERROR ret))
      else (ret, state_of V_FALSE)
    else if (c == "-") || (c == "+") || isDigit c then
      let '(ret, iv, _) := decodeInt64 src pos in
      if ret >=? 0 then (ret, mkJsonState V_INTEGER PrimFloat.zero iv pos)
      else if negb (ret =? - ERR_INVALID_NUMBER_FMT) then
        (ret, state_of (V_ERROR ret))
      else
        let '(ret, fv, _) := decodeFloat64 src pos in
        if ret >=? 0 then (ret, mkJsonState V_DOUBLE fv 0 pos)
        else (ret, state_of (V_ERROR ret))
    else (- ERR_INVALID_CHAR, state_of (V_ERROR (- ERR_INVALID_CHAR))).

End Decode.

(** ** String and binary decoding *)

Section StringDecode.

(** [encoding/json.unquoteBytes] of Go's standard library, linked by name:
    the unquoted bytes of a quoted span, [None] when [ok] is false. *)
Variable unquoteBytes : list byte -> option (list byte).

(** [base64.StdEncoding.DecodeString] of Go's standard library: the decoded
    bytes, [None] when it returns an error. *)
Variable base64Decode : list byte -> option (list byte).

(** Without an escape the result is the string of [ret - pos - 2] bytes
    that starts at [pos + 1]; the empty result stands for [""]. *)
Definition decodeString (src : list byte) (pos : Z) : Z * list byte :=
  let '(ret, ep) := skipString src pos in
  if ret <? 0 then (ret, [])
  else if ep =? -1 then (ret, slice src (pos + 1) (pos + 1 + (ret - pos - 2)))
  else
    match unquoteBytes (slice src pos ret) with
    | None => (- ERR_INVALID_CHAR, [])
    | Some vv => (ret, vv)
    end.

(** [None] is the [nil] slice. *)
Definition decodeBinary (src : list byte) (pos : Z) : Z * option (list byte) :=
  let '(ret, vv) := decodeString src pos in
  if ret <? 0 then (ret, None)
  else
    match base64Decode vv with
    | None => (- ERR_INVALID_CHAR, None)
    | Some v => (ret, Some v)
    end.

End StringDecode.

(** ** Quoting (api_amd64.go) *)

(** A byte slice [[]byte]: its contents (whose length is the slice's [Len])
    and its capacity. *)
Record GoSlice : Type := mkSlice {
  Data : list byte;
  Cap : Z
}.

Section Quote.

(** The capacity Go's [append] gives a slice that has outgrown its own: a
    choice of the runtime, from the old capacity and the length needed. *)
Variable appendCap : Z -> Z -> Z.

(** [growslice(typeByte, b, n)] of the runtime: the capacity of the grown
    slice (at least [n]). *)
Variable growsliceCap : Z -> Z -> Z.

(** [native.Quote(sp, nb, dp, &dn, 0)] on the [nb] remaining input bytes
    and [dn] free output bytes: the returned [ret] and the bytes written
    (whose number is the updated [dn]).  Native code, outside the sources. *)
Variable nativeQuote : list byte -> Z -> Z * list byte.

(** [append(b, c)] *)
Definition append (b : GoSlice) (c : byte) : GoSlice :=
  let data := Data b ++ [c] in
  if len data <=? Cap b then mkSlice data (Cap b)
  else mkSlice data (appendCap (Cap b) (len data)).

(** The loop [for nb > 0] of [quote] on the unconsumed input; [None] when
    [fuel] iterations did not end it. *)
Fixpoint quote_loop (fuel : nat) (b : GoSlice) (input : list byte) : option GoSlice :=
  if len input >? 0 then
    match fuel with
    | O => None
    | S fuel' =>
        let dn := Cap b - len (Data b) in
        let '(ret, written) := nativeQuote input dn in
        let b := mkSlice (Data b ++ written) (Cap b) in
        if ret >=? 0 then Some b
        else
          let b := mkSlice (Data b) (growsliceCap (Cap b) (Cap b * 2)) in
          let ret := - ret - 1 in
          quote_loop fuel' b (skipn (Z.to_nat ret) input)
    end
  else Some b.

Definition quote (fuel : nat) (buf : GoSlice) (val : list byte) : option GoSlice :=
  let buf := append buf dquote in
  let buf := if len val =? 0 then append buf dquote else buf in
  match quote_loop fuel buf val with
  | None => None
  | Some b => Some (append b dquote)
  end.

End Quote.

(** An instance of [strconv.ParseFloat(s, 64)], Go's standard library, on
    the texts [decodeFloat64] can hand it, those made of digits, signs, dots
    and exponent markers.  A text is well formed when it is an optional
    sign, digits with at most one dot among them and at least one digit,
    and optionally an exponent marker, an optional sign and at least one
    digit; it denotes the decimal [m * 10 ^ e].  The result is the double
    nearest to it, ties to even, and an infinity with the range error when
    that lies beyond the largest double.  The other forms the library
    reads (hexadecimal mantissas, infinities, NaN, underscores) need bytes
    [decodeFloat64] never hands over, and this instance reports them as
    syntax errors. *)
Fixpoint decimal_digits (s : list byte) (m : Z) : Z * list byte :=
  match s with
  | c :: s' => if isDigit c then decimal_digits s' (m * 10 + digit_val c) else (m, s)
  | [] => (m, s)
  end.

(** The library stops accumulating an exponent at 10000. *)
Fixpoint exponent_digits (s : list byte) (e : Z) : Z * list byte :=
  match s with
  | c :: s' =>
      if isDigit c
      then exponent_digits s' (if e <? 10000 then e * 10 + digit_val c else e)
      else (e, s)
  | [] => (e, s)
  end.

(** What follows the mantissa: nothing, or a whole exponent. *)
Definition read_exponent (s : list byte) : option Z :=
  match s with
  | [] => Some 0
  | c :: s1 =>
      if (c == "e") || (c == "E") then
        let '(neg, s2) :=
          match s1 with
          | d :: t => if d == "+" then (false, t)
                      else if d == "-" then (true, t) else (false, s1)
          | [] => (false, s1)
          end in
        match s2 with
        | d :: _ =>
            if isDigit d then
              let '(e, rest) := exponent_digits s2 0 in
              match rest with
              | [] => Some (if neg then - e else e)
              | _ => None
              end
            else None
        | [] => None
        end
      else None
  end.

(** Integers up to [2 ^ 53] as doubles, exactly. *)
Fixpoint float_of_pos (p : positive) : float :=
  match p with
  | xH => PrimFloat.one
  | xO p' => PrimFloat.mul PrimFloat.two (float_of_pos p')
  | xI p' => PrimFloat.add (PrimFloat.mul PrimFloat.two (float_of_pos p')) PrimFloat.one
  end.

Definition float_of_Z (m : Z) : float :=
  match m with
  | Zpos p => float_of_pos p
  | _ => PrimFloat.zero
  end.

Fixpoint scale2 (n : nat) (by2 : float) (f : float) : float :=
  match n with
  | O => f
  | S n' => scale2 n' by2 (PrimFloat.mul f by2)
  end.

(** The double nearest to [m * 10 ^ e10], ties to even; [None] beyond the
    largest double.  The quotient [q] of the decimal by [2 ^ k] is rounded
    to an integer of at most 53 bits, with [k] no less than the exponent of
    the subnormals; the first two tests set aside exponents for which the
    outcome is known without computing the power of ten. *)
Definition nearest_double (m e10 : Z) : option float :=
  if m <=? 0 then Some PrimFloat.zero
  else if e10 >? 310 then None
  else if e10 + Z.log2 m + 1 <? -330 then Some PrimFloat.zero
  else
    let num := if e10 <? 0 then m else m * 10 ^ e10 in
    let den := if e10 <? 0 then 10 ^ (- e10) else 1 in
    let l := Z.log2 num - Z.log2 den in
    let fl := if Z.shiftl num (Z.max (- l) 0) <? Z.shiftl den (Z.max l 0)
              then l - 1 else l in
    let k := Z.max (fl - 52) (-1074) in
    let N := Z.shiftl num (Z.max (- k) 0) in
    let D := Z.shiftl den (Z.max k 0) in
    let q := N / D in
    let r := N mod D in
    let q := if 2 * r <? D then q
             else if D <? 2 * r then q + 1
             else if Z.even q then q else q + 1 in
    if (k >? 971) || ((k =? 971) && (q =? 2 ^ 53)) then None
    else Some (scale2 (Z.to_nat (Z.abs k))
                 (if k <? 0 then PrimFloat.div PrimFloat.one PrimFloat.two
                  else PrimFloat.two)
                 (float_of_Z q)).

Definition ParseFloat_exact (s : list byte) : float * option NumError :=
  let '(neg, s1) :=
    match s with
    | c :: s' => if c == "-" then (true, s')
                 else if c == "+" then (false, s') else (false, s)
    | [] => (false, s)
    end in
  let '(ip, s2) := decimal_digits s1 0 in
  let nint := len s1 - len s2 in
  let '(m, s3, nfrac) :=
    match s2 with
    | c :: t =>
        if c == "." then
          let '(m, rest) := decimal_digits t ip in (m, rest, len t - len rest)
        else (ip, s2, 0)
    | [] => (ip, s2, 0)
    end in
  if nint + nfrac =? 0 then (PrimFloat.zero, Some ErrSyntax)
  else
    match read_exponent s3 with
    | None => (PrimFloat.zero, Some ErrSyntax)
    | Some e =>
        match nearest_double m (e - nfrac) with
        | Some f => (if neg then PrimFloat.opp f else f, None)
        | None => (if neg then PrimFloat.neg_infinity else PrimFloat.infinity,
                   Some ErrRange)
        end
    end.

(** The double nearest to 3.14. *)
Definition f64_3_14 : float := 0x1.91eb851eb851fp+1%float.

(** ** Reference notions the properties are stated with *)

(** A run of blanks. *)
Definition blank (w : list byte) : Prop :=
  Forall (fun c => isSpace c = true) w.

(** A run of decimal digits and its value. *)
Definition digits (ds : list byte) : Prop :=
  Forall (fun c => isDigit c = true) ds.

Definition dec_step (a : Z) (c : byte) : Z := a * 10 + digit_val c.

Definition dec_val (ds : list byte) : Z := fold_left dec_step ds 0.

(** A byte that makes [decodeInt64] give up on an integer. *)
Definition isFloatMarker (c : byte) : bool :=
  (c == ".") || (c == "e") || (c == "E").

(** [rest_at src sp t]: the bytes of [src] from offset [sp] on are [t]. *)
Definition rest_at (src : list byte) (sp : Z) (t : list byte) : Prop :=
  0 <= sp /\ skipn (Z.to_nat sp) src = t.

(** What [DecodeValue] makes of the result of [decodeFloat64] at [p]. *)
Definition float_state (r : Z * float * option NumError) (p : Z) : Z * JsonState :=
  let '(ret, fv, _) := r in
  if ret >=? 0 then (ret, mkJsonState V_DOUBLE fv 0 p)
  else (ret, state_of (V_ERROR ret)).

(** The value a signed digit string denotes. *)
Definition signed_val (sign ds : list byte) : Z :=
  match sign with
  | [] => dec_val ds
  | _ => - dec_val ds
  end.

(** The object of the spec's example: a brace inside the quoted value. *)
Definition brace_in_string : list byte :=
  "{"%char :: dquote :: "a"%char :: dquote :: ":"%char
  :: dquote :: "}"%char :: dquote :: ["}"%char].

(** What [skipNumber] returns for an outcome of its loop. *)
Definition number_result (r : Z + Z * bool) : Z :=
  match r with
  | inl code => code
  | inr (sp, nextNeedDigit) => if nextNeedDigit then - ERR_EOF else sp
  end.

(** The two delimiter pairs [SkipValue] passes to [skipPair]. *)
Definition delims (lchar rchar : byte) : Prop :=
  (lchar = "{"%char /\ rchar = "}"%char) \/ (lchar = "["%char /\ rchar = "]"%char).

(** A byte that means nothing to [skipPair]: no backslash, quote, brace or
    bracket. *)
Definition inert (c : byte) : bool :=
  negb (c == bslash) && negb (c == dquote)
  && negb (c == "{") && negb (c == "}") && negb (c == "[") && negb (c == "]").

(** The byte after a token, if any, satisfies [P]. *)
Definition next_byte (P : byte -> bool) (rest : list byte) : Prop :=
  match rest with
  | [] => True
  | c :: _ => P c = true
  end.

(** The lookup table of the classifier, row by row. *)
Definition token_table (c : byte) : TokenState :=
  match c with
  | "{"%char => Obj
  | "["%char => Arr
  | "034"%char => String_
  | "0"%char | "1"%char | "2"%char | "3"%char | "4"%char
  | "5"%char | "6"%char | "7"%char | "8"%char | "9"%char
  | "+"%char | "-"%char => Number
  | "n"%char => Null
  | "t"%char => True_
  | "f"%char => False_
  | ","%char => Comma
  | ":"%char => Colon
  | "]"%char => EndArr
  | "}"%char => EndObj
  | _ => Invalid
  end.

(** *** The JSON grammar (RFC 8259) on byte lists *)

Definition isHex (c : byte) : bool :=
  isDigit c
  || (("a" <=? c)%char && (c <=? "f")%char)
  || (("A" <=? c)%char && (c <=? "F")%char).

(** A byte that stands for itself inside a string: not a quote, not a
    backslash, not a control character. *)
Definition isPlain (c : byte) : bool :=
  negb (c == dquote) && negb (c == bslash) && (" " <=? c)%char.

(** A byte that may follow a backslash in a two-byte escape. *)
Definition isEscapee (c : byte) : bool :=
  (c == dquote) || (c == bslash) || (c == "/") || (c == "b")
  || (c == "f") || (c == "n") || (c == "r") || (c == "t").

Inductive string_body : list byte -> Prop :=
| SB_nil : string_body []
| SB_plain c s :
    isPlain c = true -> string_body s -> string_body (c :: s)
| SB_escape e s :
    isEscapee e = true -> string_body s -> string_body (bslash :: e :: s)
| SB_unicode h1 h2 h3 h4 s :
    isHex h1 = true -> isHex h2 = true -> isHex h3 = true -> isHex h4 = true ->
    string_body s ->
    string_body (bslash :: "u"%char :: h1 :: h2 :: h3 :: h4 :: s).

Definition json_string (s : list byte) : Prop :=
  exists body, string_body body /\ s = dquote :: body ++ [dquote].

(** [int = zero / ( digit1-9 *DIGIT )] *)
Inductive json_int : list byte -> Prop :=
| JI_zero : json_int ["0"%char]
| JI_digits d ds :
    isDigit d = true -> d <> "0"%char -> digits ds -> json_int (d :: ds).

(** [frac = decimal-point 1*DIGIT], or nothing. *)
Inductive json_frac : list byte -> Prop :=
| JF_none : json_frac []
| JF_some d ds : isDigit d = true -> digits ds -> json_frac ("."%char :: d :: ds).

(** [exp = e [ minus / plus ] 1*DIGIT], or nothing. *)
Inductive json_exp : list byte -> Prop :=
| JX_none : json_exp []
| JX_some e sign d ds :
    e = "e"%char \/ e = "E"%char ->
    sign = [] \/ sign = ["+"%char] \/ sign = ["-"%char] ->
    isDigit d = true -> digits ds ->
    json_exp (e :: sign ++ d :: ds).

(** [number = [ minus ] int [ frac ] [ exp ]] *)
Inductive json_number : list byte -> Prop :=
| JN_intro minus i f x :
    minus = [] \/ minus = ["-"%char] ->
    json_int i -> json_frac f -> json_exp x ->
    json_number (minus ++ i ++ f ++ x).

Inductive json_value : list byte -> Prop :=
| JV_null : json_value (bytes "null")
| JV_true : json_value (bytes "true")
| JV_false : json_value (bytes "false")
| JV_number n : json_number n -> json_value n
| JV_string s : json_string s -> json_value s
| JV_empty_array w :
    blank w -> json_value ("["%char :: w ++ ["]"%char])
| JV_array es :
    json_elements es -> json_value ("["%char :: es ++ ["]"%char])
| JV_empty_object w :
    blank w -> json_value ("{"%char :: w ++ ["}"%char])
| JV_object ms :
    json_members ms -> json_value ("{"%char :: ms ++ ["}"%char])
with json_elements : list byte -> Prop :=
| JE_last w1 v w2 :
    blank w1 -> json_value v -> blank w2 ->
    json_elements (w1 ++ v ++ w2)
| JE_more w1 v w2 es :
    blank w1 -> json_value v -> blank w2 -> json_elements es ->
    json_elements (w1 ++ v ++ w2 ++ ","%char :: es)
with json_members : list byte -> Prop :=
| JM_last w1 k w2 w3 v w4 :
    blank w1 -> json_string k -> blank w2 ->
    blank w3 -> json_value v -> blank w4 ->
    json_members (w1 ++ k ++ w2 ++ ":"%char :: w3 ++ v ++ w4)
| JM_more w1 k w2 w3 v w4 ms :
    blank w1 -> json_string k -> blank w2 ->
    blank w3 -> json_value v -> blank w4 -> json_members ms ->
    json_members (w1 ++ k ++ w2 ++ ":"%char :: w3 ++ v ++ w4 ++ ","%char :: ms).

Scheme json_value_mut := Minimality for json_value Sort Prop
with json_elements_mut := Minimality for json_elements Sort Prop
with json_members_mut := Minimality for json_members Sort Prop.

Combined Scheme json_mutind from json_value_mut, json_elements_mut, json_members_mut.

(** An array with a nested object, a string holding a bracket and an
    escaped quote, after two blanks and before a comma. *)
Definition sample_value : list byte :=
  bytes "[1,{" ++ dquote :: bytes "k]" ++ bslash :: dquote :: dquote
  :: bytes ":-2.5e+3},null]".

(** A pair body without nested pairs: bytes that mean nothing to
    [skipPair], and whole JSON strings, whatever they hold. *)
Inductive flat_body : list byte -> Prop :=
| FB_nil : flat_body []
| FB_byte c t : inert c = true -> flat_body t -> flat_body (c :: t)
| FB_string k t : json_string k -> flat_body t -> flat_body (k ++ t).

(** What [decodeFloat64] makes of the parse of a span that ends at [ret]. *)
Definition float_result (r : float * option NumError) (ret : Z)
  : Z * float * option NumError :=
  match r with
  | (v, None) => (ret, v, None)
  | (_, Some ErrRange) => (ret, PrimFloat.zero, Some ErrRange)
  | (_, Some e) => (- ERR_INVALID_CHAR, PrimFloat.zero, Some e)
  end.

(** An instance of the native quoting routine that escapes nothing: it
    copies as many input bytes as the output has room for, and returns the
    input length when all fitted and the complement of the number of bytes
    it consumed otherwise. *)
Definition copy_quote (input : list byte) (dn : Z) : Z * list byte :=
  if len input <=? dn then (len input, input)
  else (- Z.max 0 dn - 1, firstn (Z.to_nat (Z.max 0 dn)) input).

(** The offset of the first backslash of a string body that starts at
    offset [sp], or -1 when the body has none. *)
Fixpoint first_escape (body : list byte) (sp : Z) : Z :=
  match body with
  | [] => -1
  | c :: body' => if c == bslash then sp else first_escape body' (sp + 1)
  end.

(** A JSON value that is no object and no array, with the text [PF] has to
    accept when the value is a number with a fraction or an exponent. *)
Inductive json_scalar : list byte -> Prop :=
| JS_null : json_scalar (bytes "null")
| JS_true : json_scalar (bytes "true")
| JS_false : json_scalar (bytes "false")
| JS_number n : json_number n -> json_scalar n
| JS_string s : json_string s -> json_scalar s.

(** The tokens of [Peek] that start a value. *)
Definition starts_value (t : TokenState) : bool :=
  match t with
  | Null | True_ | False_ | Number | String_ | Obj | Arr => true
  | _ => false
  end.

(** A state tagged as an error. *)
Definition is_error (st : JsonState) : bool :=
  match Vt st with
  | V_ERROR _ => true
  | _ => false
  end.

(** *** The nesting counter of section 4.3, on the bytes after the opening
    delimiter *)

(** Following the spec's words: the counter and the in-quote flag are
    carried along the bytes; a backslash skips the next byte, an unescaped
    quote toggles the flag, and outside quotes the open byte increments and
    the close byte decrements the counter.  The result tells whether the
    counter reaches 0. *)
Fixpoint counter_reaches_zero (lchar rchar : byte) (t : list byte)
  (nbrace : Z) (inquote : bool) : bool :=
  match t with
  | [] => false
  | c :: t' =>
      if c == bslash then
        match t' with
        | [] => false
        | _ :: t'' => counter_reaches_zero lchar rchar t'' nbrace inquote
        end
      else if c == dquote then
        counter_reaches_zero lchar rchar t' nbrace (negb inquote)
      else if inquote then counter_reaches_zero lchar rchar t' nbrace inquote
      else if c == lchar then
        counter_reaches_zero lchar rchar t' (nbrace + 1) inquote
      else if c == rchar then
        (nbrace - 1 =? 0)
        || counter_reaches_zero lchar rchar t' (nbrace - 1) inquote
      else counter_reaches_zero lchar rchar t' nbrace inquote
  end.

(** ** The loops seen on the bytes still to be read

    Each loop reads [src] only at [sp] (and, in [skipNumber], at [sp - 1])
    and only while [sp < se], so it is a function of the bytes from [sp]
    on.  These list forms are related to the loops above by the lemmas
    [skipString_loop_scan], [skipPair_loop_scan] and [skipNumber_loop_scan]. *)

Fixpoint string_scan (t : list byte) (sp ep : Z) : Z * Z :=
  match t with
  | [] => (sp, ep)
  | c :: t' =>
      if c == bslash then
        let ep := if ep =? -1 then sp else ep in
        match t' with
        | [] => (sp + 2, ep)
        | _ :: t'' => string_scan t'' (sp + 2) ep
        end
      else if c == dquote then (sp + 1, ep)
      else string_scan t' (sp + 1) ep
  end.

Fixpoint pair_scan (lchar rchar : byte) (t : list byte)
  (sp nbrace : Z) (inquote : bool) : Z * Z :=
  match t with
  | [] => (sp, nbrace)
  | c :: t' =>
      if c == bslash then
        match t' with
        | [] => (sp + 2, nbrace)
        | _ :: t'' => pair_scan lchar rchar t'' (sp + 2) nbrace inquote
        end
      else if c == dquote then
        pair_scan lchar rchar t' (sp + 1) nbrace (negb inquote)
      else if c == lchar then
        pair_scan lchar rchar t' (sp + 1)
          (if negb inquote then nbrace + 1 else nbrace) inquote
      else if c == rchar then
        if negb inquote then
          if nbrace - 1 =? 0 then (sp + 1, nbrace - 1)
          else pair_scan lchar rchar t' (sp + 1) (nbrace - 1) inquote
        else pair_scan lchar rchar t' (sp + 1) nbrace inquote
      else pair_scan lchar rchar t' (sp + 1) nbrace inquote
  end.

(** [prev] is the byte before [sp]; [t' = []] is [sp == se - 1]. *)
Fixpoint number_scan (t : list byte) (prev : byte) (ss sp : Z)
  (pointer exponent lastIsDigit nextNeedDigit : bool) : Z + Z * bool :=
  match t with
  | [] => inr (sp, nextNeedDigit)
  | c :: t' =>
      if isDigit c then number_scan t' c ss (sp + 1) pointer exponent true false
      else if nextNeedDigit then inl (- ERR_INVALID_CHAR)
      else if c == "." then
        if negb lastIsDigit || pointer || (sp =? ss) then inl (- ERR_INVALID_CHAR)
        else number_scan t' c ss (sp + 1) true exponent false true
      else if (c == "e") || (c == "E") then
        if negb lastIsDigit || exponent then inl (- ERR_INVALID_CHAR)
        else
          match t' with
          | [] => inl (- ERR_EOF)
          | _ => number_scan t' c ss (sp + 1) pointer true false false
          end
      else if (c == "-") || (c == "+") then
        if negb (prev == "e") && negb (prev == "E") then inl (- ERR_INVALID_CHAR)
        else number_scan t' c ss (sp + 1) pointer exponent false true
      else inr (sp, nextNeedDigit)
  end.

(** [transparent lchar rchar t]: outside quotes, the loop of [skipPair]
    passes over [t] and finds its counter and flag as they were. *)
Definition transparent (lchar rchar : byte) (t : list byte) : Prop :=
  forall rest sp nbrace, 1 <= nbrace ->
    pair_scan lchar rchar (t ++ rest) sp nbrace false
    = pair_scan lchar rchar rest (sp + len t) nbrace false.

(** * Properties *)

(** ** Lengths, offsets and reads *)

Lemma len_nil : len [] = 0.
Proof. reflexivity. Qed.

Lemma len_cons (c : byte) (l : list byte) : len (c :: l) = len l + 1.
Proof. unfold len. cbn [List.length]. lia. Qed.

Lemma len_app (a b : list byte) : len (a ++ b) = len a + len b.
Proof. unfold len. rewrite length_app. lia. Qed.

Lemma len_nonneg (l : list byte) : 0 <= len l.
Proof. unfold len. lia. Qed.

Lemma skipn_len_app (pre l : list byte) :
  skipn (Z.to_nat (len pre)) (pre ++ l) = l.
Proof.
  unfold len. rewrite Nat2Z.id.
  rewrite skipn_app, skipn_all, Nat.sub_diag. reflexivity.
Qed.

Lemma rest_at_app (pre t : list byte) : rest_at (pre ++ t) (len pre) t.
Proof. split; [apply len_nonneg | apply skipn_len_app]. Qed.

Lemma rest_at_self (src : list byte) : rest_at src 0 src.
Proof. split; [lia | reflexivity]. Qed.

Lemma rest_at_nil (src : list byte) (sp : Z) :
  rest_at src sp [] -> len src <= sp.
Proof.
  intros [H0 H]. unfold len.
  destruct (Nat.le_gt_cases (List.length src) (Z.to_nat sp)) as [Hle|Hgt]; [lia|].
  apply (f_equal (@List.length _)) in H. rewrite length_skipn in H.
  cbn in H. lia.
Qed.

Lemma rest_at_cons (src : list byte) (sp : Z) (c : byte) (t : list byte) :
  rest_at src sp (c :: t) ->
  byte_at src sp = c /\ sp < len src /\ rest_at src (sp + 1) t.
Proof.
  intros [H0 H]. unfold byte_at, len, rest_at.
  assert (Hn : nth (Z.to_nat sp) src "000"%char = c).
  { rewrite <- (Nat.add_0_r (Z.to_nat sp)), <- nth_skipn, H. reflexivity. }
  assert (Hl : (Z.to_nat sp < List.length src)%nat).
  { apply (f_equal (@List.length _)) in H. rewrite length_skipn in H.
    cbn in H. lia. }
  repeat split; [exact Hn | lia | lia |].
  replace (Z.to_nat (sp + 1)) with (1 + Z.to_nat sp)%nat by lia.
  rewrite <- skipn_skipn, H. reflexivity.
Qed.

Lemma rest_at_len (src : list byte) (sp : Z) (t : list byte) :
  rest_at src sp t -> sp <= len src -> len src = sp + len t.
Proof.
  intros [H0 H] Hle. unfold len in *.
  apply (f_equal (@List.length _)) in H. rewrite length_skipn in H. lia.
Qed.

Lemma rest_at_skip (src : list byte) (sp : Z) (a t : list byte) :
  rest_at src sp (a ++ t) -> rest_at src (sp + len a) t.
Proof.
  revert sp. induction a as [|c a IH]; intros sp H.
  - rewrite len_nil, Z.add_0_r. exact H.
  - cbn [app] in H. apply rest_at_cons in H as (_ & _ & H).
    apply IH in H. rewrite len_cons.
    replace (sp + (len a + 1)) with (sp + 1 + len a) by lia. exact H.
Qed.

Lemma slice_app (pre t rest : list byte) :
  slice (pre ++ t ++ rest) (len pre) (len pre + len t) = t.
Proof.
  unfold slice. rewrite skipn_len_app.
  replace (len pre + len t - len pre) with (len t) by lia.
  unfold len. rewrite Nat2Z.id, firstn_app, firstn_all, Nat.sub_diag.
  cbn. apply app_nil_r.
Qed.

Lemma rest_at_beyond (src : list byte) (sp : Z) :
  0 <= sp -> len src <= sp -> rest_at src sp [].
Proof.
  intros H0 H. split; [exact H0|]. apply skipn_all2. unfold len in H. lia.
Qed.

Lemma rest_at_cons_absurd (src : list byte) (sp : Z) (c : byte) (t : list byte) :
  rest_at src sp (c :: t) -> len src <= sp -> False.
Proof. intros H Hle. apply rest_at_cons in H. lia. Qed.

Lemma rest_at_uncons (src : list byte) (sp : Z) :
  0 <= sp -> sp < len src ->
  rest_at src sp (byte_at src sp :: skipn (Z.to_nat (sp + 1)) src).
Proof.
  intros H0 Hlt. split; [exact H0|].
  destruct (skipn (Z.to_nat sp) src) as [|c t] eqn:E.
  - assert (H : rest_at src sp []) by (split; assumption).
    apply rest_at_nil in H. lia.
  - assert (H : rest_at src sp (c :: t)) by (split; assumption).
    apply rest_at_cons in H as (Hb & _ & _ & Ht). rewrite Hb, Ht. reflexivity.
Qed.

(** ** The loops and their list forms *)

Ltac read_byte H :=
  let Hb := fresh "Hb" in
  let Hlt := fresh "Hlt" in
  apply rest_at_cons in H as (Hb & Hlt & H);
  rewrite Hb;
  match goal with
  | |- context [?sp <? ?se] =>
      replace (sp <? se) with true by (symmetry; apply Z.ltb_lt; exact Hlt)
  end.

Lemma skipString_loop_scan (n : nat) :
  forall src sp ep t,
    rest_at src sp t -> len src - sp <= Z.of_nat n ->
    skipString_loop n src (len src) sp ep = string_scan t sp ep.
Proof.
  induction n as [|n IH]; intros src sp ep t H Hn.
  - destruct t as [|c t]; [reflexivity|].
    exfalso. apply (rest_at_cons_absurd _ _ _ _ H). lia.
  - cbn [skipString_loop]. destruct t as [|c t].
    + apply rest_at_nil in H.
      replace (sp <? len src) with false by (symmetry; apply Z.ltb_ge; lia).
      reflexivity.
    + pose proof H as [H0 _]. read_byte H. cbn [string_scan].
      destruct (c == bslash).
      * destruct t as [|c' t].
        -- apply rest_at_nil in H.
           apply (IH src (sp + 2) _ []); [apply rest_at_beyond; lia | lia].
        -- apply rest_at_cons in H as (_ & _ & H).
           replace (sp + 1 + 1) with (sp + 2) in H by lia.
           apply IH; [exact H | lia].
      * destruct (c == dquote); [reflexivity|].
        apply IH; [exact H | lia].
Qed.

Lemma skipPair_loop_scan (n : nat) :
  forall src lchar rchar sp nbrace inquote t,
    rest_at src sp t -> len src - sp <= Z.of_nat n ->
    skipPair_loop n src lchar rchar (len src) sp nbrace inquote
    = pair_scan lchar rchar t sp nbrace inquote.
Proof.
  induction n as [|n IH]; intros src lchar rchar sp nbrace inquote t H Hn.
  - destruct t as [|c t]; [reflexivity|].
    exfalso. apply (rest_at_cons_absurd _ _ _ _ H). lia.
  - cbn [skipPair_loop]. destruct t as [|c t].
    + apply rest_at_nil in H.
      replace (sp <? len src) with false by (symmetry; apply Z.ltb_ge; lia).
      reflexivity.
    + pose proof H as [H0 _]. read_byte H. cbn [pair_scan].
      destruct (c == bslash).
      * destruct t as [|c' t].
        -- apply rest_at_nil in H.
           apply (IH src _ _ (sp + 2) _ _ []); [apply rest_at_beyond; lia | lia].
        -- apply rest_at_cons in H as (_ & _ & H).
           replace (sp + 1 + 1) with (sp + 2) in H by lia.
           apply IH; [exact H | lia].
      * destruct (c == dquote); [apply IH; [exact H | lia]|].
        destruct (Ascii.eqb c lchar).
        { destruct inquote; cbn [negb]; apply IH; solve [exact H | lia]. }
        destruct (Ascii.eqb c rchar); [|apply IH; [exact H | lia]].
        destruct inquote; cbn [negb]; [apply IH; [exact H | lia]|].
        destruct (nbrace - 1 =? 0); [reflexivity|].
        apply IH; [exact H | lia].
Qed.

Lemma skipNumber_loop_scan (n : nat) :
  forall src ss sp pointer exponent lastIsDigit nextNeedDigit t,
    rest_at src sp t -> len src - sp <= Z.of_nat n ->
    skipNumber_loop n src ss (len src) sp pointer exponent lastIsDigit nextNeedDigit
    = number_scan t (byte_at src (sp - 1)) ss sp
        pointer exponent lastIsDigit nextNeedDigit.
Proof.
  induction n as [|n IH];
    intros src ss sp pointer exponent lastIsDigit nextNeedDigit t H Hn.
  - destruct t as [|c t]; [reflexivity|].
    exfalso. apply (rest_at_cons_absurd _ _ _ _ H). lia.
  - cbn [skipNumber_loop]. destruct t as [|c t].
    + apply rest_at_nil in H.
      replace (sp <? len src) with false by (symmetry; apply Z.ltb_ge; lia).
      reflexivity.
    + pose proof H as [H0 _].
      assert (Hprev : byte_at src (sp + 1 - 1) = c).
      { replace (sp + 1 - 1) with sp by lia. apply (rest_at_cons _ _ _ _ H). }
      assert (Hlast : (sp =? len src - 1) = match t with [] => true | _ => false end).
      { pose proof (rest_at_len _ _ _ H) as Hl.
        apply rest_at_cons in H as (_ & Hlt & _).
        rewrite len_cons in Hl. specialize (Hl ltac:(lia)).
        destruct t as [|c' t].
        - rewrite len_nil in Hl. apply Z.eqb_eq. lia.
        - rewrite len_cons in Hl. pose proof (len_nonneg t).
          apply Z.eqb_neq. lia. }
      read_byte H. cbn [number_scan].
      destruct (isDigit c).
      { rewrite (IH _ _ _ _ _ _ _ _ H) by lia. rewrite Hprev. reflexivity. }
      destruct nextNeedDigit; [reflexivity|].
      destruct (c == ".").
      { destruct (negb lastIsDigit || pointer || (sp =? ss)); [reflexivity|].
        rewrite (IH _ _ _ _ _ _ _ _ H) by lia. rewrite Hprev. reflexivity. }
      destruct ((c == "e") || (c == "E")).
      { destruct (negb lastIsDigit || exponent); [reflexivity|].
        rewrite Hlast. destruct t as [|c' t]; [reflexivity|].
        rewrite (IH _ _ _ _ _ _ _ _ H) by lia. rewrite Hprev. reflexivity. }
      destruct ((c == "-") || (c == "+")); [|reflexivity].
      destruct (negb (byte_at src (sp - 1) == "e") && negb (byte_at src (sp - 1) == "E"));
        [reflexivity|].
      rewrite (IH _ _ _ _ _ _ _ _ H) by lia. rewrite Hprev. reflexivity.
Qed.

(** ** Blank skipping and classification *)

(** Case analysis on the eight bits of a byte. *)
Ltac byte_cases c := destruct c as [[] [] [] [] [] [] [] []].

Lemma skip_blank_app (w t : list byte) (p : Z) :
  blank w -> skip_blank (w ++ t) p = skip_blank t (p + len w).
Proof.
  intros Hw. revert p. induction Hw as [|c w Hc Hw IH]; intros p.
  - cbn [app]. rewrite len_nil. f_equal. lia.
  - cbn [app skip_blank]. rewrite Hc, IH, len_cons. f_equal. lia.
Qed.

Lemma SkipBlank_stops (pre w : list byte) (c : byte) (rest : list byte) :
  blank w -> isSpace c = false ->
  SkipBlank (pre ++ w ++ c :: rest) (len pre) = len pre + len w.
Proof.
  intros Hw Hc. unfold SkipBlank.
  rewrite skipn_len_app, skip_blank_app by exact Hw.
  cbn [skip_blank]. rewrite Hc. reflexivity.
Qed.

Lemma SkipBlank_eof (pre w : list byte) :
  blank w -> SkipBlank (pre ++ w) (len pre) = - ERR_EOF.
Proof.
  intros Hw. unfold SkipBlank.
  rewrite skipn_len_app, <- (app_nil_r w), skip_blank_app by exact Hw.
  reflexivity.
Qed.

Lemma byte_at_app (pre w : list byte) (c : byte) (rest : list byte) :
  byte_at (pre ++ w ++ c :: rest) (len pre + len w) = c.
Proof.
  pose proof (rest_at_skip _ _ _ _ (rest_at_app pre (w ++ c :: rest))) as H.
  apply rest_at_cons in H. apply H.
Qed.

Lemma offset_not_negative (pre w : list byte) :
  (len pre + len w <? 0) = false.
Proof.
  apply Z.ltb_ge. pose proof (len_nonneg pre). pose proof (len_nonneg w). lia.
Qed.

(** C8.  [Peek] skips the leading blanks (space, tab, newline, carriage
    return); at the first byte [c] that is not a blank it returns the
    offset of [c] itself (the byte is not consumed) with the token of [c]
    in the lookup table, or the negative invalid-character code with
    [Invalid] when the table has no row for [c]; when the input ends while
    blanks are skipped it returns the negative EOF code. *)
Theorem Peek_classifies :
  (forall pre w c rest, blank w -> isSpace c = false ->
     Peek (pre ++ w ++ c :: rest) (len pre)
     = match token_table c with
       | Invalid => (- ERR_INVALID_CHAR, Invalid)
       | tok => (len pre + len w, tok)
       end
     /\ byte_at (pre ++ w ++ c :: rest) (len pre + len w) = c)
  /\ (forall pre w, blank w -> Peek (pre ++ w) (len pre) = (- ERR_EOF, Invalid))
  /\ - ERR_INVALID_CHAR < 0 /\ - ERR_EOF < 0.
Proof.
  split; [|split; [|split; reflexivity]].
  - intros pre w c rest Hw Hc. split; [|apply byte_at_app].
    unfold Peek. rewrite SkipBlank_stops by assumption.
    rewrite offset_not_negative, byte_at_app.
    clear Hc. byte_cases c; reflexivity.
  - intros pre w Hw. unfold Peek. rewrite SkipBlank_eof by exact Hw.
    reflexivity.
Qed.

(** The spec's example: three spaces, a newline and a tab before [[1,2]]. *)
Lemma Peek_classifies_witness :
  Peek (bytes "   " ++ ["010"%char; "009"%char] ++ "["%char :: bytes "1,2]") 0
  = (5, Arr).
Proof.
  pose proof (proj1 Peek_classifies [] (bytes "   " ++ ["010"%char; "009"%char])
                "["%char (bytes "1,2]")) as H.
  rewrite <- app_assoc in H.
  apply H; [repeat constructor | reflexivity].
Defined.

(** ** Digit runs *)

Lemma rest_at_mid (pre w t : list byte) :
  rest_at (pre ++ w ++ t) (len pre + len w) t.
Proof. apply rest_at_skip, rest_at_app. Qed.

Lemma digit_run_spec (n : nat) :
  forall src sp ds rest,
    rest_at src sp (ds ++ rest) -> digits ds ->
    next_byte (fun c => negb (isDigit c)) rest ->
    len src - sp <= Z.of_nat n ->
    digit_run n src sp (len src) = sp + len ds.
Proof.
  induction n as [|n IH]; intros src sp ds rest H Hds Hrest Hn.
  - destruct ds as [|d ds]; [rewrite len_nil; cbn; lia|].
    exfalso. apply (rest_at_cons_absurd _ _ _ _ H). lia.
  - cbn [digit_run]. destruct Hds as [|d ds Hd Hds].
    + rewrite len_nil, Z.add_0_r. cbn [app] in H.
      destruct rest as [|c rest].
      * apply rest_at_nil in H.
        replace (sp <? len src) with false by (symmetry; apply Z.ltb_ge; lia).
        reflexivity.
      * read_byte H. cbn in Hrest. rewrite Hrest. reflexivity.
    + cbn [app] in H. read_byte H. rewrite Hd. cbn [negb].
      rewrite (IH _ _ ds rest H Hds Hrest) by lia.
      rewrite len_cons. lia.
Qed.

Lemma rest_at_split (src : list byte) (p : Z) (c : byte) (t : list byte) :
  rest_at src p (c :: t) ->
  exists pre, src = pre ++ c :: t /\ len pre = p.
Proof.
  intros H. pose proof H as [H0 Hs]. apply rest_at_cons in H as (_ & Hlt & _).
  exists (firstn (Z.to_nat p) src). split.
  - rewrite <- Hs. symmetry. apply firstn_skipn.
  - unfold len in *. rewrite length_firstn. lia.
Qed.

Section DecodeProperties.

Variable ParseFloat : list byte -> float * option NumError.

(** C10.  When the byte at the post-blank position [p] is an opening brace
    (respectively bracket), [DecodeValue] returns [p + 1], just past that
    byte, with the Object (respectively Array) tag; nothing after the
    delimiter is read, so a lone brace ending the buffer succeeds too. *)
Theorem DecodeValue_open_delimiter :
  forall src pos p,
    SkipBlank src pos = p -> 0 <= p ->
    (byte_at src p = "{"%char ->
     DecodeValue ParseFloat src pos = (p + 1, state_of V_OBJECT))
    /\ (byte_at src p = "["%char ->
        DecodeValue ParseFloat src pos = (p + 1, state_of V_ARRAY)).
Proof.
  intros src pos p Hp H0. unfold DecodeValue. rewrite Hp.
  replace (p <? 0) with false by (symmetry; apply Z.ltb_ge; exact H0).
  split; intros ->; reflexivity.
Qed.

(** C9.  When the byte at the post-blank position [p] is a plus sign,
    [Peek] classifies the token as a number, while [SkipValue] and
    [DecodeValue] both return the invalid-character code: [skipNumber]
    requires a digit first, and [decodeInt64] hands an empty digit span to
    the integer parser. *)
Theorem plus_prefix_is_rejected :
  forall src pos p,
    SkipBlank src pos = p -> 0 <= p < len src -> byte_at src p = "+"%char ->
    Peek src pos = (p, Number)
    /\ skipNumber src p = - ERR_INVALID_CHAR
    /\ SkipValue src pos = (- ERR_INVALID_CHAR, p)
    /\ slice src p (digit_run (Z.to_nat (len src - p)) src p (len src)) = []
    /\ decodeInt64 src p = (- ERR_INVALID_CHAR, 0, Some ErrSyntax)
    /\ DecodeValue ParseFloat src pos
       = (- ERR_INVALID_CHAR, state_of (V_ERROR (- ERR_INVALID_CHAR))).
Proof.
  intros src pos p Hblank [H0 Hlt] Hb.
  pose proof (rest_at_uncons src p H0 Hlt) as Hrest. rewrite Hb in Hrest.
  assert (Hneg : (p <? 0) = false) by (apply Z.ltb_ge; exact H0).
  assert (Hge : (p >=? len src) = false).
  { rewrite Z.geb_leb. apply Z.leb_gt. exact Hlt. }
  assert (Hrun : digit_run (Z.to_nat (len src - p)) src p (len src) = p).
  { rewrite (digit_run_spec _ src p [] _ Hrest) by (constructor || reflexivity || lia).
    rewrite len_nil. lia. }
  assert (Hskip : skipNumber src p = - ERR_INVALID_CHAR).
  { unfold skipNumber. rewrite Hge, Hb. cbn -[skipNumber_loop Z.to_nat].
    rewrite (skipNumber_loop_scan _ _ _ _ _ _ _ _ _ Hrest) by lia.
    reflexivity. }
  assert (Hint : decodeInt64 src p = (- ERR_INVALID_CHAR, 0, Some ErrSyntax)).
  { unfold decodeInt64. rewrite Hge, Hb. cbn -[digit_run Z.to_nat slice].
    rewrite Hge, Hrun, Hb.
    replace (p <? len src) with true by (symmetry; apply Z.ltb_lt; exact Hlt).
    cbn -[slice]. unfold slice. rewrite Z.sub_diag. reflexivity. }
  repeat split.
  - unfold Peek. rewrite Hblank, Hneg, Hb. reflexivity.
  - exact Hskip.
  - unfold SkipValue. rewrite Hblank, Hneg, Hb. cbn -[skipNumber].
    rewrite Hskip. reflexivity.
  - rewrite Hrun. unfold slice. rewrite Z.sub_diag. reflexivity.
  - exact Hint.
  - unfold DecodeValue. rewrite Hblank, Hneg, Hb. cbn -[decodeInt64].
    rewrite Hint. reflexivity.
Qed.

End DecodeProperties.

(** A lone brace, and a lone bracket after a blank. *)
Lemma DecodeValue_open_delimiter_witness :
  DecodeValue ParseFloat_exact ["{"%char] 0 = (1, state_of V_OBJECT)
  /\ DecodeValue ParseFloat_exact (bytes " [") 0 = (2, state_of V_ARRAY).
Proof.
  split.
  - apply (DecodeValue_open_delimiter ParseFloat_exact ["{"%char] 0 0);
      [reflexivity | lia | reflexivity].
  - apply (DecodeValue_open_delimiter ParseFloat_exact (bytes " [") 0 1);
      [reflexivity | lia | reflexivity].
Defined.

Lemma plus_prefix_is_rejected_witness :
  Peek (bytes " +1") 0 = (1, Number)
  /\ SkipValue (bytes " +1") 0 = (- ERR_INVALID_CHAR, 1)
  /\ DecodeValue ParseFloat_exact (bytes " +1") 0
     = (- ERR_INVALID_CHAR, state_of (V_ERROR (- ERR_INVALID_CHAR))).
Proof.
  destruct (plus_prefix_is_rejected ParseFloat_exact (bytes " +1") 0 1)
    as (H1 & _ & H3 & _ & _ & H6);
    [reflexivity | split; [lia | reflexivity] | reflexivity |].
  repeat split; assumption.
Defined.

(** ** The integer decoder and the float fallback *)

(** What [digit_run] returns is the end of a run of digits that starts at
    [sp]. *)
Lemma digit_run_inv (n : nat) :
  forall src sp, 0 <= sp ->
    exists ds, digits ds
      /\ digit_run n src sp (len src) = sp + len ds
      /\ rest_at src sp (ds ++ skipn (Z.to_nat (sp + len ds)) src).
Proof.
  induction n as [|n IH]; intros src sp H0.
  - exists []. rewrite len_nil, Z.add_0_r.
    repeat split; [constructor | exact H0].
  - cbn [digit_run]. destruct (sp <? len src) eqn:Hlt.
    + apply Z.ltb_lt in Hlt. destruct (isDigit (byte_at src sp)) eqn:Hd; cbn [negb].
      * destruct (IH src (sp + 1) ltac:(lia)) as (ds & Hds & Hrun & Hrest).
        exists (byte_at src sp :: ds). rewrite len_cons.
        replace (sp + (len ds + 1)) with (sp + 1 + len ds) by lia.
        repeat split; [constructor; assumption | exact Hrun | exact H0 |].
        cbn [app]. destruct Hrest as [_ Hrest]. rewrite <- Hrest.
        apply (rest_at_uncons src sp H0 Hlt).
      * exists []. rewrite len_nil, Z.add_0_r.
        repeat split; [constructor | exact H0].
    + exists []. rewrite len_nil, Z.add_0_r.
      repeat split; [constructor | exact H0].
Qed.

Lemma firstn_skipn_at (src : list byte) (pos : Z) :
  0 <= pos -> pos <= len src ->
  src = firstn (Z.to_nat pos) src ++ skipn (Z.to_nat pos) src
  /\ len (firstn (Z.to_nat pos) src) = pos.
Proof.
  intros H0 Hle. split; [symmetry; apply firstn_skipn|].
  unfold len in *. rewrite length_firstn. lia.
Qed.

Lemma digit_not_minus (c : byte) : isDigit c = true -> (c == "-") = false.
Proof. byte_cases c; (discriminate || reflexivity). Qed.

Lemma marker_not_digit (c : byte) :
  isFloatMarker c = true -> isDigit c = false /\ (c == "-") = false.
Proof. byte_cases c; (discriminate || (split; reflexivity)). Qed.

Lemma decodeInt64_marker (pre sign ds : list byte) (c : byte) (rest : list byte) :
  sign = [] \/ sign = ["-"%char] -> digits ds -> isFloatMarker c = true ->
  decodeInt64 (pre ++ sign ++ ds ++ c :: rest) (len pre)
  = (- ERR_INVALID_NUMBER_FMT, 0, None).
Proof.
  intros Hsign Hds Hc.
  set (src := pre ++ sign ++ ds ++ c :: rest).
  pose proof (rest_at_app pre (sign ++ ds ++ c :: rest)) as H. fold src in H.
  destruct (marker_not_digit c Hc) as [Hnd Hnm].
  assert (Hnext : next_byte (fun c => negb (isDigit c)) (c :: rest)).
  { cbn. rewrite Hnd. reflexivity. }
  assert (Hgo : forall sp, rest_at src sp (ds ++ c :: rest) ->
    (let sp := digit_run (Z.to_nat (len src - sp)) src sp (len src) in
     (sp <? len src) && isFloatMarker (byte_at src sp)) = true).
  { intros sp Hsp. cbv zeta.
    rewrite (digit_run_spec _ src sp ds (c :: rest) Hsp Hds Hnext) by lia.
    apply rest_at_skip in Hsp. apply rest_at_cons in Hsp as (Hb & Hlt & _).
    rewrite Hb, Hc. apply andb_true_intro. split; [apply Z.ltb_lt; exact Hlt | reflexivity]. }
  assert (Hin : forall sp t, rest_at src sp (ds ++ c :: t) -> (sp >=? len src) = false).
  { intros sp t Hsp. rewrite Z.geb_leb. apply Z.leb_gt.
    destruct ds as [|d ds']; cbn [app] in Hsp; apply rest_at_cons in Hsp; lia. }
  unfold decodeInt64. fold (isFloatMarker).
  destruct Hsign as [-> | ->]; cbn [app] in H.
  - rewrite (Hin _ _ H).
    assert (Hfirst : (byte_at src (len pre) == "-") = false).
    { destruct Hds as [|d ds' Hd Hds']; cbn [app] in H;
        apply rest_at_cons in H as (Hb & _ & _); rewrite Hb;
        [exact Hnm | apply digit_not_minus; exact Hd]. }
    rewrite Hfirst, (Hin _ _ H).
    pose proof (Hgo _ H) as Hg. cbv zeta in Hg.
    unfold isFloatMarker in Hg. rewrite Hg. reflexivity.
  - pose proof H as H'. apply rest_at_cons in H' as (Hb & Hlt & H').
    replace (len pre >=? len src) with false
      by (symmetry; rewrite Z.geb_leb; apply Z.leb_gt; exact Hlt).
    rewrite Hb. cbn [Ascii.eqb Bool.eqb andb].
    rewrite (Hin _ _ H').
    pose proof (Hgo _ H') as Hg. cbv zeta in Hg.
    unfold isFloatMarker in Hg. rewrite Hg. reflexivity.
Qed.

Lemma decodeInt64_marker_only (src : list byte) (pos : Z) :
  0 <= pos ->
  fst (fst (decodeInt64 src pos)) = - ERR_INVALID_NUMBER_FMT ->
  exists pre sign ds c rest,
    src = pre ++ sign ++ ds ++ c :: rest /\ len pre = pos
    /\ (sign = [] \/ sign = ["-"%char]) /\ digits ds
    /\ isFloatMarker c = true.
Proof.
  intros H0 H. unfold decodeInt64 in H.
  destruct (pos >=? len src) eqn:Hpos; [discriminate H|].
  rewrite Z.geb_leb in Hpos. apply Z.leb_gt in Hpos.
  set (sp0 := if byte_at src pos == "-" then pos + 1 else pos) in H.
  assert (Hsp0 : 0 <= sp0) by (unfold sp0; destruct (byte_at src pos == "-"); lia).
  destruct (sp0 >=? len src) eqn:Hsp0'; [discriminate H|].
  destruct (digit_run_inv (Z.to_nat (len src - sp0)) src sp0 Hsp0)
    as (ds & Hds & Hrun & Hrest).
  rewrite Hrun in H.
  pose proof (len_nonneg ds) as Hlen.
  fold (isFloatMarker (byte_at src (sp0 + len ds))) in H.
  destruct ((sp0 + len ds <? len src) && isFloatMarker (byte_at src (sp0 + len ds)))
    eqn:Hcond.
  - apply andb_prop in Hcond as [Hlt Hc]. apply Z.ltb_lt in Hlt.
    pose proof (rest_at_uncons src (sp0 + len ds) ltac:(lia) Hlt) as [_ Hc'].
    destruct Hrest as [_ Hrest]. rewrite Hc' in Hrest.
    destruct (firstn_skipn_at src pos H0 ltac:(lia)) as [Hsrc Hpre].
    exists (firstn (Z.to_nat pos) src).
    exists (if byte_at src pos == "-" then ["-"%char] else []).
    exists ds, (byte_at src (sp0 + len ds)).
    exists (skipn (Z.to_nat (sp0 + len ds + 1)) src).
    repeat split; try assumption.
    + rewrite Hsrc at 1. f_equal. unfold sp0 in Hrest.
      destruct (byte_at src pos == "-") eqn:Hm.
      * apply Ascii.eqb_eq in Hm.
        pose proof (rest_at_uncons src pos H0 Hpos) as [_ Hu].
        rewrite Hm, Hrest in Hu. rewrite Hu. reflexivity.
      * cbn [app]. exact Hrest.
    + destruct (byte_at src pos == "-"); [right | left]; reflexivity.
  - destruct (ParseInt (slice src pos (sp0 + len ds))) as [v [[|]|]];
      cbn in H; unfold ERR_INVALID_NUMBER_FMT in H; try discriminate H; lia.
Qed.

Section FloatFallback.

Variable ParseFloat : list byte -> float * option NumError.

Lemma DecodeValue_retries (src : list byte) (pos p : Z)
  (sign ds : list byte) (c : byte) (rest : list byte) :
  SkipBlank src pos = p -> rest_at src p (sign ++ ds ++ c :: rest) ->
  sign = [] \/ sign = ["-"%char] -> digits ds -> sign ++ ds <> [] ->
  isFloatMarker c = true ->
  DecodeValue ParseFloat src pos = float_state (decodeFloat64 ParseFloat src p) p.
Proof.
  intros Hp Hrest Hsign Hds Hne Hc.
  set (t := sign ++ ds ++ c :: rest) in *.
  assert (Hhead : exists c0 t', t = c0 :: t'
            /\ ((c0 == "-") || isDigit c0) = true).
  { unfold t. destruct Hsign as [-> | ->].
    - destruct Hds as [|d ds Hd Hds]; [contradiction Hne; reflexivity|].
      exists d, (ds ++ c :: rest). cbn [app]. split; [reflexivity|].
      rewrite Hd. apply orb_true_r.
    - exists "-"%char, (ds ++ c :: rest). split; reflexivity. }
  destruct Hhead as (c0 & t' & Ht & Hnum).
  assert (Hint : decodeInt64 src p = (- ERR_INVALID_NUMBER_FMT, 0, None)).
  { rewrite Ht in Hrest. destruct (rest_at_split _ _ _ _ Hrest) as (pre & Hsrc & Hpre).
    rewrite Hsrc, <- Hpre, <- Ht. unfold t. apply decodeInt64_marker; assumption. }
  pose proof Hrest as [H0 _]. rewrite Ht in Hrest.
  apply rest_at_cons in Hrest as (Hb & _ & _).
  unfold DecodeValue. rewrite Hp.
  replace (p <? 0) with false by (symmetry; apply Z.ltb_ge; exact H0).
  rewrite Hb.
  assert (Hdispatch : forall (A : Type) (a1 a2 a3 a4 a5 a6 x y : A),
    (if c0 == "n" then a1 else if c0 == dquote then a2
     else if c0 == "{" then a3 else if c0 == "[" then a4
     else if c0 == "t" then a5 else if c0 == "f" then a6
     else if (c0 == "-") || (c0 == "+") || isDigit c0 then x else y) = x).
  { intros. clear - Hnum. byte_cases c0; try discriminate Hnum; reflexivity. }
  rewrite Hdispatch, Hint. reflexivity.
Qed.

Lemma DecodeValue_double_only (src : list byte) (pos : Z) :
  Vt (snd (DecodeValue ParseFloat src pos)) = V_DOUBLE ->
  fst (fst (decodeInt64 src (SkipBlank src pos))) = - ERR_INVALID_NUMBER_FMT.
Proof.
  unfold DecodeValue. set (p := SkipBlank src pos).
  destruct (p <? 0); [discriminate|].
  destruct (byte_at src p == "n").
  { destruct (decodeNull src p <? 0); discriminate. }
  destruct (byte_at src p == dquote).
  { destruct (skipString src p) as [ret ep]. destruct (ret <? 0); discriminate. }
  destruct (byte_at src p == "{"); [discriminate|].
  destruct (byte_at src p == "["); [discriminate|].
  destruct (byte_at src p == "t").
  { destruct (decodeTrue src p <? 0); discriminate. }
  destruct (byte_at src p == "f").
  { destruct (decodeFalse src p <? 0); discriminate. }
  destruct ((byte_at src p == "-") || (byte_at src p == "+") || isDigit (byte_at src p));
    [|discriminate].
  destruct (decodeInt64 src p) as [[ret iv] e]. cbn [fst].
  destruct (ret >=? 0); [discriminate|].
  destruct (ret =? - ERR_INVALID_NUMBER_FMT) eqn:E; cbn [negb]; [|discriminate].
  intros _. apply Z.eqb_eq. exact E.
Qed.

End FloatFallback.

(** Unless [decodeInt64] answers with the number-format code, the float
    parser plays no part in the result of [DecodeValue]. *)
Lemma DecodeValue_no_retry (PF1 PF2 : list byte -> float * option NumError)
  (src : list byte) (pos : Z) :
  (fst (fst (decodeInt64 src (SkipBlank src pos))) =? - ERR_INVALID_NUMBER_FMT) = false ->
  DecodeValue PF1 src pos = DecodeValue PF2 src pos.
Proof.
  intros H. unfold DecodeValue. set (p := SkipBlank src pos) in *.
  destruct (decodeInt64 src p) as [[ret iv] e]. cbn [fst] in H.
  rewrite H. cbn [negb]. destruct (ret >=? 0); reflexivity.
Qed.

(** C5.  A dot or exponent marker right after the digit run makes
    [decodeInt64] return the number-format code alone (no offset, value 0),
    and nothing else does; [DecodeValue] then decodes the same position
    with [decodeFloat64], a double-tagged state arises in no other way, and
    without that code the float parser has no part in the result.  So 42
    decodes to an integer state, 3.14 to a double state holding what the
    float parser returns for it, and the three literals to their tags. *)
Theorem integer_first_float_fallback (ParseFloat : list byte -> float * option NumError) :
  (forall pre sign ds c rest,
     sign = [] \/ sign = ["-"%char] -> digits ds -> isFloatMarker c = true ->
     decodeInt64 (pre ++ sign ++ ds ++ c :: rest) (len pre)
     = (- ERR_INVALID_NUMBER_FMT, 0, None))
  /\ (forall src pos, 0 <= pos ->
        fst (fst (decodeInt64 src pos)) = - ERR_INVALID_NUMBER_FMT ->
        exists pre sign ds c rest,
          src = pre ++ sign ++ ds ++ c :: rest /\ len pre = pos
          /\ (sign = [] \/ sign = ["-"%char]) /\ digits ds
          /\ isFloatMarker c = true)
  /\ (forall src pos p sign ds c rest,
        SkipBlank src pos = p -> rest_at src p (sign ++ ds ++ c :: rest) ->
        sign = [] \/ sign = ["-"%char] -> digits ds ->
        sign ++ ds <> [] -> isFloatMarker c = true ->
        DecodeValue ParseFloat src pos
        = float_state (decodeFloat64 ParseFloat src p) p)
  /\ (forall src pos,
        Vt (snd (DecodeValue ParseFloat src pos)) = V_DOUBLE ->
        fst (fst (decodeInt64 src (SkipBlank src pos))) = - ERR_INVALID_NUMBER_FMT)
  /\ (forall PF' src pos,
        (fst (fst (decodeInt64 src (SkipBlank src pos))) =? - ERR_INVALID_NUMBER_FMT) = false ->
        DecodeValue ParseFloat src pos = DecodeValue PF' src pos)
  /\ DecodeValue ParseFloat (bytes "42") 0
     = (2, mkJsonState V_INTEGER PrimFloat.zero 42 0)
  /\ (forall v, ParseFloat (bytes "3.14") = (v, None) ->
        DecodeValue ParseFloat (bytes "3.14") 0 = (4, mkJsonState V_DOUBLE v 0 0))
  /\ DecodeValue ParseFloat (bytes "true") 0 = (4, state_of V_TRUE)
  /\ DecodeValue ParseFloat (bytes "null") 0 = (4, state_of V_NULL)
  /\ DecodeValue ParseFloat (bytes "false") 0 = (5, state_of V_FALSE).
Proof.
  split; [exact decodeInt64_marker|].
  split; [exact decodeInt64_marker_only|].
  split; [apply DecodeValue_retries|].
  split; [apply DecodeValue_double_only|].
  split; [intros PF' src pos; apply DecodeValue_no_retry|].
  split; [reflexivity|].
  split; [|repeat split; reflexivity].
  intros v Hv. vm_compute in Hv. vm_compute. rewrite Hv. reflexivity.
Qed.

Lemma integer_first_float_fallback_witness :
  decodeInt64 (bytes "3.14") 0 = (- ERR_INVALID_NUMBER_FMT, 0, None)
  /\ DecodeValue ParseFloat_exact (bytes "3.14") 0
     = (4, mkJsonState V_DOUBLE f64_3_14 0 0)
  /\ DecodeValue ParseFloat_exact (bytes "-1e5") 0
     = float_state (decodeFloat64 ParseFloat_exact (bytes "-1e5") 0) 0.
Proof.
  pose proof (integer_first_float_fallback ParseFloat_exact)
    as (H1 & _ & H3 & _ & _ & _ & H7 & _).
  split; [|split].
  - apply (H1 [] [] (bytes "3") "."%char (bytes "14"));
      [left; reflexivity | repeat constructor | reflexivity].
  - apply H7. vm_compute. reflexivity.
  - apply (H3 (bytes "-1e5") 0 0 ["-"%char] (bytes "1") "e"%char (bytes "5"));
      [reflexivity | apply rest_at_self | right; reflexivity | repeat constructor
      | discriminate | reflexivity].
Defined.

(** ** Integer parsing and overflow *)

Lemma digit_val_range (c : byte) : isDigit c = true -> 0 <= digit_val c <= 9.
Proof. byte_cases c; try discriminate; intros _; vm_compute; split; discriminate. Qed.

Lemma dec_val_fold (ds : list byte) : dec_val ds = fold_left dec_step ds 0.
Proof. reflexivity. Qed.

Lemma fold_dec_step_ge (ds : list byte) :
  digits ds -> forall a, 0 <= a -> a <= fold_left dec_step ds a.
Proof.
  induction 1 as [|d ds Hd Hds IH]; intros a Ha; cbn [fold_left]; [lia|].
  pose proof (digit_val_range d Hd).
  change (dec_step a d) with (a * 10 + digit_val d).
  specialize (IH (a * 10 + digit_val d) ltac:(lia)). lia.
Qed.

Lemma ParseUint_loop_spec (ds : list byte) :
  digits ds -> forall n, 0 <= n <= maxUint64 ->
    ParseUint_loop ds n
    = if fold_left dec_step ds n <=? maxUint64
      then (fold_left dec_step ds n, None)
      else (maxUint64, Some ErrRange).
Proof.
  induction 1 as [|d ds Hd Hds IH]; intros n Hn; cbn [ParseUint_loop fold_left].
  - replace (n <=? maxUint64) with true by (symmetry; apply Z.leb_le; lia).
    reflexivity.
  - rewrite Hd. pose proof (digit_val_range d Hd) as Hr.
    pose proof (fold_dec_step_ge ds Hds (n * 10 + digit_val d)) as Hge.
    change (dec_step n d) with (n * 10 + digit_val d).
    unfold maxUint64 in *.
    change (2 ^ 64) with 18446744073709551616 in *.
    change ((18446744073709551616 - 1) / 10 + 1) with 1844674407370955162.
    destruct (n >=? 1844674407370955162) eqn:Hcut.
    + rewrite Z.geb_leb in Hcut. apply Z.leb_le in Hcut.
      replace (fold_left dec_step ds (n * 10 + digit_val d) <=? 18446744073709551616 - 1)
        with false by (symmetry; apply Z.leb_gt; lia).
      reflexivity.
    + rewrite Z.geb_leb in Hcut. apply Z.leb_gt in Hcut.
      destruct (Z_le_gt_dec (n * 10 + digit_val d) (18446744073709551616 - 1)) as [Hfit|Hover].
      * rewrite Z.mod_small by lia.
        replace (n * 10 + digit_val d <? n * 10) with false
          by (symmetry; apply Z.ltb_ge; lia).
        replace (n * 10 + digit_val d >? 18446744073709551616 - 1) with false
          by (symmetry; rewrite Z.gtb_ltb; apply Z.ltb_ge; lia).
        cbn [orb]. apply IH. lia.
      * replace ((n * 10 + digit_val d) mod 18446744073709551616)
          with (n * 10 + digit_val d - 18446744073709551616).
        2:{ apply Zmod_unique with (q := 1); lia. }
        replace (n * 10 + digit_val d - 18446744073709551616 <? n * 10) with true
          by (symmetry; apply Z.ltb_lt; lia).
        cbn [orb].
        replace (fold_left dec_step ds (n * 10 + digit_val d) <=? 18446744073709551616 - 1)
          with false by (symmetry; apply Z.leb_gt; lia).
        reflexivity.
Qed.

Lemma ParseUint_digits (ds : list byte) :
  digits ds -> ds <> [] ->
  ParseUint ds
  = if dec_val ds <=? maxUint64 then (dec_val ds, None)
    else (maxUint64, Some ErrRange).
Proof.
  intros Hds Hne. destruct ds as [|d ds]; [contradiction Hne; reflexivity|].
  unfold ParseUint. rewrite dec_val_fold.
  apply ParseUint_loop_spec; [exact Hds | unfold maxUint64; lia].
Qed.

Lemma digit_not_sign (c : byte) :
  isDigit c = true -> (c == "-") = false /\ (c == "+") = false.
Proof. byte_cases c; try discriminate; split; reflexivity. Qed.

Ltac decide_cmp :=
  rewrite ?Z.geb_leb, ?Z.gtb_ltb;
  repeat match goal with
  | |- context [Z.leb ?a ?b] => destruct (Z.leb_spec a b)
  | |- context [Z.ltb ?a ?b] => destruct (Z.ltb_spec a b)
  end;
  cbn [andb orb negb]; try lia; try reflexivity.

Lemma ParseInt_signed_digits (sign ds : list byte) :
  sign = [] \/ sign = ["-"%char] -> digits ds -> ds <> [] ->
  ParseInt (sign ++ ds)
  = if (- 2 ^ 63 <=? signed_val sign ds) && (signed_val sign ds <=? 2 ^ 63 - 1)
    then (signed_val sign ds, None)
    else (if signed_val sign ds <? 0 then - 2 ^ 63 else 2 ^ 63 - 1, Some ErrRange).
Proof.
  intros Hsign Hds Hne.
  pose proof (ParseUint_digits ds Hds Hne) as HU.
  pose proof (fold_dec_step_ge ds Hds 0 ltac:(lia)) as Hpos.
  rewrite <- dec_val_fold in Hpos.
  unfold maxUint64 in HU.
  change (2 ^ 64) with 18446744073709551616 in *.
  change (2 ^ 63) with 9223372036854775808 in *.
  destruct Hsign as [-> | ->]; unfold signed_val; cbn [app].
  - destruct ds as [|d ds']; [contradiction Hne; reflexivity|].
    unfold ParseInt. inversion Hds as [|? ? Hd Hds']; subst.
    destruct (digit_not_sign d Hd) as [-> ->]. cbn [orb negb andb].
    rewrite HU. clear HU.
    change (2 ^ 63) with 9223372036854775808.
    set (v := dec_val (d :: ds')) in *. clearbody v.
    destruct (Z.leb_spec v (18446744073709551616 - 1)); decide_cmp.
  - unfold ParseInt. cbn [Ascii.eqb Bool.eqb orb negb andb].
    rewrite HU. clear HU.
    change (2 ^ 63) with 9223372036854775808.
    set (v := dec_val ds) in *. clearbody v.
    destruct (Z.leb_spec v (18446744073709551616 - 1)); decide_cmp.
Qed.

(** [decodeInt64] on a signed digit run that no float marker follows: the
    span handed to the integer parser is exactly the sign and the digits. *)
Lemma decodeInt64_span (pre sign ds rest : list byte) :
  sign = [] \/ sign = ["-"%char] -> digits ds -> ds <> [] ->
  next_byte (fun c => negb (isDigit c) && negb (isFloatMarker c)) rest ->
  decodeInt64 (pre ++ sign ++ ds ++ rest) (len pre)
  = let ret := len pre + len sign + len ds in
    match ParseInt (sign ++ ds) with
    | (v, None) => (ret, v, None)
    | (_, Some ErrRange) => (ret, 0, Some ErrRange)
    | (_, Some e) => (- ERR_INVALID_CHAR, 0, Some e)
    end.
Proof.
  intros Hsign Hds Hne Hnext.
  set (src := pre ++ sign ++ ds ++ rest).
  pose proof (rest_at_app pre (sign ++ ds ++ rest)) as H. fold src in H.
  assert (Hnd : next_byte (fun c => negb (isDigit c)) rest).
  { destruct rest as [|c rest]; [exact I|]. cbn in *.
    apply andb_prop in Hnext. apply Hnext. }
  assert (Hslice : slice src (len pre) (len pre + len sign + len ds) = sign ++ ds).
  { unfold src. replace (sign ++ ds ++ rest) with ((sign ++ ds) ++ rest)
      by (rewrite <- app_assoc; reflexivity).
    rewrite <- Z.add_assoc, <- len_app. apply slice_app. }
  assert (Hgo : forall sp, rest_at src sp (ds ++ rest) ->
    (sp >=? len src) = false
    /\ digit_run (Z.to_nat (len src - sp)) src sp (len src) = sp + len ds
    /\ (sp + len ds <? len src) && isFloatMarker (byte_at src (sp + len ds)) = false).
  { intros sp Hsp. split; [|split].
    - rewrite Z.geb_leb. apply Z.leb_gt.
      destruct ds as [|d ds']; [contradiction Hne; reflexivity|].
      cbn [app] in Hsp. apply rest_at_cons in Hsp. lia.
    - apply (digit_run_spec _ src sp ds rest Hsp Hds Hnd). lia.
    - pose proof (rest_at_skip _ _ _ _ Hsp) as Hr.
      destruct rest as [|c rest'].
      + apply rest_at_nil in Hr.
        replace (sp + len ds <? len src) with false
          by (symmetry; apply Z.ltb_ge; lia).
        reflexivity.
      + apply rest_at_cons in Hr as (Hb & _ & _). rewrite Hb.
        cbn in Hnext. apply andb_prop in Hnext as [_ Hm].
        apply negb_true_iff in Hm. rewrite Hm. apply andb_false_r. }
  unfold decodeInt64.
  destruct Hsign as [-> | ->]; cbn [app] in H.
  - destruct (Hgo _ H) as (Hin & Hrun & Hcond). unfold isFloatMarker in Hcond.
    assert (Hfirst : (byte_at src (len pre) == "-") = false).
    { destruct Hds as [|d ds' Hd Hds']; [contradiction Hne; reflexivity|].
      cbn [app] in H. apply rest_at_cons in H as (Hb & _ & _). rewrite Hb.
      apply digit_not_minus; exact Hd. }
    cbv zeta. rewrite Hin, Hfirst, Hin, Hrun, Hcond.
    rewrite len_nil, Z.add_0_r in *. rewrite Hslice. reflexivity.
  - pose proof H as H'. apply rest_at_cons in H' as (Hb & Hlt & H').
    destruct (Hgo _ H') as (Hin & Hrun & Hcond). unfold isFloatMarker in Hcond.
    replace (len pre >=? len src) with false
      by (symmetry; rewrite Z.geb_leb; apply Z.leb_gt; exact Hlt).
    cbv zeta. rewrite Hb. cbn [Ascii.eqb Bool.eqb andb].
    rewrite Hin, Hrun, Hcond.
    change (len ["-"%char]) with 1 in *.
    rewrite Hslice. reflexivity.
Qed.

(** C4.  [decodeInt64] looks at the byte after the digit run before it
    parses anything, and section 4.2 of the spec states the overflow
    behaviour for the branch that remains ("Otherwise parses the consumed
    span"); the claim is read in that branch.  When the signed digit run at
    [pos] denotes an integer outside the signed 64-bit range and the byte
    after the run, if any, is neither a digit (the run is maximal) nor a
    dot or exponent marker, [decodeInt64] returns the end offset of the
    run, which is not negative, the value 0 and the range error as overflow
    indicator.  In the branch decided before it, a dot or exponent marker
    after the run, the result is the number-format code whatever the run
    denotes. *)
Theorem decodeInt64_overflow :
  (forall pre sign ds rest,
     sign = [] \/ sign = ["-"%char] -> digits ds -> ds <> [] ->
     next_byte (fun c => negb (isDigit c) && negb (isFloatMarker c)) rest ->
     signed_val sign ds < - 2 ^ 63 \/ 2 ^ 63 - 1 < signed_val sign ds ->
     decodeInt64 (pre ++ sign ++ ds ++ rest) (len pre)
     = (len pre + len sign + len ds, 0, Some ErrRange)
     /\ 0 <= len pre + len sign + len ds)
  /\ (forall pre sign ds c rest,
        sign = [] \/ sign = ["-"%char] -> digits ds -> isFloatMarker c = true ->
        decodeInt64 (pre ++ sign ++ ds ++ c :: rest) (len pre)
        = (- ERR_INVALID_NUMBER_FMT, 0, None)).
Proof.
  split; [|exact decodeInt64_marker].
  intros pre sign ds rest Hsign Hds Hne Hnext Hout.
  split.
  - rewrite decodeInt64_span by assumption.
    rewrite ParseInt_signed_digits by assumption.
    replace ((- 2 ^ 63 <=? signed_val sign ds) && (signed_val sign ds <=? 2 ^ 63 - 1))
      with false; [reflexivity|].
    symmetry. apply andb_false_iff.
    destruct Hout; [left; apply Z.leb_gt | right; apply Z.leb_gt]; assumption.
  - pose proof (len_nonneg pre). pose proof (len_nonneg sign).
    pose proof (len_nonneg ds). lia.
Qed.

(** The spec's example, twenty nines; one below the least 64-bit integer;
    and the twenty nines before a dot. *)
Lemma decodeInt64_overflow_witness :
  (decodeInt64 (bytes "99999999999999999999") 0 = (20, 0, Some ErrRange)
   /\ 0 <= 20)
  /\ (decodeInt64 (bytes "[-9223372036854775809]") 1 = (1 + 1 + 19, 0, Some ErrRange)
      /\ 0 <= 1 + 1 + 19)
  /\ decodeInt64 (bytes "99999999999999999999.5") 0
     = (- ERR_INVALID_NUMBER_FMT, 0, None).
Proof.
  split; [|split].
  - apply (proj1 decodeInt64_overflow [] [] (bytes "99999999999999999999") []).
    + left; reflexivity.
    + repeat constructor.
    + discriminate.
    + exact I.
    + right. reflexivity.
  - apply (proj1 decodeInt64_overflow (bytes "[") ["-"%char]
             (bytes "9223372036854775809") (bytes "]")).
    + right; reflexivity.
    + repeat constructor.
    + discriminate.
    + reflexivity.
    + left. reflexivity.
  - apply (proj2 decodeInt64_overflow [] [] (bytes "99999999999999999999")
             "."%char (bytes "5")).
    + left; reflexivity.
    + repeat constructor.
    + reflexivity.
Defined.

(** ** Strings and balanced pairs *)

(** Induction on the bytes still to be read, for scans that may step over
    two bytes at once. *)
Lemma scan_ind (P : list byte -> Prop) :
  (forall t, (forall t', (List.length t' < List.length t)%nat -> P t') -> P t) ->
  forall t, P t.
Proof.
  intros Hstep t.
  assert (H : forall n t, (List.length t < n)%nat -> P t).
  { induction n as [|n IH]; intros t' Hlt; [lia|].
    apply Hstep. intros t'' Hlt'. apply IH. lia. }
  apply (H (S (List.length t))). lia.
Qed.

(** The counter the loop of [skipPair] ends with is 0 exactly when the
    counter of section 4.3 reaches 0. *)
Lemma pair_scan_counter (lchar rchar : byte) :
  forall t sp nbrace inquote, 1 <= nbrace ->
    (snd (pair_scan lchar rchar t sp nbrace inquote) =? 0)
    = counter_reaches_zero lchar rchar t nbrace inquote.
Proof.
  induction t as [t IH] using scan_ind. intros sp nbrace inquote Hnb.
  destruct t as [|c t]; cbn [pair_scan counter_reaches_zero snd].
  - apply Z.eqb_neq. lia.
  - destruct (c == bslash).
    { destruct t as [|c' t]; cbn [snd]; [apply Z.eqb_neq; lia|].
      apply IH; [cbn; lia | exact Hnb]. }
    destruct (c == dquote); [apply IH; [cbn; lia | exact Hnb]|].
    destruct inquote; cbn [negb].
    { destruct (Ascii.eqb c lchar); [apply IH; [cbn; lia | exact Hnb]|].
      destruct (Ascii.eqb c rchar); apply IH; solve [cbn; lia | exact Hnb]. }
    destruct (Ascii.eqb c lchar); [apply IH; [cbn; lia | lia]|].
    destruct (Ascii.eqb c rchar); [|apply IH; [cbn; lia | exact Hnb]].
    destruct (nbrace - 1 =? 0) eqn:E; cbn [snd orb]; [exact E|].
    apply Z.eqb_neq in E. apply IH; [cbn; lia | lia].
Qed.

Lemma skipPair_unbalanced (src : list byte) (pos : Z) (lchar rchar : byte) :
  0 <= pos -> pos + 1 < len src -> byte_at src pos = lchar ->
  counter_reaches_zero lchar rchar (skipn (Z.to_nat (pos + 1)) src) 1 false = false ->
  skipPair src pos lchar rchar = - ERR_INVALID_CHAR.
Proof.
  intros H0 Hlt Hb Hcnt. unfold skipPair.
  replace (pos + 1 >=? len src) with false
    by (symmetry; rewrite Z.geb_leb; apply Z.leb_gt; exact Hlt).
  rewrite Hb, Ascii.eqb_refl. cbn [negb].
  rewrite (skipPair_loop_scan _ src lchar rchar (pos + 1) 1 false
             (skipn (Z.to_nat (pos + 1)) src)) by first [split; [lia | reflexivity] | lia].
  pose proof (pair_scan_counter lchar rchar (skipn (Z.to_nat (pos + 1)) src)
                (pos + 1) 1 false ltac:(lia)) as Hc.
  rewrite Hcnt in Hc.
  destruct (pair_scan lchar rchar (skipn (Z.to_nat (pos + 1)) src) (pos + 1) 1 false)
    as [sp nbrace].
  cbn [snd] in Hc. rewrite Hc. reflexivity.
Qed.

(** The scan of [skipString] over bytes that are neither quotes nor
    backslashes runs to their end. *)
Lemma string_scan_plain (body : list byte) :
  Forall (fun c => (c == dquote) = false /\ (c == bslash) = false) body ->
  forall sp ep, string_scan body sp ep = (sp + len body, ep).
Proof.
  induction 1 as [|c body [Hq Hb] Hbody IH]; intros sp ep.
  - rewrite len_nil, Z.add_0_r. reflexivity.
  - cbn [string_scan]. rewrite Hb, Hq, IH, len_cons. f_equal. lia.
Qed.

(** A string that is never closed is accepted up to the end of the buffer
    when the scan stops exactly there. *)
Lemma skipString_open_string (pre body : list byte) :
  body <> [] ->
  Forall (fun c => (c == dquote) = false /\ (c == bslash) = false) body ->
  skipString (pre ++ dquote :: body) (len pre) = (len pre + 1 + len body, -1).
Proof.
  intros Hne Hbody. set (src := pre ++ dquote :: body).
  pose proof (rest_at_app pre (dquote :: body)) as H. fold src in H.
  assert (Hlen : len src = len pre + 1 + len body).
  { unfold src. rewrite len_app, len_cons. lia. }
  assert (Hpos : 0 < len body).
  { destruct body as [|c body]; [contradiction Hne; reflexivity|].
    rewrite len_cons. pose proof (len_nonneg body). lia. }
  apply rest_at_cons in H as (Hb & _ & H).
  unfold skipString.
  replace (len pre + 1 >=? len src) with false
    by (symmetry; rewrite Z.geb_leb; apply Z.leb_gt; lia).
  rewrite Hb. cbn [Ascii.eqb Bool.eqb dquote negb andb].
  rewrite (skipString_loop_scan _ src (len pre + 1) (-1) body H) by lia.
  rewrite string_scan_plain by exact Hbody.
  replace (len pre + 1 + len body >? len src) with false
    by (symmetry; rewrite Z.gtb_ltb; apply Z.ltb_ge; lia).
  reflexivity.
Qed.

(** C2, where the code departs from it: the string opened at offset 0 is
    never closed, the scan ends exactly at the end of the buffer, and
    [skipString] returns that end as a successful offset. *)
Theorem skipString_unterminated :
  skipString (dquote :: bytes "abc") 0 = (4, -1)
  /\ len (dquote :: bytes "abc") = 4
  /\ (4 =? - ERR_EOF) = false.
Proof. repeat split. Qed.

(** The parts of C2 the code keeps: the EOF code when the buffer ends with
    an escape cut short or when no byte follows [pos], and the
    invalid-character code for a byte other than a quote. *)
Lemma skipString_errors :
  (forall src pos, len src <= pos + 1 -> skipString src pos = (- ERR_EOF, -1))
  /\ (forall src pos, pos + 1 < len src ->
        (byte_at src pos == dquote) = false ->
        skipString src pos = (- ERR_INVALID_CHAR, -1))
  /\ (forall pre body,
        Forall (fun c => (c == dquote) = false /\ (c == bslash) = false) body ->
        skipString (pre ++ dquote :: body ++ [bslash]) (len pre) = (- ERR_EOF, -1)).
Proof.
  split; [|split].
  - intros src pos Hle. unfold skipString.
    replace (pos + 1 >=? len src) with true
      by (symmetry; rewrite Z.geb_leb; apply Z.leb_le; exact Hle).
    reflexivity.
  - intros src pos Hlt Hb. unfold skipString.
    replace (pos + 1 >=? len src) with false
      by (symmetry; rewrite Z.geb_leb; apply Z.leb_gt; exact Hlt).
    rewrite Hb. reflexivity.
  - intros pre body Hbody. set (src := pre ++ dquote :: body ++ [bslash]).
    pose proof (rest_at_app pre (dquote :: body ++ [bslash])) as H. fold src in H.
    assert (Hlen : len src = len pre + 1 + len body + 1).
    { unfold src. rewrite len_app, len_cons, len_app, len_cons, len_nil. lia. }
    pose proof (len_nonneg body) as Hpos.
    apply rest_at_cons in H as (Hb & _ & H).
    unfold skipString.
    replace (len pre + 1 >=? len src) with false
      by (symmetry; rewrite Z.geb_leb; apply Z.leb_gt; lia).
    rewrite Hb. cbn [Ascii.eqb Bool.eqb dquote negb andb].
    rewrite (skipString_loop_scan _ src (len pre + 1) (-1) _ H) by lia.
    assert (Hscan : forall sp, string_scan (body ++ [bslash]) sp (-1)
                               = (sp + len body + 2, sp + len body)).
    { clear - Hbody. induction Hbody as [|c body [Hq Hb] Hbody IH]; intros sp.
      - rewrite len_nil, !Z.add_0_r. reflexivity.
      - cbn [app string_scan]. rewrite Hb, Hq, IH, len_cons.
        f_equal; lia. }
    rewrite Hscan.
    replace (len pre + 1 + len body + 2 >? len src) with true
      by (symmetry; rewrite Z.gtb_ltb; apply Z.ltb_lt; lia).
    reflexivity.
Qed.

(** ** Quoting *)

(** C3, where the code departs from it: on the empty input [quote] appends
    the opening quote, the quote of the special case and, the special case
    not returning, the closing quote as well, three bytes in all. *)
Theorem quote_empty_appends_three :
  forall appendCap growsliceCap nativeQuote fuel buf,
    option_map Data (quote appendCap growsliceCap nativeQuote fuel buf [])
    = Some (Data buf ++ [dquote; dquote; dquote]).
Proof.
  intros aC gC nQ fuel buf. unfold quote.
  change (len [] =? 0) with true. cbv iota.
  assert (Hloop : forall b, quote_loop gC nQ fuel b [] = Some b).
  { intros b. destruct fuel; reflexivity. }
  rewrite Hloop. cbn [option_map].
  assert (Happ : forall b c, Data (append aC b c) = Data b ++ [c]).
  { intros b c. unfold append. destruct (len (Data b ++ [c]) <=? Cap b); reflexivity. }
  rewrite !Happ, <- !app_assoc. reflexivity.
Qed.

(** ** Numbers *)

Ltac len_simpl := repeat rewrite ?len_app, ?len_cons, ?len_nil.

Lemma number_scan_digits (ds : list byte) :
  digits ds -> ds <> [] ->
  forall rest prev ss sp pointer exponent lastIsDigit nextNeedDigit,
  exists prev',
    number_scan (ds ++ rest) prev ss sp pointer exponent lastIsDigit nextNeedDigit
    = number_scan rest prev' ss (sp + len ds) pointer exponent true false.
Proof.
  induction 1 as [|d ds Hd Hds IH]; intros Hne rest prev ss sp ptr ex lid nnd;
    [contradiction Hne; reflexivity|].
  cbn [app number_scan]. rewrite Hd, len_cons.
  destruct ds as [|d' ds'].
  - exists d. rewrite len_nil. cbn [app]. f_equal; lia.
  - destruct (IH ltac:(discriminate) rest d ss (sp + 1) ptr ex true false)
      as (prev' & Heq).
    exists prev'. rewrite Heq. f_equal; lia.
Qed.

Lemma not_number_char (c : byte) :
  isNumberChars c = false ->
  isDigit c = false /\ (c == ".") = false
  /\ ((c == "e") || (c == "E")) = false /\ ((c == "-") || (c == "+")) = false.
Proof. byte_cases c; try discriminate; intros _; repeat split. Qed.

Lemma number_scan_end (rest : list byte) (prev : byte) (ss sp : Z)
  (pointer exponent : bool) :
  next_byte (fun c => negb (isNumberChars c)) rest ->
  number_scan rest prev ss sp pointer exponent true false = inr (sp, false).
Proof.
  destruct rest as [|c rest]; [reflexivity|]. cbn [next_byte]. intros Hc.
  apply negb_true_iff in Hc.
  destruct (not_number_char c Hc) as (H1 & H2 & H3 & H4).
  cbn [number_scan]. rewrite H1, H2, H3, H4. reflexivity.
Qed.

Lemma number_scan_sign (s : byte) (t : list byte) (prev : byte) (ss sp : Z)
  (pointer exponent lastIsDigit : bool) :
  s = "+"%char \/ s = "-"%char -> prev = "e"%char \/ prev = "E"%char ->
  number_scan (s :: t) prev ss sp pointer exponent lastIsDigit false
  = number_scan t s ss (sp + 1) pointer exponent false true.
Proof. intros [-> | ->] [-> | ->]; reflexivity. Qed.

Lemma number_scan_marker (e : byte) (c : byte) (t : list byte) (prev : byte)
  (ss sp : Z) (pointer : bool) :
  e = "e"%char \/ e = "E"%char ->
  number_scan (e :: c :: t) prev ss sp pointer false true false
  = number_scan (c :: t) e ss (sp + 1) pointer true false false.
Proof. intros [-> | ->]; reflexivity. Qed.

Lemma number_scan_exp (x : list byte) :
  json_exp x ->
  forall rest prev ss sp pointer,
    next_byte (fun c => negb (isNumberChars c)) rest ->
    number_scan (x ++ rest) prev ss sp pointer false true false
    = inr (sp + len x, false).
Proof.
  intros Hx rest prev ss sp ptr Hrest.
  destruct Hx as [|e sign d ds He Hsign Hd Hds].
  - rewrite len_nil, Z.add_0_r. apply number_scan_end, Hrest.
  - assert (Hdd : digits (d :: ds)) by (constructor; assumption).
    assert (Hstep : forall prev0 sp' lid nnd,
      number_scan (d :: ds ++ rest) prev0 ss sp' ptr true lid nnd
      = inr (sp' + len (d :: ds), false)).
    { intros prev0 sp' lid nnd.
      destruct (number_scan_digits _ Hdd ltac:(discriminate) rest prev0 ss
                  sp' ptr true lid nnd) as (prev' & Heq).
      cbn [app] in Heq. rewrite Heq. apply number_scan_end, Hrest. }
    destruct Hsign as [-> | [-> | ->]]; cbn [app];
      rewrite number_scan_marker by exact He.
    + rewrite Hstep. do 2 f_equal. len_simpl. lia.
    + rewrite number_scan_sign by (auto || exact He).
      rewrite Hstep. do 2 f_equal. len_simpl. lia.
    + rewrite number_scan_sign by (auto || exact He).
      rewrite Hstep. do 2 f_equal. len_simpl. lia.
Qed.

Lemma number_scan_point (t : list byte) (prev : byte) (ss sp : Z)
  (pointer exponent : bool) :
  number_scan ("."%char :: t) prev ss sp pointer exponent true false
  = if pointer || (sp =? ss) then inl (- ERR_INVALID_CHAR)
    else number_scan t "."%char ss (sp + 1) true exponent false true.
Proof. reflexivity. Qed.

Lemma number_scan_frac (f : list byte) :
  json_frac f ->
  forall x rest prev ss sp,
    json_exp x -> next_byte (fun c => negb (isNumberChars c)) rest -> ss < sp ->
    number_scan (f ++ x ++ rest) prev ss sp false false true false
    = inr (sp + len f + len x, false).
Proof.
  intros Hf x rest prev ss sp Hx Hrest Hlt.
  destruct Hf as [|d ds Hd Hds].
  - rewrite len_nil, Z.add_0_r. cbn [app]. apply number_scan_exp; assumption.
  - assert (Hdd : digits (d :: ds)) by (constructor; assumption).
    rewrite <- app_comm_cons, number_scan_point.
    replace (sp =? ss) with false by (symmetry; apply Z.eqb_neq; lia).
    cbn [orb].
    destruct (number_scan_digits _ Hdd ltac:(discriminate) (x ++ rest) "."%char ss
                (sp + 1) true false false true) as (prev' & Heq).
    rewrite Heq, number_scan_exp by assumption.
    do 2 f_equal. len_simpl. lia.
Qed.

Lemma json_int_digits (i : list byte) : json_int i -> digits i /\ i <> [].
Proof.
  intros [|d ds Hd _ Hds]; split; try discriminate.
  - repeat constructor.
  - constructor; assumption.
Qed.

Lemma number_scan_json (i f x rest : list byte) (prev : byte) (ss : Z) :
  json_int i -> json_frac f -> json_exp x ->
  next_byte (fun c => negb (isNumberChars c)) rest ->
  number_scan (i ++ f ++ x ++ rest) prev ss ss false false false true
  = inr (ss + len (i ++ f ++ x), false).
Proof.
  intros Hi Hf Hx Hrest. destruct (json_int_digits i Hi) as [Hds Hne].
  destruct (number_scan_digits i Hds Hne (f ++ x ++ rest) prev ss ss
              false false false true) as (prev' & Heq).
  assert (Hpos : 0 < len i).
  { destruct i as [|c i]; [contradiction Hne; reflexivity|].
    rewrite len_cons. pose proof (len_nonneg i). lia. }
  rewrite Heq, number_scan_frac by (assumption || lia).
  do 2 f_equal. len_simpl. lia.
Qed.

(** [skipNumber] at a digit, and at a minus sign, in terms of the scan. *)
Lemma skipNumber_unsigned (src : list byte) (p : Z) (d : byte) (t : list byte) :
  rest_at src p (d :: t) -> (d == "-") = false ->
  skipNumber src p
  = number_result
      (number_scan (d :: t) (byte_at src (p - 1)) p p false false false true).
Proof.
  intros H Hd. pose proof H as H'. apply rest_at_cons in H' as (Hb & Hlt & _).
  unfold skipNumber.
  replace (p >=? len src) with false
    by (symmetry; rewrite Z.geb_leb; apply Z.leb_gt; exact Hlt).
  rewrite Hb, Hd.
  rewrite (skipNumber_loop_scan _ src p p false false false true _ H) by lia.
  reflexivity.
Qed.

Lemma skipNumber_signed (src : list byte) (p : Z) (t : list byte) :
  rest_at src p ("-"%char :: t) ->
  skipNumber src p
  = number_result
      (number_scan t "-"%char (p + 1) (p + 1) false false false true).
Proof.
  intros H. apply rest_at_cons in H as (Hb & Hlt & H).
  unfold skipNumber.
  replace (p >=? len src) with false
    by (symmetry; rewrite Z.geb_leb; apply Z.leb_gt; exact Hlt).
  rewrite Hb. cbn [Ascii.eqb Bool.eqb andb].
  rewrite (skipNumber_loop_scan _ src (p + 1) (p + 1) false false false true _ H) by lia.
  replace (p + 1 - 1) with p by lia. rewrite Hb. reflexivity.
Qed.

(** [skipNumber] skips exactly a JSON number that is followed by the end of
    the buffer or by a byte no number contains. *)
Lemma skipNumber_json (src : list byte) (p : Z) (n rest : list byte) :
  rest_at src p (n ++ rest) -> json_number n ->
  next_byte (fun c => negb (isNumberChars c)) rest ->
  skipNumber src p = p + len n.
Proof.
  intros H Hn Hrest. destruct Hn as [minus i f x Hminus Hi Hf Hx].
  destruct (json_int_digits i Hi) as [Hds Hne].
  destruct Hminus as [-> | ->].
  - cbn [app] in *. destruct i as [|d i']; [contradiction Hne; reflexivity|].
    rewrite <- !app_assoc in H. cbn [app] in H.
    rewrite (skipNumber_unsigned src p d _ H).
    2:{ inversion Hds; subst. apply digit_not_minus. assumption. }
    change (d :: i' ++ f ++ x ++ rest) with ((d :: i') ++ f ++ x ++ rest).
    rewrite number_scan_json by assumption. reflexivity.
  - rewrite <- !app_assoc in H. cbn [app] in H.
    rewrite (skipNumber_signed src p _ H).
    rewrite number_scan_json by assumption.
    cbn [number_result]. len_simpl. lia.
Qed.

Lemma skipNumber_second_point (src : list byte) (p : Z) (ds1 ds2 rest : list byte) :
  rest_at src p (ds1 ++ "."%char :: ds2 ++ "."%char :: rest) ->
  digits ds1 -> ds1 <> [] -> digits ds2 -> ds2 <> [] ->
  skipNumber src p = - ERR_INVALID_CHAR.
Proof.
  intros H H1 N1 H2 N2.
  destruct ds1 as [|d ds1']; [contradiction N1; reflexivity|].
  cbn [app] in H. rewrite (skipNumber_unsigned src p d _ H).
  2:{ inversion H1; subst. apply digit_not_minus. assumption. }
  change (d :: ds1' ++ "."%char :: ds2 ++ "."%char :: rest)
    with ((d :: ds1') ++ "."%char :: ds2 ++ "."%char :: rest).
  destruct (number_scan_digits _ H1 N1 ("."%char :: ds2 ++ "."%char :: rest)
              (byte_at src (p - 1)) p p false false false true) as (prev1 & ->).
  rewrite number_scan_point.
  replace (p + len (d :: ds1') =? p) with false.
  2:{ symmetry. apply Z.eqb_neq. rewrite len_cons. pose proof (len_nonneg ds1'). lia. }
  cbn [orb].
  destruct (number_scan_digits _ H2 N2 ("."%char :: rest) "."%char p
              (p + len (d :: ds1') + 1) true false false true) as (prev2 & ->).
  rewrite number_scan_point. reflexivity.
Qed.

Lemma skipNumber_marker_last (src : list byte) (p : Z) (ds : list byte) (e : byte) :
  rest_at src p (ds ++ [e]) -> digits ds -> ds <> [] ->
  e = "e"%char \/ e = "E"%char ->
  skipNumber src p = - ERR_EOF.
Proof.
  intros H H1 N1 He.
  destruct ds as [|d ds']; [contradiction N1; reflexivity|].
  cbn [app] in H. rewrite (skipNumber_unsigned src p d _ H).
  2:{ inversion H1; subst. apply digit_not_minus. assumption. }
  change (d :: ds' ++ [e]) with ((d :: ds') ++ [e]).
  destruct (number_scan_digits _ H1 N1 [e]
              (byte_at src (p - 1)) p p false false false true) as (prev1 & ->).
  destruct He as [-> | ->]; reflexivity.
Qed.

(** C7.  [skipNumber] answers a second decimal point with the
    invalid-character code and an exponent marker that is the last byte of
    the input with the EOF code, two different codes; so on the two inputs
    of the spec, and so for all digit runs around them. *)
Theorem skipNumber_error_kinds :
  skipNumber (bytes "1.2.3") 0 = - ERR_INVALID_CHAR
  /\ skipNumber (bytes "1e") 0 = - ERR_EOF
  /\ (- ERR_INVALID_CHAR =? - ERR_EOF) = false
  /\ (forall src p ds1 ds2 rest,
        rest_at src p (ds1 ++ "."%char :: ds2 ++ "."%char :: rest) ->
        digits ds1 -> ds1 <> [] -> digits ds2 -> ds2 <> [] ->
        skipNumber src p = - ERR_INVALID_CHAR)
  /\ (forall src p ds e,
        rest_at src p (ds ++ [e]) -> digits ds -> ds <> [] ->
        e = "e"%char \/ e = "E"%char ->
        skipNumber src p = - ERR_EOF).
Proof.
  repeat split; try reflexivity.
  - exact skipNumber_second_point.
  - exact skipNumber_marker_last.
Qed.

Lemma skipNumber_error_kinds_witness :
  skipNumber (bytes "x12.50.7y") 1 = - ERR_INVALID_CHAR
  /\ skipNumber (bytes "x12E") 1 = - ERR_EOF.
Proof.
  destruct skipNumber_error_kinds as (_ & _ & _ & H4 & H5). split.
  - apply (H4 _ _ (bytes "12") (bytes "50") (bytes "7y"));
      [split; [lia | reflexivity] | repeat constructor | discriminate
      | repeat constructor | discriminate].
  - apply (H5 _ _ (bytes "12") "E"%char);
      [split; [lia | reflexivity] | repeat constructor | discriminate
      | right; reflexivity].
Defined.

(** ** Skipping a whole JSON value *)

Lemma plain_not_special (c : byte) :
  isPlain c = true -> (c == dquote) = false /\ (c == bslash) = false.
Proof.
  unfold isPlain. intros H. apply andb_prop in H as [H _].
  apply andb_prop in H as [H1 H2].
  apply negb_true_iff in H1, H2. split; assumption.
Qed.

Lemma hex_not_special (c : byte) :
  isHex c = true -> (c == dquote) = false /\ (c == bslash) = false.
Proof. byte_cases c; try discriminate; intros _; split; reflexivity. Qed.

(** *** Strings *)

Lemma string_scan_step (c : byte) (t : list byte) (sp ep : Z) :
  (c == dquote) = false -> (c == bslash) = false ->
  string_scan (c :: t) sp ep = string_scan t (sp + 1) ep.
Proof. intros Hq Hb. cbn [string_scan]. rewrite Hb, Hq. reflexivity. Qed.

Lemma string_scan_escape (e : byte) (t : list byte) (sp ep : Z) :
  string_scan (bslash :: e :: t) sp ep
  = string_scan t (sp + 2) (if ep =? -1 then sp else ep).
Proof. reflexivity. Qed.

Lemma string_scan_body (body : list byte) :
  string_body body ->
  forall rest sp ep, exists ep',
    string_scan (body ++ dquote :: rest) sp ep = (sp + len body + 1, ep').
Proof.
  induction 1 as [|c s Hc Hs IH|e s He Hs IH|h1 h2 h3 h4 s H1 H2 H3 H4 Hs IH];
    intros rest sp ep.
  - exists ep. rewrite len_nil, Z.add_0_r. reflexivity.
  - destruct (plain_not_special c Hc) as [Hq Hb].
    destruct (IH rest (sp + 1) ep) as (ep' & Heq). exists ep'.
    cbn [app]. rewrite string_scan_step, Heq, len_cons by assumption.
    f_equal. lia.
  - destruct (IH rest (sp + 2) (if ep =? -1 then sp else ep)) as (ep' & Heq).
    exists ep'. cbn [app]. rewrite string_scan_escape, Heq.
    len_simpl. f_equal. lia.
  - destruct (hex_not_special h1 H1) as [Q1 B1].
    destruct (hex_not_special h2 H2) as [Q2 B2].
    destruct (hex_not_special h3 H3) as [Q3 B3].
    destruct (hex_not_special h4 H4) as [Q4 B4].
    destruct (IH rest (sp + 2 + 1 + 1 + 1 + 1) (if ep =? -1 then sp else ep))
      as (ep' & Heq).
    exists ep'. cbn [app]. rewrite string_scan_escape.
    rewrite !string_scan_step, Heq by assumption. len_simpl. f_equal. lia.
Qed.

Lemma skipString_json (src : list byte) (p : Z) (s rest : list byte) :
  rest_at src p (s ++ rest) -> json_string s ->
  fst (skipString src p) = p + len s.
Proof.
  intros H (body & Hbody & ->).
  rewrite <- app_comm_cons, <- app_assoc in H. cbn [app] in H.
  pose proof H as Hlen. apply rest_at_len in Hlen.
  2:{ apply rest_at_cons in H. lia. }
  rewrite len_cons, len_app, len_cons in Hlen.
  pose proof (len_nonneg body) as Hb0. pose proof (len_nonneg rest) as Hr0.
  apply rest_at_cons in H as (Hb & _ & H).
  unfold skipString.
  replace (p + 1 >=? len src) with false
    by (symmetry; rewrite Z.geb_leb; apply Z.leb_gt; lia).
  rewrite Hb. cbn [Ascii.eqb Bool.eqb dquote negb andb].
  rewrite (skipString_loop_scan _ src (p + 1) (-1) _ H) by lia.
  destruct (string_scan_body body Hbody rest (p + 1) (-1)) as (ep' & ->).
  replace (p + 1 + len body + 1 >? len src) with false
    by (symmetry; rewrite Z.gtb_ltb; apply Z.ltb_ge; lia).
  cbn [fst]. len_simpl. lia.
Qed.

(** *** Literals *)

Lemma decode_literal (src : list byte) (p : Z) (lit rest : list byte) :
  rest_at src p (lit ++ rest) -> lit <> [] ->
  (p + len lit >? len src) = false
  /\ bytes_eqb (slice src p (p + len lit)) lit = true.
Proof.
  intros H Hne. pose proof H as [H0 Hs]. split.
  - rewrite Z.gtb_ltb. apply Z.ltb_ge.
    destruct (Z_le_gt_dec p (len src)) as [Hle|Hgt].
    + rewrite (rest_at_len _ _ _ H Hle), len_app. pose proof (len_nonneg rest). lia.
    + assert (Hn : rest_at src p []).
      { apply rest_at_beyond; lia. }
      destruct Hn as [_ Hn]. rewrite Hn in Hs.
      symmetry in Hs. apply app_eq_nil in Hs as [Hs _]. contradiction.
  - unfold slice. rewrite Hs.
    replace (p + len lit - p) with (len lit) by lia.
    unfold len. rewrite Nat2Z.id, firstn_app, firstn_all, Nat.sub_diag.
    cbn [firstn]. rewrite app_nil_r. unfold bytes_eqb.
    destruct (list_eq_dec ascii_dec lit lit); [reflexivity | contradiction].
Qed.

Lemma decodeNull_json (src : list byte) (p : Z) (rest : list byte) :
  rest_at src p (bytes "null" ++ rest) -> decodeNull src p = p + 4.
Proof.
  intros H. destruct (decode_literal src p _ rest H ltac:(discriminate)) as [H1 H2].
  unfold decodeNull. change (len (bytes "null")) with 4 in *.
  cbv zeta. rewrite H1. unfold bytesNull. rewrite H2. reflexivity.
Qed.

Lemma decodeTrue_json (src : list byte) (p : Z) (rest : list byte) :
  rest_at src p (bytes "true" ++ rest) -> decodeTrue src p = p + 4.
Proof.
  intros H. destruct (decode_literal src p _ rest H ltac:(discriminate)) as [H1 H2].
  unfold decodeTrue. change (len (bytes "true")) with 4 in *.
  cbv zeta. rewrite H1. unfold bytesTrue. rewrite H2. reflexivity.
Qed.

Lemma decodeFalse_json (src : list byte) (p : Z) (rest : list byte) :
  rest_at src p (bytes "false" ++ rest) -> decodeFalse src p = p + 5.
Proof.
  intros H. destruct (decode_literal src p _ rest H ltac:(discriminate)) as [H1 H2].
  unfold decodeFalse. change (len (bytes "false")) with 5 in *.
  cbv zeta. rewrite H1. unfold bytesFalse. rewrite H2. reflexivity.
Qed.

(** *** Objects and arrays *)

Section Pairs.

Variables lchar rchar : byte.
Hypothesis Hdelims : delims lchar rchar.

Lemma delims_not_special :
  (lchar == bslash) = false /\ (lchar == dquote) = false
  /\ (rchar == bslash) = false /\ (rchar == dquote) = false
  /\ Ascii.eqb rchar lchar = false.
Proof. destruct Hdelims as [[-> ->] | [-> ->]]; repeat split. Qed.

Lemma inert_not_special (c : byte) :
  inert c = true ->
  (c == bslash) = false /\ (c == dquote) = false
  /\ Ascii.eqb c lchar = false /\ Ascii.eqb c rchar = false.
Proof.
  unfold inert. intros H.
  repeat (apply andb_prop in H as [H ?]).
  repeat match goal with X : negb _ = true |- _ => apply negb_true_iff in X end.
  destruct Hdelims as [[-> ->] | [-> ->]]; repeat split; assumption.
Qed.

Lemma transparent_nil : transparent lchar rchar [].
Proof. intros rest sp nb _. rewrite len_nil, Z.add_0_r. reflexivity. Qed.

Lemma transparent_app (a b : list byte) :
  transparent lchar rchar a -> transparent lchar rchar b ->
  transparent lchar rchar (a ++ b).
Proof.
  intros Ha Hb rest sp nb Hnb.
  rewrite <- app_assoc, Ha, Hb, len_app by exact Hnb. f_equal. lia.
Qed.

Lemma transparent_other (c : byte) :
  (c == bslash) = false -> (c == dquote) = false ->
  Ascii.eqb c lchar = false -> Ascii.eqb c rchar = false ->
  transparent lchar rchar [c].
Proof.
  intros H1 H2 H3 H4 rest sp nb _.
  cbn [app pair_scan]. rewrite H1, H2, H3, H4. reflexivity.
Qed.

Lemma transparent_byte (c : byte) :
  inert c = true -> transparent lchar rchar [c].
Proof.
  intros Hc. destruct (inert_not_special c Hc) as (H1 & H2 & H3 & H4).
  apply transparent_other; assumption.
Qed.

Lemma transparent_inert (t : list byte) :
  Forall (fun c => inert c = true) t -> transparent lchar rchar t.
Proof.
  induction 1 as [|c t Hc Ht IH]; [apply transparent_nil|].
  change (c :: t) with ([c] ++ t).
  apply transparent_app; [apply transparent_byte; exact Hc | exact IH].
Qed.

(** Inside quotes every byte but the backslash and the quote leaves the
    counter alone. *)
Lemma pair_scan_quoted_step (c : byte) (t : list byte) (sp nbrace : Z) :
  (c == dquote) = false -> (c == bslash) = false ->
  pair_scan lchar rchar (c :: t) sp nbrace true
  = pair_scan lchar rchar t (sp + 1) nbrace true.
Proof.
  intros Hq Hb. cbn [pair_scan negb]. rewrite Hb, Hq.
  destruct (Ascii.eqb c lchar); [reflexivity|].
  destruct (Ascii.eqb c rchar); reflexivity.
Qed.

Lemma pair_scan_escape (e : byte) (t : list byte) (sp nbrace : Z) (inquote : bool) :
  pair_scan lchar rchar (bslash :: e :: t) sp nbrace inquote
  = pair_scan lchar rchar t (sp + 2) nbrace inquote.
Proof. reflexivity. Qed.

Lemma pair_scan_quote (t : list byte) (sp nbrace : Z) (inquote : bool) :
  pair_scan lchar rchar (dquote :: t) sp nbrace inquote
  = pair_scan lchar rchar t (sp + 1) nbrace (negb inquote).
Proof. reflexivity. Qed.

Lemma pair_scan_string_body (body : list byte) :
  string_body body ->
  forall rest sp nbrace,
    pair_scan lchar rchar (body ++ dquote :: rest) sp nbrace true
    = pair_scan lchar rchar rest (sp + len body + 1) nbrace false.
Proof.
  induction 1 as [|c s Hc Hs IH|e s He Hs IH|h1 h2 h3 h4 s H1 H2 H3 H4 Hs IH];
    intros rest sp nb.
  - cbn [app]. rewrite pair_scan_quote, len_nil, Z.add_0_r. reflexivity.
  - destruct (plain_not_special c Hc) as [Hq Hb].
    cbn [app]. rewrite pair_scan_quoted_step, IH, len_cons by assumption.
    f_equal. lia.
  - cbn [app]. rewrite pair_scan_escape, IH. len_simpl. f_equal. lia.
  - destruct (hex_not_special h1 H1) as [Q1 B1].
    destruct (hex_not_special h2 H2) as [Q2 B2].
    destruct (hex_not_special h3 H3) as [Q3 B3].
    destruct (hex_not_special h4 H4) as [Q4 B4].
    cbn [app]. rewrite pair_scan_escape.
    rewrite !pair_scan_quoted_step, IH by assumption. len_simpl. f_equal. lia.
Qed.

Lemma transparent_string (s : list byte) :
  json_string s -> transparent lchar rchar s.
Proof.
  intros (body & Hbody & ->) rest sp nb _.
  rewrite <- app_comm_cons, <- app_assoc. cbn [app].
  rewrite pair_scan_quote. cbn [negb].
  rewrite pair_scan_string_body by exact Hbody. len_simpl. f_equal. lia.
Qed.

(** A nested pair of the same kind raises the counter and lowers it again,
    never down to 0. *)
Lemma transparent_nested (body : list byte) :
  transparent lchar rchar body ->
  transparent lchar rchar (lchar :: body ++ [rchar]).
Proof.
  intros Hbody rest sp nb Hnb.
  destruct delims_not_special as (L1 & L2 & R1 & R2 & RL).
  rewrite <- app_comm_cons, <- app_assoc. cbn [app].
  cbn [pair_scan]. rewrite L1, L2, Ascii.eqb_refl. cbn [negb].
  rewrite Hbody by lia.
  cbn [pair_scan]. rewrite R1, R2, RL, Ascii.eqb_refl. cbn [negb].
  replace (nb + 1 - 1 =? 0) with false by (symmetry; apply Z.eqb_neq; lia).
  len_simpl. f_equal; lia.
Qed.

Lemma blank_inert (w : list byte) :
  blank w -> Forall (fun c => inert c = true) w.
Proof.
  apply Forall_impl. intros c. byte_cases c; (discriminate || reflexivity).
Qed.

Lemma number_char_inert (c : byte) : isNumberChars c = true -> inert c = true.
Proof. byte_cases c; (discriminate || reflexivity). Qed.

Lemma digits_number_chars (ds : list byte) :
  digits ds -> Forall (fun c => isNumberChars c = true) ds.
Proof.
  apply Forall_impl. intros c Hc. unfold isNumberChars.
  unfold isDigit in Hc. rewrite Hc. reflexivity.
Qed.

Lemma json_number_chars (n : list byte) :
  json_number n -> Forall (fun c => isNumberChars c = true) n.
Proof.
  intros [minus i f x Hminus Hi Hf Hx].
  apply Forall_app; split; [|apply Forall_app; split; [|apply Forall_app; split]].
  - destruct Hminus as [-> | ->]; repeat constructor.
  - apply digits_number_chars, json_int_digits, Hi.
  - destruct Hf as [|d ds Hd Hds]; [constructor|].
    constructor; [reflexivity|].
    apply digits_number_chars. constructor; assumption.
  - destruct Hx as [|e sign d ds He Hsign Hd Hds]; [constructor|].
    constructor; [destruct He as [-> | ->]; reflexivity|].
    apply Forall_app. split.
    + destruct Hsign as [-> | [-> | ->]]; repeat constructor.
    + apply digits_number_chars. constructor; assumption.
Qed.

Lemma transparent_number (n : list byte) :
  json_number n -> transparent lchar rchar n.
Proof.
  intros Hn. apply transparent_inert.
  eapply Forall_impl; [|apply json_number_chars; exact Hn].
  exact number_char_inert.
Qed.

Lemma transparent_blank (w : list byte) : blank w -> transparent lchar rchar w.
Proof. intros Hw. apply transparent_inert, blank_inert, Hw. Qed.

End Pairs.

(** A pair of the other kind is made of bytes the scan does not count,
    around a body it passes over; a pair of the same kind is nested. *)
Lemma transparent_pair (lchar rchar l r : byte) (body : list byte) :
  delims lchar rchar -> delims l r -> transparent lchar rchar body ->
  transparent lchar rchar (l :: body ++ [r]).
Proof.
  intros Hd Hlr Hbody.
  destruct Hd as [[-> ->] | [-> ->]], Hlr as [[-> ->] | [-> ->]].
  - apply transparent_nested; [left; split; reflexivity | exact Hbody].
  - change (transparent "{" "}" (["["%char] ++ body ++ ["]"%char])).
    apply transparent_app; [apply transparent_other; reflexivity|].
    apply transparent_app; [exact Hbody|].
    apply transparent_other; reflexivity.
  - change (transparent "[" "]" (["{"%char] ++ body ++ ["}"%char])).
    apply transparent_app; [apply transparent_other; reflexivity|].
    apply transparent_app; [exact Hbody|].
    apply transparent_other; reflexivity.
  - apply transparent_nested; [right; split; reflexivity | exact Hbody].
Qed.

Lemma transparent_json (lchar rchar : byte) :
  delims lchar rchar ->
  (forall v, json_value v -> transparent lchar rchar v)
  /\ (forall es, json_elements es -> transparent lchar rchar es)
  /\ (forall ms, json_members ms -> transparent lchar rchar ms).
Proof.
  intros Hd.
  assert (Hbyte : forall c, inert c = true -> transparent lchar rchar [c]).
  { intros c. apply transparent_byte, Hd. }
  assert (Hblank : forall w, blank w -> transparent lchar rchar w).
  { intros w. apply transparent_blank, Hd. }
  assert (Hstr : forall k, json_string k -> transparent lchar rchar k).
  { intros k. apply transparent_string. }
  apply json_mutind.
  - apply transparent_inert; [exact Hd | repeat constructor].
  - apply transparent_inert; [exact Hd | repeat constructor].
  - apply transparent_inert; [exact Hd | repeat constructor].
  - apply transparent_number, Hd.
  - exact Hstr.
  - intros w Hw. apply transparent_pair;
      [exact Hd | right; split; reflexivity | apply Hblank, Hw].
  - intros es _ IH. apply transparent_pair;
      [exact Hd | right; split; reflexivity | exact IH].
  - intros w Hw. apply transparent_pair;
      [exact Hd | left; split; reflexivity | apply Hblank, Hw].
  - intros ms _ IH. apply transparent_pair;
      [exact Hd | left; split; reflexivity | exact IH].
  - intros w1 v w2 Hw1 _ IHv Hw2.
    apply transparent_app; [apply Hblank, Hw1|].
    apply transparent_app; [exact IHv | apply Hblank, Hw2].
  - intros w1 v w2 es Hw1 _ IHv Hw2 _ IHes.
    change (","%char :: es) with ([","%char] ++ es).
    apply transparent_app; [apply Hblank, Hw1|].
    apply transparent_app; [exact IHv|].
    apply transparent_app; [apply Hblank, Hw2|].
    apply transparent_app; [apply Hbyte; reflexivity | exact IHes].
  - intros w1 k w2 w3 v w4 Hw1 Hk Hw2 Hw3 _ IHv Hw4.
    change (":"%char :: w3 ++ v ++ w4) with ([":"%char] ++ w3 ++ v ++ w4).
    apply transparent_app; [apply Hblank, Hw1|].
    apply transparent_app; [apply Hstr, Hk|].
    apply transparent_app; [apply Hblank, Hw2|].
    apply transparent_app; [apply Hbyte; reflexivity|].
    apply transparent_app; [apply Hblank, Hw3|].
    apply transparent_app; [exact IHv | apply Hblank, Hw4].
  - intros w1 k w2 w3 v w4 ms Hw1 Hk Hw2 Hw3 _ IHv Hw4 _ IHms.
    change (":"%char :: w3 ++ v ++ w4 ++ ","%char :: ms)
      with ([":"%char] ++ w3 ++ v ++ w4 ++ [","%char] ++ ms).
    apply transparent_app; [apply Hblank, Hw1|].
    apply transparent_app; [apply Hstr, Hk|].
    apply transparent_app; [apply Hblank, Hw2|].
    apply transparent_app; [apply Hbyte; reflexivity|].
    apply transparent_app; [apply Hblank, Hw3|].
    apply transparent_app; [exact IHv|].
    apply transparent_app; [apply Hblank, Hw4|].
    apply transparent_app; [apply Hbyte; reflexivity | exact IHms].
Qed.

(** [skipPair] on a pair whose body the scan passes over. *)
Lemma skipPair_balanced (lchar rchar : byte) (src : list byte) (p : Z)
  (body rest : list byte) :
  delims lchar rchar ->
  rest_at src p ((lchar :: body ++ [rchar]) ++ rest) ->
  transparent lchar rchar body ->
  skipPair src p lchar rchar = p + len (lchar :: body ++ [rchar]).
Proof.
  intros Hd H Hbody.
  destruct (delims_not_special lchar rchar Hd) as (L1 & L2 & R1 & R2 & RL).
  rewrite <- app_comm_cons, <- app_assoc in H. cbn [app] in H.
  pose proof H as Hlen. apply rest_at_len in Hlen.
  2:{ apply rest_at_cons in H. lia. }
  rewrite len_cons, len_app, len_cons in Hlen.
  pose proof (len_nonneg body) as Hb0. pose proof (len_nonneg rest) as Hr0.
  apply rest_at_cons in H as (Hb & _ & H).
  unfold skipPair.
  replace (p + 1 >=? len src) with false
    by (symmetry; rewrite Z.geb_leb; apply Z.leb_gt; lia).
  rewrite Hb, Ascii.eqb_refl. cbn [negb].
  rewrite (skipPair_loop_scan _ src lchar rchar (p + 1) 1 false _ H) by lia.
  rewrite Hbody by lia.
  cbn [pair_scan]. rewrite R1, R2, RL, Ascii.eqb_refl. cbn [negb].
  change (1 - 1 =? 0) with true. cbv iota. change (1 - 1 =? 0) with true.
  cbn [negb]. len_simpl. lia.
Qed.

Lemma transparent_flat (lchar rchar : byte) (body : list byte) :
  delims lchar rchar -> flat_body body -> transparent lchar rchar body.
Proof.
  intros Hd. induction 1 as [|c t Hc Ht IH|k t Hk Ht IH].
  - apply transparent_nil.
  - change (c :: t) with ([c] ++ t).
    apply transparent_app; [apply transparent_byte; assumption | exact IH].
  - apply transparent_app; [apply transparent_string; exact Hk | exact IH].
Qed.

Lemma skipPair_flat (lchar rchar : byte) (src : list byte) (p : Z)
  (body rest : list byte) :
  delims lchar rchar ->
  rest_at src p ((lchar :: body ++ [rchar]) ++ rest) -> flat_body body ->
  skipPair src p lchar rchar = p + len (lchar :: body ++ [rchar]).
Proof.
  intros Hd H Hbody.
  apply (skipPair_balanced lchar rchar src p body rest Hd H).
  apply transparent_flat; assumption.
Qed.

(** C6, as the code has it.  [skipPair] skips the object whose string value
    holds a closing brace as one balanced object, up to the offset just past
    its final brace, and so every pair whose body is made of JSON strings
    (whatever delimiters they hold) and of bytes that are no delimiters.
    When at least one byte follows the opening delimiter
    and the nesting counter never reaches 0, it returns the
    invalid-character code; when the opening delimiter is the last byte of
    the buffer (or lies beyond it), it returns the EOF code. *)
Theorem skipPair_quote_aware :
  skipPair brace_in_string 0 "{"%char "}"%char = len brace_in_string
  /\ (forall lchar rchar src p body rest,
        delims lchar rchar ->
        rest_at src p ((lchar :: body ++ [rchar]) ++ rest) -> flat_body body ->
        skipPair src p lchar rchar = p + len (lchar :: body ++ [rchar]))
  /\ (forall src pos lchar rchar,
        0 <= pos -> pos + 1 < len src -> byte_at src pos = lchar ->
        counter_reaches_zero lchar rchar (skipn (Z.to_nat (pos + 1)) src) 1 false
        = false ->
        skipPair src pos lchar rchar = - ERR_INVALID_CHAR)
  /\ (forall src pos lchar rchar,
        len src <= pos + 1 -> skipPair src pos lchar rchar = - ERR_EOF).
Proof.
  split; [reflexivity|]. split; [exact skipPair_flat|].
  split; [exact skipPair_unbalanced|].
  intros src pos lchar rchar Hle. unfold skipPair.
  replace (pos + 1 >=? len src) with true
    by (symmetry; rewrite Z.geb_leb; apply Z.leb_le; exact Hle).
  reflexivity.
Qed.

(** An object opened twice and closed once; a lone brace. *)
Lemma skipPair_quote_aware_witness :
  skipPair (bytes "{{}") 0 "{"%char "}"%char = - ERR_INVALID_CHAR
  /\ skipPair (bytes "{") 0 "{"%char "}"%char = - ERR_EOF.
Proof.
  destruct skipPair_quote_aware as (_ & _ & H2 & H3). split.
  - apply H2; [lia | reflexivity | reflexivity | reflexivity].
  - apply H3. vm_compute. discriminate.
Defined.

(** C6 as stated fails on a lone opening brace: nothing closes it, so its
    counter never reaches 0, and the result is the EOF code, which differs
    from the invalid-character code. *)
Lemma skipPair_lone_open_brace :
  skipPair (bytes "{") 0 "{"%char "}"%char = - ERR_EOF
  /\ (- ERR_EOF =? - ERR_INVALID_CHAR) = false
  /\ byte_at (bytes "{") 0 = "{"%char
  /\ counter_reaches_zero "{"%char "}"%char (skipn 1 (bytes "{")) 1 false = false.
Proof. repeat split. Qed.

(** *** The dispatcher *)

Lemma slice_rest_at (src : list byte) (s : Z) (v rest : list byte) :
  rest_at src s (v ++ rest) -> slice src s (s + len v) = v.
Proof.
  intros [_ H]. unfold slice. rewrite H.
  replace (s + len v - s) with (len v) by lia.
  unfold len. rewrite Nat2Z.id, firstn_app, firstn_all, Nat.sub_diag.
  cbn [firstn]. apply app_nil_r.
Qed.

Lemma json_number_head (n : list byte) :
  json_number n ->
  exists c t, n = c :: t /\ ((c == "-") || isDigit c) = true.
Proof.
  intros [minus i f x Hminus Hi Hf Hx].
  destruct Hminus as [-> | ->].
  - destruct (json_int_digits i Hi) as [Hds Hne].
    destruct Hds as [|d ds Hd Hds]; [contradiction Hne; reflexivity|].
    exists d, (ds ++ f ++ x). split; [reflexivity|].
    rewrite Hd. apply orb_true_r.
  - exists "-"%char, (i ++ f ++ x). split; reflexivity.
Qed.

Lemma number_dispatch (c : byte) :
  ((c == "-") || isDigit c) = true ->
  forall (A : Type) (a1 a2 a3 a4 a5 a6 x y : A),
    (if c == "n" then a1 else if c == dquote then a2
     else if c == "{" then a3 else if c == "[" then a4
     else if c == "t" then a5 else if c == "f" then a6
     else if (c == "-") || (c == "+") || isDigit c then x else y) = x.
Proof. intros H A a1 a2 a3 a4 a5 a6 x y. byte_cases c; try discriminate H; reflexivity. Qed.

Lemma number_head_not_space (c : byte) :
  ((c == "-") || isDigit c) = true -> isSpace c = false.
Proof. byte_cases c; (discriminate || reflexivity). Qed.

Lemma json_value_head (v : list byte) :
  json_value v -> exists c t, v = c :: t /\ isSpace c = false.
Proof.
  intros Hv. destruct Hv as [| | |n Hn|s Hs|w Hw|es Hes|w Hw|ms Hms];
    try (eexists; eexists; split; [reflexivity | reflexivity]).
  - destruct (json_number_head n Hn) as (c & t & -> & Hc).
    exists c, t. split; [reflexivity | apply number_head_not_space, Hc].
  - destruct Hs as (body & _ & ->).
    eexists; eexists; split; [reflexivity | reflexivity].
Qed.

Lemma SkipValue_at (src : list byte) (pos s : Z) (v rest : list byte) :
  SkipBlank src pos = s -> rest_at src s (v ++ rest) -> json_value v ->
  (json_number v -> next_byte (fun c => negb (isNumberChars c)) rest) ->
  SkipValue src pos = (s + len v, s).
Proof.
  intros Hs H Hv Hrest. pose proof H as [H0 _].
  assert (Hneg : (s <? 0) = false) by (apply Z.ltb_ge; exact H0).
  unfold SkipValue. rewrite Hs, Hneg. f_equal.
  destruct Hv as [| | |n Hn|str Hstr|w Hw|es Hes|w Hw|ms Hms].
  - pose proof H as Hc. apply rest_at_cons in Hc as (-> & _).
    cbn [Ascii.eqb Bool.eqb andb]. apply (decodeNull_json _ _ _ H).
  - pose proof H as Hc. apply rest_at_cons in Hc as (-> & _).
    cbn [Ascii.eqb Bool.eqb andb dquote]. apply (decodeTrue_json _ _ _ H).
  - pose proof H as Hc. apply rest_at_cons in Hc as (-> & _).
    cbn [Ascii.eqb Bool.eqb andb dquote]. apply (decodeFalse_json _ _ _ H).
  - destruct (json_number_head n Hn) as (c & t & Hnt & Hc).
    pose proof H as Hb. rewrite Hnt in Hb. cbn [app] in Hb.
    apply rest_at_cons in Hb as (-> & _).
    rewrite (number_dispatch c Hc). apply (skipNumber_json _ _ _ _ H Hn (Hrest Hn)).
  - pose proof Hstr as (body & _ & Hbody).
    pose proof H as Hb. rewrite Hbody in Hb. cbn [app] in Hb.
    apply rest_at_cons in Hb as (-> & _).
    cbn [Ascii.eqb Bool.eqb andb dquote]. apply (skipString_json _ _ _ _ H Hstr).
  - pose proof H as Hc. apply rest_at_cons in Hc as (-> & _).
    cbn [Ascii.eqb Bool.eqb andb dquote].
    apply (skipPair_balanced "["%char "]"%char _ _ _ _
             ltac:(right; split; reflexivity) H).
    apply transparent_blank; [right; split; reflexivity | exact Hw].
  - pose proof H as Hc. apply rest_at_cons in Hc as (-> & _).
    cbn [Ascii.eqb Bool.eqb andb dquote].
    apply (skipPair_balanced "["%char "]"%char _ _ _ _
             ltac:(right; split; reflexivity) H).
    apply (proj1 (proj2 (transparent_json "["%char "]"%char
                           ltac:(right; split; reflexivity)))), Hes.
  - pose proof H as Hc. apply rest_at_cons in Hc as (-> & _).
    cbn [Ascii.eqb Bool.eqb andb dquote].
    apply (skipPair_balanced "{"%char "}"%char _ _ _ _
             ltac:(left; split; reflexivity) H).
    apply transparent_blank; [left; split; reflexivity | exact Hw].
  - pose proof H as Hc. apply rest_at_cons in Hc as (-> & _).
    cbn [Ascii.eqb Bool.eqb andb dquote].
    apply (skipPair_balanced "{"%char "}"%char _ _ _ _
             ltac:(left; split; reflexivity) H).
    apply (proj2 (proj2 (transparent_json "{"%char "}"%char
                           ltac:(left; split; reflexivity)))), Hms.
Qed.

(** C1.  For a JSON value [v] whose text starts at the post-blank offset
    [s] (and, when [v] is a number, is followed by the end of the buffer or
    by a byte no number contains, so that the number ends there),
    [SkipValue] returns [s] as start and [s + len v] as
    end: the end is not negative and the slice between the two is exactly
    [v], so no byte of what follows is consumed.  With blanks [w] before the
    value at offset [len pre], the start is [len pre + len w]. *)
Theorem SkipValue_json :
  (forall src pos s v rest,
     SkipBlank src pos = s -> rest_at src s (v ++ rest) -> json_value v ->
     (json_number v -> next_byte (fun c => negb (isNumberChars c)) rest) ->
     SkipValue src pos = (s + len v, s)
     /\ 0 <= s + len v
     /\ slice src s (s + len v) = v)
  /\ (forall pre w v rest,
        blank w -> json_value v ->
        (json_number v -> next_byte (fun c => negb (isNumberChars c)) rest) ->
        let src := pre ++ w ++ v ++ rest in
        let s := len pre + len w in
        SkipValue src (len pre) = (s + len v, s)
        /\ 0 <= s + len v
        /\ slice src s (s + len v) = v).
Proof.
  assert (Hrel : forall src pos s v rest,
     SkipBlank src pos = s -> rest_at src s (v ++ rest) -> json_value v ->
     (json_number v -> next_byte (fun c => negb (isNumberChars c)) rest) ->
     SkipValue src pos = (s + len v, s)
     /\ 0 <= s + len v
     /\ slice src s (s + len v) = v).
  { intros src pos s v rest Hs H Hv Hrest. split; [|split].
    - apply (SkipValue_at _ _ _ _ _ Hs H Hv Hrest).
    - destruct H as [H0 _]. pose proof (len_nonneg v). lia.
    - apply (slice_rest_at _ _ _ _ H). }
  split; [exact Hrel|].
  intros pre w v rest Hw Hv Hrest src s.
  apply (Hrel src (len pre) s v rest); try assumption.
  - destruct (json_value_head v Hv) as (c & t & -> & Hc).
    unfold src, s. cbn [app]. apply SkipBlank_stops; assumption.
  - unfold src, s. apply rest_at_mid.
Qed.

Lemma sample_value_json : json_value sample_value.
Proof.
  unfold sample_value.
  apply (JV_array (bytes "1,{" ++ dquote :: bytes "k]" ++ bslash :: dquote :: dquote
                     :: bytes ":-2.5e+3},null")).
  apply (JE_more [] (bytes "1") [] _ (Forall_nil _)); [|constructor|].
  { apply JV_number.
    apply (JN_intro [] (bytes "1") [] []);
      [left; reflexivity | apply JI_digits; [reflexivity | discriminate | constructor]
      | constructor | constructor]. }
  apply (JE_more [] ("{"%char :: dquote :: bytes "k]" ++ bslash :: dquote :: dquote
                      :: bytes ":-2.5e+3}") [] (bytes "null") (Forall_nil _));
    [|constructor|].
  { apply (JV_object (dquote :: bytes "k]" ++ bslash :: dquote :: dquote
                        :: bytes ":-2.5e+3")).
    apply (JM_last [] (dquote :: bytes "k]" ++ bslash :: dquote :: [dquote]) [] []
             (bytes "-2.5e+3") []); try constructor.
    - exists (bytes "k]" ++ [bslash; dquote]). split; [|reflexivity].
      apply SB_plain; [reflexivity|]. apply SB_plain; [reflexivity|].
      apply SB_escape; [reflexivity | constructor].
    - apply (JN_intro ["-"%char] (bytes "2") (bytes ".5") (bytes "e+3"));
        [right; reflexivity
        | apply JI_digits; [reflexivity | discriminate | constructor]
        | apply JF_some; [reflexivity | constructor]
        | apply (JX_some "e"%char ["+"%char] "3"%char []);
          [left; reflexivity | right; left; reflexivity | reflexivity | constructor]]. }
  apply (JE_last [] (bytes "null") []); constructor.
Qed.

Lemma SkipValue_json_witness :
  SkipValue (bytes "x  " ++ sample_value ++ bytes ",7") 1 = (28, 3)
  /\ slice (bytes "x  " ++ sample_value ++ bytes ",7") 3 28 = sample_value.
Proof.
  destruct (proj2 SkipValue_json (bytes "x") (bytes "  ") sample_value (bytes ",7"))
    as (H1 & _ & H3);
    [repeat constructor | exact sample_value_json | intros _; reflexivity |].
  split; [exact H1 | exact H3].
Defined.

(** ** Further properties of the skippers and of the integer decoder *)

(** X1.  [skipString] on a well-formed JSON string returns the offset just
    past its closing quote, whatever follows. *)
Theorem skipString_skips_json_string :
  forall src p s rest,
    rest_at src p (s ++ rest) -> json_string s ->
    fst (skipString src p) = p + len s.
Proof. exact skipString_json. Qed.

Lemma skipString_skips_json_string_witness :
  fst (skipString (bytes "k:" ++ dquote :: bytes "a\n" ++ dquote :: bytes ",1") 2) = 7.
Proof.
  apply (skipString_skips_json_string _ 2 (dquote :: bytes "a\n" ++ [dquote]) (bytes ",1")).
  - split; [lia | reflexivity].
  - exists (bytes "a\n"). split; [|reflexivity].
    apply SB_plain; [reflexivity|]. apply SB_escape; [reflexivity | constructor].
Defined.

(** X2.  [skipNumber] accepts every number of the JSON grammar and returns
    the offset just past it, provided the number ends there. *)
Theorem skipNumber_skips_json_number :
  forall src p n rest,
    rest_at src p (n ++ rest) -> json_number n ->
    next_byte (fun c => negb (isNumberChars c)) rest ->
    skipNumber src p = p + len n.
Proof. exact skipNumber_json. Qed.

Lemma skipNumber_skips_json_number_witness :
  skipNumber (bytes "[-10.25E-3]") 1 = 10.
Proof.
  apply (skipNumber_skips_json_number _ 1 (bytes "-10.25E-3") (bytes "]")).
  - split; [lia | reflexivity].
  - apply (JN_intro ["-"%char] (bytes "10") (bytes ".25") (bytes "E-3"));
      [right; reflexivity
      | apply JI_digits; [reflexivity | discriminate | repeat constructor]
      | apply JF_some; [reflexivity | repeat constructor]
      | apply (JX_some "E"%char ["-"%char] "3"%char []);
        [right; reflexivity | right; right; reflexivity | reflexivity | constructor]].
  - reflexivity.
Defined.

(** X3.  [decodeInt64] on a signed digit run within the signed 64-bit
    range, not followed by a digit, a dot or an exponent marker: the end
    offset of the run, the integer the run denotes, and no error. *)
Theorem decodeInt64_in_range :
  forall pre sign ds rest,
    sign = [] \/ sign = ["-"%char] -> digits ds -> ds <> [] ->
    next_byte (fun c => negb (isDigit c) && negb (isFloatMarker c)) rest ->
    - 2 ^ 63 <= signed_val sign ds <= 2 ^ 63 - 1 ->
    decodeInt64 (pre ++ sign ++ ds ++ rest) (len pre)
    = (len pre + len sign + len ds, signed_val sign ds, None).
Proof.
  intros pre sign ds rest Hsign Hds Hne Hnext [Hlo Hhi].
  rewrite decodeInt64_span by assumption.
  rewrite ParseInt_signed_digits by assumption.
  replace ((- 2 ^ 63 <=? signed_val sign ds) && (signed_val sign ds <=? 2 ^ 63 - 1))
    with true; [reflexivity|].
  symmetry. apply andb_true_intro. split; apply Z.leb_le; assumption.
Qed.

Lemma decodeInt64_in_range_witness :
  decodeInt64 (bytes "[-9223372036854775808,") 1 = (21, - 9223372036854775808, None).
Proof.
  apply (decodeInt64_in_range (bytes "[") ["-"%char] (bytes "9223372036854775808")
           (bytes ",")).
  - right; reflexivity.
  - repeat constructor.
  - discriminate.
  - reflexivity.
  - split; vm_compute; discriminate.
Defined.

(** ** Offsets returned on success lie within the buffer *)

Lemma rest_at_here (src : list byte) (sp : Z) :
  0 <= sp -> rest_at src sp (skipn (Z.to_nat sp) src).
Proof. intros H. split; [exact H | reflexivity]. Qed.

Lemma rest_at_nonempty (src : list byte) (sp : Z) :
  0 <= sp -> sp < len src -> skipn (Z.to_nat sp) src <> [].
Proof.
  intros H0 Hlt E. pose proof (rest_at_here src sp H0) as H. rewrite E in H.
  apply rest_at_nil in H. lia.
Qed.

Lemma string_scan_bounds :
  forall t sp ep,
    sp <= fst (string_scan t sp ep)
    /\ (t <> [] -> sp + 1 <= fst (string_scan t sp ep)).
Proof.
  induction t as [t IH] using scan_ind. intros sp ep.
  destruct t as [|c t]; [cbn; split; [lia | intros H; contradiction H; reflexivity]|].
  cbn [string_scan].
  destruct (c == bslash).
  - destruct t as [|c' t]; [cbn; split; intros; lia|].
    destruct (IH t ltac:(cbn; lia) (sp + 2) (if ep =? -1 then sp else ep)) as [H _].
    split; intros; lia.
  - destruct (c == dquote); [cbn; split; intros; lia|].
    destruct (IH t ltac:(cbn; lia) (sp + 1) ep) as [H _].
    split; intros; lia.
Qed.

Lemma skipString_bounds (src : list byte) (pos : Z) :
  0 <= pos -> 0 <= fst (skipString src pos) ->
  pos + 2 <= fst (skipString src pos) <= len src.
Proof.
  intros H0. unfold skipString.
  destruct (pos + 1 >=? len src) eqn:Hg; [cbn; unfold ERR_EOF; lia|].
  rewrite Z.geb_leb in Hg. apply Z.leb_gt in Hg.
  destruct (byte_at src pos == dquote); cbn [negb];
    [|cbn; unfold ERR_INVALID_CHAR; lia].
  rewrite (skipString_loop_scan _ src (pos + 1) (-1) _
             (rest_at_here src (pos + 1) ltac:(lia))) by lia.
  pose proof (string_scan_bounds (skipn (Z.to_nat (pos + 1)) src) (pos + 1) (-1))
    as [_ Hb].
  specialize (Hb (rest_at_nonempty src (pos + 1) ltac:(lia) Hg)).
  destruct (string_scan (skipn (Z.to_nat (pos + 1)) src) (pos + 1) (-1)) as [sp ep].
  cbn [fst] in Hb. rewrite Z.gtb_ltb.
  destruct (Z.ltb_spec (len src) sp); cbn [fst]; [unfold ERR_EOF; lia | lia].
Qed.

Lemma pair_scan_bounds (lchar rchar : byte) :
  forall t sp nbrace inquote, 1 <= nbrace ->
    snd (pair_scan lchar rchar t sp nbrace inquote) = 0 ->
    sp < fst (pair_scan lchar rchar t sp nbrace inquote) <= sp + len t.
Proof.
  induction t as [t IH] using scan_ind. intros sp nb inq Hnb.
  destruct t as [|c t]; [cbn; lia|].
  cbn [pair_scan]. rewrite len_cons. pose proof (len_nonneg t) as Ht.
  assert (Hrec : forall nb' inq', 1 <= nb' ->
    snd (pair_scan lchar rchar t (sp + 1) nb' inq') = 0 ->
    sp < fst (pair_scan lchar rchar t (sp + 1) nb' inq') <= sp + (len t + 1)).
  { intros nb' inq' Hnb' Hz.
    pose proof (IH t ltac:(cbn; lia) (sp + 1) nb' inq' Hnb' Hz). lia. }
  destruct (c == bslash).
  { destruct t as [|c' t']; [cbn; lia|].
    intros Hz. rewrite len_cons in *. pose proof (len_nonneg t').
    pose proof (IH t' ltac:(cbn; lia) (sp + 2) nb inq Hnb Hz). lia. }
  destruct (c == dquote); [apply Hrec; exact Hnb|].
  destruct (Ascii.eqb c lchar).
  { destruct inq; cbn [negb]; apply Hrec; lia. }
  destruct (Ascii.eqb c rchar); [|apply Hrec; exact Hnb].
  destruct inq; cbn [negb]; [apply Hrec; exact Hnb|].
  destruct (nb - 1 =? 0) eqn:E.
  - cbn. intros _. lia.
  - apply Z.eqb_neq in E. apply Hrec. lia.
Qed.

Lemma skipPair_bounds (src : list byte) (pos : Z) (lchar rchar : byte) :
  0 <= pos -> 0 <= skipPair src pos lchar rchar ->
  pos + 2 <= skipPair src pos lchar rchar <= len src.
Proof.
  intros H0. unfold skipPair.
  destruct (pos + 1 >=? len src) eqn:Hg; [unfold ERR_EOF; lia|].
  rewrite Z.geb_leb in Hg. apply Z.leb_gt in Hg.
  destruct (Ascii.eqb (byte_at src pos) lchar); cbn [negb];
    [|unfold ERR_INVALID_CHAR; lia].
  pose proof (rest_at_here src (pos + 1) ltac:(lia)) as Hr.
  rewrite (skipPair_loop_scan _ src lchar rchar (pos + 1) 1 false _ Hr) by lia.
  pose proof (pair_scan_bounds lchar rchar (skipn (Z.to_nat (pos + 1)) src)
                (pos + 1) 1 false ltac:(lia)) as Hb.
  pose proof (rest_at_len _ _ _ Hr ltac:(lia)) as Hl.
  destruct (pair_scan lchar rchar (skipn (Z.to_nat (pos + 1)) src) (pos + 1) 1 false)
    as [sp nbrace].
  cbn [fst snd] in Hb.
  destruct (nbrace =? 0) eqn:E; cbn [negb]; [|unfold ERR_INVALID_CHAR; lia].
  apply Z.eqb_eq in E. specialize (Hb E). lia.
Qed.

Lemma number_scan_bounds :
  forall t prev ss sp pointer exponent lastIsDigit nextNeedDigit sp' nnd',
    number_scan t prev ss sp pointer exponent lastIsDigit nextNeedDigit
    = inr (sp', nnd') ->
    sp <= sp' <= sp + len t
    /\ (nextNeedDigit = true -> nnd' = false -> sp < sp').
Proof.
  induction t as [|c t IH]; intros prev ss sp ptr ex lid nnd sp' nnd' H.
  - cbn in H. inversion H; subst. rewrite len_nil.
    split; [lia | intros -> E; discriminate E].
  - rewrite len_cons. pose proof (len_nonneg t) as Ht.
    assert (Hrec : forall prev0 ptr0 ex0 lid0 nnd0,
      number_scan t prev0 ss (sp + 1) ptr0 ex0 lid0 nnd0 = inr (sp', nnd') ->
      sp <= sp' <= sp + (len t + 1) /\ (nnd = true -> nnd' = false -> sp < sp')).
    { intros prev0 ptr0 ex0 lid0 nnd0 E.
      destruct (IH _ _ _ _ _ _ _ _ _ E) as [Hb _]. split; intros; lia. }
    cbn [number_scan] in H.
    destruct (isDigit c); [apply Hrec in H; exact H|].
    destruct nnd; [discriminate H|].
    destruct (c == ".").
    { destruct (negb lid || ptr || (sp =? ss)); [discriminate H|].
      apply Hrec in H; exact H. }
    destruct ((c == "e") || (c == "E")).
    { destruct (negb lid || ex); [discriminate H|].
      destruct t as [|c' t']; [discriminate H|]. apply Hrec in H; exact H. }
    destruct ((c == "-") || (c == "+")).
    { destruct (negb (prev == "e") && negb (prev == "E")); [discriminate H|].
      apply Hrec in H; exact H. }
    inversion H; subst. split; [lia | intros E; discriminate E].
Qed.

(** An early return of the loop of [skipNumber] carries one of the two
    error codes. *)
Lemma skipNumber_loop_codes :
  forall t prev ss sp pointer exponent lastIsDigit nextNeedDigit code,
    number_scan t prev ss sp pointer exponent lastIsDigit nextNeedDigit = inl code ->
    code = - ERR_EOF \/ code = - ERR_INVALID_CHAR.
Proof.
  induction t as [|c t IH]; intros prev ss sp ptr ex lid nnd code H;
    [discriminate H|].
  cbn [number_scan] in H.
  destruct (isDigit c); [apply IH in H; exact H|].
  destruct nnd; [inversion H; right; reflexivity|].
  destruct (c == ".").
  { destruct (negb lid || ptr || (sp =? ss)); [inversion H; right; reflexivity|].
    apply IH in H; exact H. }
  destruct ((c == "e") || (c == "E")).
  { destruct (negb lid || ex); [inversion H; right; reflexivity|].
    destruct t as [|c' t']; [inversion H; left; reflexivity|].
    apply IH in H; exact H. }
  destruct ((c == "-") || (c == "+")); [|discriminate H].
  destruct (negb (prev == "e") && negb (prev == "E"));
    [inversion H; right; reflexivity|].
  apply IH in H; exact H.
Qed.

Lemma skipNumber_bounds (src : list byte) (pos : Z) :
  0 <= pos -> 0 <= skipNumber src pos ->
  pos < skipNumber src pos <= len src.
Proof.
  intros H0. unfold skipNumber.
  destruct (pos >=? len src) eqn:Hg; [unfold ERR_EOF; lia|].
  rewrite Z.geb_leb in Hg. apply Z.leb_gt in Hg.
  set (sp0 := if byte_at src pos == "-" then pos + 1 else pos).
  assert (Hsp0 : pos <= sp0 <= len src).
  { unfold sp0. destruct (byte_at src pos == "-"); lia. }
  pose proof (rest_at_here src sp0 ltac:(lia)) as Hr.
  rewrite (skipNumber_loop_scan _ src sp0 sp0 false false false true _ Hr) by lia.
  pose proof (rest_at_len _ _ _ Hr ltac:(lia)) as Hl.
  destruct (number_scan (skipn (Z.to_nat sp0) src) (byte_at src (sp0 - 1)) sp0 sp0
              false false false true) as [code|[sp' nnd']] eqn:E.
  - destruct (skipNumber_loop_codes _ _ _ _ _ _ _ _ _ E) as [-> | ->];
      unfold ERR_EOF, ERR_INVALID_CHAR; lia.
  - destruct (number_scan_bounds _ _ _ _ _ _ _ _ _ _ E) as [Hb Hs].
    destruct nnd'; [unfold ERR_EOF; lia|].
    specialize (Hs eq_refl eq_refl). lia.
Qed.

Lemma bytes_eqb_eq (a b : list byte) : bytes_eqb a b = true <-> a = b.
Proof.
  unfold bytes_eqb. destruct (list_eq_dec ascii_dec a b) as [E|N]; split; intros H.
  - exact E.
  - reflexivity.
  - discriminate H.
  - contradiction (N H).
Qed.

(** The window test of the literal decoders succeeds exactly when the
    literal sits at [pos]. *)
Lemma literal_window (src : list byte) (pos : Z) (lit : list byte) :
  0 <= pos -> lit <> [] ->
  ((pos + len lit >? len src) = false
   /\ bytes_eqb (slice src pos (pos + len lit)) lit = true)
  <-> exists rest, rest_at src pos (lit ++ rest).
Proof.
  intros H0 Hne. split.
  - intros [_ Heq]. apply bytes_eqb_eq in Heq. unfold slice in Heq.
    exists (skipn (Z.to_nat (pos + len lit - pos)) (skipn (Z.to_nat pos) src)).
    split; [exact H0|]. rewrite <- Heq at 1. symmetry. apply firstn_skipn.
  - intros [rest H]. exact (decode_literal src pos lit rest H Hne).
Qed.

Lemma literal_decoder (lit : list byte) (src : list byte) (pos : Z) (r : Z) :
  0 <= pos -> lit <> [] ->
  r = (if pos + len lit >? len src then - ERR_EOF
       else if bytes_eqb (slice src pos (pos + len lit)) lit then pos + len lit
       else - ERR_INVALID_CHAR) ->
  (r = pos + len lit <-> exists rest, rest_at src pos (lit ++ rest))
  /\ (r = - ERR_EOF <-> len src < pos + len lit)
  /\ (r = pos + len lit \/ r = - ERR_EOF \/ r = - ERR_INVALID_CHAR).
Proof.
  intros H0 Hne ->. pose proof (literal_window src pos lit H0 Hne) as Hw.
  pose proof (len_nonneg lit) as Hl.
  rewrite Z.gtb_ltb in *.
  destruct (Z.ltb_spec (len src) (pos + len lit)) as [Hlt|Hge].
  - split; [|split].
    + split; [intros E; unfold ERR_EOF in E; lia|].
      intros [rest H]. exfalso. destruct Hw as [_ Hw].
      destruct (Hw (ex_intro _ rest H)) as [Hf _]. discriminate Hf.
    + split; intros; [exact Hlt | reflexivity].
    + right; left; reflexivity.
  - destruct (bytes_eqb (slice src pos (pos + len lit)) lit) eqn:E.
    + split; [|split].
      * split; [|reflexivity]. intros _. apply Hw.
        split; first [reflexivity | exact E | apply Z.ltb_ge; lia].
      * split; intros H; [unfold ERR_EOF in H; lia | lia].
      * left; reflexivity.
    + split; [|split].
      * split; [intros H; unfold ERR_INVALID_CHAR in H; lia|].
        intros [rest H]. destruct Hw as [_ Hw].
        destruct (Hw (ex_intro _ rest H)) as [_ Hf].
        first [discriminate Hf | rewrite E in Hf; discriminate Hf].
      * split; intros H; [unfold ERR_INVALID_CHAR, ERR_EOF in H; lia | lia].
      * right; right; reflexivity.
Qed.

(** X10.  At an offset [pos] within the buffer (the end included), each
    literal decoder returns [pos] plus the length of its literal exactly
    when the literal sits at [pos], the EOF code exactly when fewer bytes
    than the literal has are left from [pos] on, and the invalid-character
    code in every other case.  Beyond the buffer the sum [pos + 4] of the
    source may wrap around, and nothing is stated there. *)
Theorem literal_decoders_exact :
  forall src pos, 0 <= pos <= len src ->
    ((decodeNull src pos = pos + 4 <-> exists rest, rest_at src pos (bytes "null" ++ rest))
     /\ (decodeNull src pos = - ERR_EOF <-> len src < pos + 4)
     /\ (decodeNull src pos = pos + 4 \/ decodeNull src pos = - ERR_EOF
         \/ decodeNull src pos = - ERR_INVALID_CHAR))
    /\ ((decodeTrue src pos = pos + 4 <-> exists rest, rest_at src pos (bytes "true" ++ rest))
        /\ (decodeTrue src pos = - ERR_EOF <-> len src < pos + 4)
        /\ (decodeTrue src pos = pos + 4 \/ decodeTrue src pos = - ERR_EOF
            \/ decodeTrue src pos = - ERR_INVALID_CHAR))
    /\ ((decodeFalse src pos = pos + 5 <-> exists rest, rest_at src pos (bytes "false" ++ rest))
        /\ (decodeFalse src pos = - ERR_EOF <-> len src < pos + 5)
        /\ (decodeFalse src pos = pos + 5 \/ decodeFalse src pos = - ERR_EOF
            \/ decodeFalse src pos = - ERR_INVALID_CHAR)).
Proof.
  intros src pos [H0 _]. split; [|split].
  - apply (literal_decoder (bytes "null") src pos _ H0 ltac:(discriminate)).
    reflexivity.
  - apply (literal_decoder (bytes "true") src pos _ H0 ltac:(discriminate)).
    reflexivity.
  - apply (literal_decoder (bytes "false") src pos _ H0 ltac:(discriminate)).
    reflexivity.
Qed.

Lemma literal_decoders_exact_witness :
  decodeNull (bytes "[null]") 1 = 1 + 4
  /\ decodeTrue (bytes "[tru") 1 = - ERR_EOF
  /\ (decodeFalse (bytes "[fals3]") 1 = 1 + 5 \/ decodeFalse (bytes "[fals3]") 1 = - ERR_EOF
      \/ decodeFalse (bytes "[fals3]") 1 = - ERR_INVALID_CHAR).
Proof.
  split; [|split].
  - apply (literal_decoders_exact (bytes "[null]") 1
             ltac:(split; [lia | vm_compute; discriminate])).
    exists (bytes "]"). split; [lia | reflexivity].
  - apply (literal_decoders_exact (bytes "[tru") 1
             ltac:(split; [lia | vm_compute; discriminate])). reflexivity.
  - apply (literal_decoders_exact (bytes "[fals3]") 1
             ltac:(split; [lia | vm_compute; discriminate])).
Defined.

Lemma decode_literal_bounds (src : list byte) (pos : Z) :
  0 <= pos ->
  (0 <= decodeNull src pos -> pos < decodeNull src pos <= len src)
  /\ (0 <= decodeTrue src pos -> pos < decodeTrue src pos <= len src)
  /\ (0 <= decodeFalse src pos -> pos < decodeFalse src pos <= len src).
Proof.
  intros H0. unfold decodeNull, decodeTrue, decodeFalse. cbv zeta.
  rewrite !Z.gtb_ltb.
  repeat split;
    match goal with
    | |- context [Z.ltb ?a ?b] => destruct (Z.ltb_spec a b)
    end;
    match goal with
    | |- context [bytes_eqb ?a ?b] => destruct (bytes_eqb a b)
    | _ => idtac
    end; unfold ERR_EOF, ERR_INVALID_CHAR in *; lia.
Qed.

(** X4.  Whatever [SkipValue] skips lies within the buffer: the start it
    reports is the post-blank offset, and an end that is not negative is
    beyond the start and at most the length of the buffer, so the slice of
    the skipped value can always be taken. *)
Theorem SkipValue_within_buffer :
  forall src pos p,
    SkipBlank src pos = p -> 0 <= p ->
    snd (SkipValue src pos) = p
    /\ (0 <= fst (SkipValue src pos) ->
        p < fst (SkipValue src pos) <= len src).
Proof.
  intros src pos p Hp H0. unfold SkipValue. rewrite Hp.
  replace (p <? 0) with false by (symmetry; apply Z.ltb_ge; exact H0).
  cbn [fst snd]. split; [reflexivity|].
  destruct (decode_literal_bounds src p H0) as (HN & HT & HF).
  pose proof (skipString_bounds src p H0) as HS.
  pose proof (skipPair_bounds src p "{"%char "}"%char H0) as HO.
  pose proof (skipPair_bounds src p "["%char "]"%char H0) as HA.
  pose proof (skipNumber_bounds src p H0) as HD.
  destruct (byte_at src p == "n"); [exact HN|].
  destruct (byte_at src p == dquote); [intros H; specialize (HS H); lia|].
  destruct (byte_at src p == "{"); [intros H; specialize (HO H); lia|].
  destruct (byte_at src p == "["); [intros H; specialize (HA H); lia|].
  destruct (byte_at src p == "t"); [exact HT|].
  destruct (byte_at src p == "f"); [exact HF|].
  destruct ((byte_at src p == "-") || (byte_at src p == "+") || isDigit (byte_at src p));
    [exact HD|].
  unfold ERR_INVALID_CHAR. lia.
Qed.

Lemma SkipValue_within_buffer_witness :
  snd (SkipValue (bytes " [1,2] ") 0) = 1
  /\ 1 < fst (SkipValue (bytes " [1,2] ") 0) <= len (bytes " [1,2] ").
Proof.
  destruct (SkipValue_within_buffer (bytes " [1,2] ") 0 1 eq_refl ltac:(lia))
    as [H1 H2].
  split; [exact H1 | apply H2; vm_compute; discriminate].
Defined.

(** ** Escape offsets and string decoding *)

Lemma first_escape_cases (body : list byte) :
  forall sp, 0 <= sp ->
    (first_escape body sp = -1
     /\ Forall (fun c => (c == bslash) = false) body)
    \/ (exists a b, body = a ++ bslash :: b
          /\ Forall (fun c => (c == bslash) = false) a
          /\ first_escape body sp = sp + len a).
Proof.
  induction body as [|c body IH]; intros sp H0.
  - left. split; [reflexivity | constructor].
  - cbn [first_escape]. destruct (c == bslash) eqn:E.
    + right. exists [], body. apply Ascii.eqb_eq in E. subst c.
      rewrite len_nil. repeat split; [constructor | lia].
    + destruct (IH (sp + 1) ltac:(lia)) as [[H1 H2] | (a & b & -> & Ha & H)].
      * left. split; [exact H1 | constructor; assumption].
      * right. exists (c :: a), b. rewrite len_cons.
        repeat split; [constructor; assumption | lia].
Qed.

Lemma string_scan_first_escape (body : list byte) :
  string_body body ->
  forall rest sp ep, 0 <= sp ->
    string_scan (body ++ dquote :: rest) sp ep
    = (sp + len body + 1, if ep =? -1 then first_escape body sp else ep).
Proof.
  assert (Hkeep : forall sp ep, 0 <= sp ->
    ((if ep =? -1 then sp else ep) =? -1) = false).
  { intros sp ep H0. destruct (Z.eqb_spec ep (-1)); apply Z.eqb_neq; lia. }
  induction 1 as [|c s Hc Hs IH|e s He Hs IH|h1 h2 h3 h4 s H1 H2 H3 H4 Hs IH];
    intros rest sp ep H0.
  - cbn [app string_scan first_escape]. cbn [Ascii.eqb Bool.eqb dquote bslash andb].
    rewrite len_nil, Z.add_0_r. f_equal.
    destruct (Z.eqb_spec ep (-1)); congruence.
  - destruct (plain_not_special c Hc) as [Hq Hb].
    cbn [app first_escape]. rewrite Hb.
    rewrite string_scan_step, IH, len_cons by (assumption || lia).
    f_equal. lia.
  - cbn [app first_escape]. cbn [Ascii.eqb Bool.eqb bslash andb].
    rewrite string_scan_escape, IH, Hkeep by lia. len_simpl. f_equal. lia.
  - destruct (hex_not_special h1 H1) as [Q1 B1].
    destruct (hex_not_special h2 H2) as [Q2 B2].
    destruct (hex_not_special h3 H3) as [Q3 B3].
    destruct (hex_not_special h4 H4) as [Q4 B4].
    cbn [app first_escape]. cbn [Ascii.eqb Bool.eqb bslash andb].
    rewrite string_scan_escape.
    rewrite !string_scan_step, IH, Hkeep by (assumption || lia).
    len_simpl. f_equal. lia.
Qed.

Lemma skipString_first_escape (src : list byte) (p : Z) (body rest : list byte) :
  rest_at src p (dquote :: body ++ dquote :: rest) -> string_body body ->
  skipString src p = (p + len body + 2, first_escape body (p + 1)).
Proof.
  intros H Hbody. pose proof H as [H0 _].
  pose proof H as Hlen. apply rest_at_len in Hlen.
  2:{ apply rest_at_cons in H. lia. }
  rewrite len_cons, len_app, len_cons in Hlen.
  pose proof (len_nonneg body) as Hb0. pose proof (len_nonneg rest) as Hr0.
  apply rest_at_cons in H as (Hb & _ & H).
  unfold skipString.
  replace (p + 1 >=? len src) with false
    by (symmetry; rewrite Z.geb_leb; apply Z.leb_gt; lia).
  rewrite Hb. cbn [Ascii.eqb Bool.eqb dquote negb andb].
  rewrite (skipString_loop_scan _ src (p + 1) (-1) _ H) by lia.
  rewrite (string_scan_first_escape body Hbody rest (p + 1) (-1)) by lia.
  replace (p + 1 + len body + 1 >? len src) with false
    by (symmetry; rewrite Z.gtb_ltb; apply Z.ltb_ge; lia).
  cbn [Z.eqb]. f_equal. lia.
Qed.

(** X5.  For a well-formed JSON string at the post-blank offset [p],
    [skipString] returns the offset just past the closing quote and, as
    escape offset, -1 when the content holds no backslash and the offset of
    its first backslash otherwise; [DecodeValue] reports the string with
    the content start [p + 1] and that escape offset. *)
Theorem string_escape_offset (ParseFloat : list byte -> float * option NumError) :
  forall src pos p body rest,
    SkipBlank src pos = p ->
    rest_at src p (dquote :: body ++ dquote :: rest) -> string_body body ->
    skipString src p = (p + len body + 2, first_escape body (p + 1))
    /\ DecodeValue ParseFloat src pos
       = (p + len body + 2,
          mkJsonState V_STRING PrimFloat.zero (p + 1) (first_escape body (p + 1)))
    /\ ((first_escape body (p + 1) = -1
         /\ Forall (fun c => (c == bslash) = false) body)
        \/ (exists a b, body = a ++ bslash :: b
              /\ Forall (fun c => (c == bslash) = false) a
              /\ first_escape body (p + 1) = p + 1 + len a)).
Proof.
  intros src pos p body rest Hp H Hbody. pose proof H as [H0 _].
  pose proof (skipString_first_escape src p body rest H Hbody) as Hs.
  split; [exact Hs|]. split; [|apply first_escape_cases; lia].
  unfold DecodeValue. rewrite Hp.
  replace (p <? 0) with false by (symmetry; apply Z.ltb_ge; exact H0).
  apply rest_at_cons in H as (Hb & _ & _). rewrite Hb.
  cbn [Ascii.eqb Bool.eqb dquote andb]. rewrite Hs.
  pose proof (len_nonneg body).
  replace (p + len body + 2 <? 0) with false by (symmetry; apply Z.ltb_ge; lia).
  reflexivity.
Qed.

Lemma string_escape_offset_witness :
  skipString (bytes " " ++ dquote :: bytes "ab\nc" ++ dquote :: bytes ",") 1 = (8, 4)
  /\ DecodeValue ParseFloat_exact (bytes " " ++ dquote :: bytes "ab\nc" ++ dquote :: bytes ",") 0
     = (8, mkJsonState V_STRING PrimFloat.zero 2 4).
Proof.
  destruct (string_escape_offset ParseFloat_exact
              (bytes " " ++ dquote :: bytes "ab\nc" ++ dquote :: bytes ",") 0 1
              (bytes "ab\nc") (bytes ",")) as (H1 & H2 & _).
  - reflexivity.
  - split; [lia | reflexivity].
  - apply SB_plain; [reflexivity|]. apply SB_plain; [reflexivity|].
    apply SB_escape; [reflexivity|]. apply SB_plain; [reflexivity | constructor].
  - split; [exact H1 | exact H2].
Defined.

Lemma string_scan_plain_closed (body : list byte) :
  Forall (fun c => (c == dquote) = false /\ (c == bslash) = false) body ->
  forall rest sp ep,
    string_scan (body ++ dquote :: rest) sp ep = (sp + len body + 1, ep).
Proof.
  induction 1 as [|c body [Hq Hb] Hbody IH]; intros rest sp ep.
  - rewrite len_nil, Z.add_0_r. reflexivity.
  - cbn [app]. rewrite string_scan_step, IH, len_cons by assumption.
    f_equal. lia.
Qed.

Lemma skipString_plain (src : list byte) (p : Z) (body rest : list byte) :
  rest_at src p (dquote :: body ++ dquote :: rest) ->
  Forall (fun c => (c == dquote) = false /\ (c == bslash) = false) body ->
  skipString src p = (p + len body + 2, -1).
Proof.
  intros H Hbody. pose proof H as [H0 _].
  pose proof H as Hlen. apply rest_at_len in Hlen.
  2:{ apply rest_at_cons in H. lia. }
  rewrite len_cons, len_app, len_cons in Hlen.
  pose proof (len_nonneg body) as Hb0. pose proof (len_nonneg rest) as Hr0.
  apply rest_at_cons in H as (Hb & _ & H).
  unfold skipString.
  replace (p + 1 >=? len src) with false
    by (symmetry; rewrite Z.geb_leb; apply Z.leb_gt; lia).
  rewrite Hb. cbn [Ascii.eqb Bool.eqb dquote negb andb].
  rewrite (skipString_loop_scan _ src (p + 1) (-1) _ H) by lia.
  rewrite (string_scan_plain_closed body Hbody rest (p + 1) (-1)).
  replace (p + 1 + len body + 1 >? len src) with false
    by (symmetry; rewrite Z.gtb_ltb; apply Z.ltb_ge; lia).
  f_equal. lia.
Qed.

Section StringDecodeProperties.

Variable unquoteBytes : list byte -> option (list byte).
Variable base64Decode : list byte -> option (list byte).

Lemma decodeString_plain (src : list byte) (p : Z) (body rest : list byte) :
  rest_at src p (dquote :: body ++ dquote :: rest) ->
  Forall (fun c => (c == dquote) = false /\ (c == bslash) = false) body ->
  decodeString unquoteBytes src p = (p + len body + 2, body).
Proof.
  intros H Hbody. pose proof H as [H0 _]. pose proof (len_nonneg body) as Hl.
  unfold decodeString. rewrite (skipString_plain src p body rest H Hbody).
  replace (p + len body + 2 <? 0) with false by (symmetry; apply Z.ltb_ge; lia).
  rewrite Z.eqb_refl. f_equal.
  apply rest_at_cons in H as (_ & _ & H).
  replace (p + 1 + (p + len body + 2 - p - 2)) with (p + 1 + len body) by lia.
  apply (slice_rest_at src (p + 1) body (dquote :: rest) H).
Qed.

(** X6.  [decodeString] returns the content of a quoted string that holds
    no backslash as it stands, with the offset just past the closing quote;
    for a well-formed string with an escape it returns what the unquoting
    routine makes of the whole quoted span, or the invalid-character code
    when that routine fails. *)
Theorem decodeString_content :
  forall src p body rest,
    rest_at src p (dquote :: body ++ dquote :: rest) ->
    (Forall (fun c => (c == dquote) = false /\ (c == bslash) = false) body ->
     decodeString unquoteBytes src p = (p + len body + 2, body))
    /\ (string_body body -> (first_escape body (p + 1) =? -1) = false ->
        decodeString unquoteBytes src p
        = match unquoteBytes (dquote :: body ++ [dquote]) with
          | Some vv => (p + len body + 2, vv)
          | None => (- ERR_INVALID_CHAR, [])
          end).
Proof.
  intros src p body rest H. split.
  - intros Hbody. exact (decodeString_plain src p body rest H Hbody).
  - intros Hbody Hesc. pose proof H as [H0 _]. pose proof (len_nonneg body) as Hl.
    unfold decodeString. rewrite (skipString_first_escape src p body rest H Hbody).
    replace (p + len body + 2 <? 0) with false by (symmetry; apply Z.ltb_ge; lia).
    rewrite Hesc.
    replace (slice src p (p + len body + 2)) with (dquote :: body ++ [dquote]);
      [reflexivity|].
    symmetry.
    replace (p + len body + 2) with (p + len (dquote :: body ++ [dquote]))
      by (len_simpl; lia).
    apply (slice_rest_at src p _ rest).
    rewrite <- app_comm_cons, <- app_assoc. exact H.
Qed.

Lemma skipString_negative_codes (src : list byte) (pos : Z) :
  0 <= pos -> fst (skipString src pos) < 0 ->
  fst (skipString src pos) = - ERR_EOF \/ fst (skipString src pos) = - ERR_INVALID_CHAR.
Proof.
  intros H0. unfold skipString.
  destruct (pos + 1 >=? len src); [left; reflexivity|].
  destruct (byte_at src pos == dquote); cbn [negb]; [|right; reflexivity].
  pose proof (string_scan_bounds (skipn (Z.to_nat (pos + 1)) src) (pos + 1) (-1))
    as [Hb _].
  rewrite (skipString_loop_scan _ src (pos + 1) (-1) _
             (rest_at_here src (pos + 1) ltac:(lia))) by lia.
  destruct (string_scan (skipn (Z.to_nat (pos + 1)) src) (pos + 1) (-1)) as [sp ep].
  cbn [fst] in Hb.
  destruct (sp >? len src); cbn [fst]; [left; reflexivity | lia].
Qed.

(** X7.  [decodeBinary] returns bytes exactly when the offset it returns is
    not negative, and that offset is then the one [decodeString] returns;
    on a quoted string without backslash it returns the base64 decoding of
    the content with the offset just past the closing quote, or the
    invalid-character code and no bytes when the content is not base64. *)
Theorem decodeBinary_content :
  (forall src pos,
     (0 <= fst (decodeBinary unquoteBytes base64Decode src pos)
      <-> exists v, snd (decodeBinary unquoteBytes base64Decode src pos) = Some v)
     /\ (0 <= fst (decodeBinary unquoteBytes base64Decode src pos) ->
         fst (decodeBinary unquoteBytes base64Decode src pos)
         = fst (decodeString unquoteBytes src pos)))
  /\ (forall src p body rest,
        rest_at src p (dquote :: body ++ dquote :: rest) ->
        Forall (fun c => (c == dquote) = false /\ (c == bslash) = false) body ->
        decodeBinary unquoteBytes base64Decode src p
        = match base64Decode body with
          | Some v => (p + len body + 2, Some v)
          | None => (- ERR_INVALID_CHAR, None)
          end).
Proof.
  split.
  - intros src pos. unfold decodeBinary.
    destruct (decodeString unquoteBytes src pos) as [ret vv]. cbn [fst].
    destruct (Z.ltb_spec ret 0) as [Hneg|Hpos].
    + cbn [fst snd]. split; [split|]; try lia. intros [v Hv]. discriminate Hv.
    + destruct (base64Decode vv) as [v|]; cbn [fst snd].
      * split; [split|]; try reflexivity; try (intros; exact Hpos).
        intros _. exists v. reflexivity.
      * unfold ERR_INVALID_CHAR. split; [split|]; try lia.
        intros [v Hv]. discriminate Hv.
  - intros src p body rest H Hbody. unfold decodeBinary.
    rewrite (decodeString_plain src p body rest H Hbody).
    destruct H as [H0 _]. pose proof (len_nonneg body).
    replace (p + len body + 2 <? 0) with false by (symmetry; apply Z.ltb_ge; lia).
    reflexivity.
Qed.

End StringDecodeProperties.

Lemma decodeString_content_witness :
  decodeString (fun _ => None) (bytes "[" ++ dquote :: bytes "abc" ++ dquote :: bytes "]") 1
  = (6, bytes "abc").
Proof.
  apply (decodeString_content (fun _ => None) _ 1 (bytes "abc") (bytes "]")).
  - split; [lia | reflexivity].
  - repeat constructor.
Defined.

Lemma decodeBinary_content_witness :
  decodeBinary (fun _ => None) (fun b => if bytes_eqb b (bytes "aGk=") then Some (bytes "hi") else None)
    (dquote :: bytes "aGk=" ++ [dquote]) 0
  = (6, Some (bytes "hi")).
Proof.
  apply (proj2 (decodeBinary_content (fun _ => None)
                  (fun b => if bytes_eqb b (bytes "aGk=") then Some (bytes "hi") else None))
           _ 0 (bytes "aGk=") []).
  - split; [lia | reflexivity].
  - repeat constructor.
Defined.

(** ** What [decodeInt64] accepts *)

Lemma digit_run_inv_max (n : nat) :
  forall src sp, 0 <= sp -> len src - sp <= Z.of_nat n ->
    exists ds, digits ds
      /\ digit_run n src sp (len src) = sp + len ds
      /\ rest_at src sp (ds ++ skipn (Z.to_nat (sp + len ds)) src)
      /\ next_byte (fun c => negb (isDigit c)) (skipn (Z.to_nat (sp + len ds)) src).
Proof.
  induction n as [|n IH]; intros src sp H0 Hn.
  - exists []. rewrite len_nil, Z.add_0_r.
    repeat split; [constructor | exact H0 |].
    rewrite skipn_all2 by (unfold len in Hn; lia). exact I.
  - cbn [digit_run]. destruct (sp <? len src) eqn:Hlt.
    + apply Z.ltb_lt in Hlt. destruct (isDigit (byte_at src sp)) eqn:Hd; cbn [negb].
      * destruct (IH src (sp + 1) ltac:(lia) ltac:(lia))
          as (ds & Hds & Hrun & Hrest & Hmax).
        exists (byte_at src sp :: ds). rewrite len_cons.
        replace (sp + (len ds + 1)) with (sp + 1 + len ds) by lia.
        repeat split; [constructor; assumption | exact Hrun | exact H0 | | exact Hmax].
        cbn [app]. destruct Hrest as [_ Hrest]. rewrite <- Hrest.
        apply (rest_at_uncons src sp H0 Hlt).
      * exists []. rewrite len_nil, Z.add_0_r.
        repeat split; [constructor | exact H0 |].
        destruct (rest_at_uncons src sp H0 Hlt) as [_ ->]. cbn. rewrite Hd. reflexivity.
    + apply Z.ltb_ge in Hlt. exists []. rewrite len_nil, Z.add_0_r.
      repeat split; [constructor | exact H0 |].
      rewrite skipn_all2 by (unfold len in Hlt; lia). exact I.
Qed.

Lemma ParseInt_sign_only (sign : list byte) :
  sign = [] \/ sign = ["-"%char] -> ParseInt sign = (0, Some ErrSyntax).
Proof. intros [-> | ->]; reflexivity. Qed.

Lemma decodeInt64_accepts (src : list byte) (pos : Z) :
  0 <= pos -> 0 <= fst (fst (decodeInt64 src pos)) ->
  exists pre sign ds rest,
    src = pre ++ sign ++ ds ++ rest /\ len pre = pos
    /\ (sign = [] \/ sign = ["-"%char]) /\ digits ds /\ ds <> []
    /\ next_byte (fun c => negb (isDigit c) && negb (isFloatMarker c)) rest.
Proof.
  intros H0 H. unfold decodeInt64 in H.
  destruct (pos >=? len src) eqn:Hpos; [cbn in H; lia|].
  rewrite Z.geb_leb in Hpos. apply Z.leb_gt in Hpos.
  set (m := byte_at src pos == "-") in H.
  set (sp0 := if m then pos + 1 else pos) in H.
  assert (Hsp0 : 0 <= sp0 <= len src) by (unfold sp0; destruct m; lia).
  destruct (sp0 >=? len src) eqn:Hsp0'; [cbn in H; lia|].
  destruct (digit_run_inv_max (Z.to_nat (len src - sp0)) src sp0 ltac:(lia) ltac:(lia))
    as (ds & Hds & Hrun & Hrest & Hmax).
  rewrite Hrun in H. pose proof (len_nonneg ds) as Hlen.
  set (r := sp0 + len ds) in *.
  set (rest := skipn (Z.to_nat r) src) in *.
  set (sign := if m then ["-"%char] else []).
  assert (Hsign : sign = [] \/ sign = ["-"%char]).
  { unfold sign. destruct m; [right | left]; reflexivity. }
  destruct (firstn_skipn_at src pos H0 ltac:(lia)) as [Hsrc Hpre].
  assert (Hat : skipn (Z.to_nat pos) src = sign ++ ds ++ rest).
  { destruct Hrest as [_ Hrest]. unfold sign, sp0 in *. destruct m eqn:Hm.
    - unfold m in Hm. apply Ascii.eqb_eq in Hm.
      destruct (rest_at_uncons src pos H0 Hpos) as [_ Hu].
      rewrite Hm, Hrest in Hu. exact Hu.
    - exact Hrest. }
  assert (Hslice : slice src pos r = sign ++ ds).
  { replace r with (pos + len (sign ++ ds)).
    - apply (slice_rest_at src pos (sign ++ ds) rest).
      split; [exact H0 | rewrite Hat; apply app_assoc].
    - rewrite len_app. unfold r, sp0, sign. destruct m; len_simpl; lia. }
  fold (isFloatMarker (byte_at src r)) in H.
  destruct ((r <? len src) && isFloatMarker (byte_at src r)) eqn:Hcond;
    [cbn in H; lia|].
  rewrite Hslice in H.
  exists (firstn (Z.to_nat pos) src), sign, ds, rest.
  repeat split; try assumption.
  - rewrite Hsrc at 1. rewrite Hat. reflexivity.
  - intros ->. rewrite app_nil_r, (ParseInt_sign_only sign Hsign) in H.
    cbn in H. lia.
  - destruct rest as [|c rest'] eqn:Erest; [exact I|]. cbn [next_byte] in *.
    rewrite Hmax. cbn [andb].
    assert (Hr : rest_at src r (c :: rest')).
    { split; [unfold r; lia | exact Erest]. }
    apply rest_at_cons in Hr as (Hb & Hlt & _).
    replace (r <? len src) with true in Hcond by (symmetry; apply Z.ltb_lt; exact Hlt).
    rewrite Hb in Hcond. cbn [andb] in Hcond. rewrite Hcond. reflexivity.
Qed.

(** X8.  [decodeInt64] returns an offset that is not negative exactly on an
    optional minus sign followed by at least one digit and not followed by
    a dot or an exponent marker; the offset is then the end of the digit
    run.  Whatever else is at [pos] gets a negative code. *)
Theorem decodeInt64_accepts_exactly :
  (forall pre sign ds rest,
     sign = [] \/ sign = ["-"%char] -> digits ds -> ds <> [] ->
     next_byte (fun c => negb (isDigit c) && negb (isFloatMarker c)) rest ->
     fst (fst (decodeInt64 (pre ++ sign ++ ds ++ rest) (len pre)))
     = len pre + len sign + len ds)
  /\ (forall src pos,
        0 <= pos -> 0 <= fst (fst (decodeInt64 src pos)) ->
        exists pre sign ds rest,
          src = pre ++ sign ++ ds ++ rest /\ len pre = pos
          /\ (sign = [] \/ sign = ["-"%char]) /\ digits ds /\ ds <> []
          /\ next_byte (fun c => negb (isDigit c) && negb (isFloatMarker c)) rest).
Proof.
  split; [|exact decodeInt64_accepts].
  intros pre sign ds rest Hsign Hds Hne Hnext.
  rewrite decodeInt64_span by assumption.
  rewrite ParseInt_signed_digits by assumption.
  destruct ((- 2 ^ 63 <=? signed_val sign ds) && (signed_val sign ds <=? 2 ^ 63 - 1));
    reflexivity.
Qed.

Lemma decodeInt64_accepts_exactly_witness :
  fst (fst (decodeInt64 (bytes "[-17,") 1)) = 1 + 1 + 2
  /\ exists pre sign ds rest,
       bytes "[-17," = pre ++ sign ++ ds ++ rest /\ len pre = 1
       /\ (sign = [] \/ sign = ["-"%char]) /\ digits ds /\ ds <> []
       /\ next_byte (fun c => negb (isDigit c) && negb (isFloatMarker c)) rest.
Proof.
  destruct decodeInt64_accepts_exactly as [H1 H2]. split.
  - apply (H1 (bytes "[") ["-"%char] (bytes "17") (bytes ","));
      [right; reflexivity | repeat constructor | discriminate | reflexivity].
  - apply (H2 (bytes "[-17,") 1); [lia | vm_compute; discriminate].
Defined.

(** ** The span [decodeFloat64] parses *)

Lemma number_chars_run_spec (n : nat) :
  forall src sp run rest,
    rest_at src sp (run ++ rest) ->
    Forall (fun c => isNumberChars c = true) run ->
    next_byte (fun c => negb (isNumberChars c)) rest ->
    len src - sp <= Z.of_nat n ->
    number_chars_run n src sp (len src) = sp + len run.
Proof.
  induction n as [|n IH]; intros src sp run rest H Hrun Hrest Hn.
  - destruct run as [|d run]; [rewrite len_nil; cbn; lia|].
    exfalso. apply (rest_at_cons_absurd _ _ _ _ H). lia.
  - cbn [number_chars_run]. destruct Hrun as [|d run Hd Hrun].
    + rewrite len_nil, Z.add_0_r. cbn [app] in H.
      destruct rest as [|c rest].
      * apply rest_at_nil in H.
        replace (sp <? len src) with false by (symmetry; apply Z.ltb_ge; lia).
        reflexivity.
      * read_byte H. cbn in Hrest. rewrite Hrest. reflexivity.
    + cbn [app] in H. read_byte H. rewrite Hd. cbn [negb].
      rewrite (IH _ _ run rest H Hrun Hrest) by lia.
      rewrite len_cons. lia.
Qed.

Section FloatSpan.

Variable ParseFloat : list byte -> float * option NumError.

Lemma decodeFloat64_span (pre sign run rest : list byte) :
  sign = [] \/ sign = ["-"%char] ->
  (sign = [] -> next_byte (fun c => negb (c == "-")) run) ->
  Forall (fun c => isNumberChars c = true) run ->
  next_byte (fun c => negb (isNumberChars c)) rest ->
  run ++ rest <> [] ->
  decodeFloat64 ParseFloat (pre ++ sign ++ run ++ rest) (len pre)
  = float_result (ParseFloat (sign ++ run)) (len pre + len sign + len run).
Proof.
  intros Hsign Hfirst Hrun Hrest Hne.
  set (src := pre ++ sign ++ run ++ rest).
  pose proof (rest_at_app pre (sign ++ run ++ rest)) as H. fold src in H.
  assert (Hslice : slice src (len pre) (len pre + len sign + len run) = sign ++ run).
  { unfold src. replace (sign ++ run ++ rest) with ((sign ++ run) ++ rest)
      by (rewrite <- app_assoc; reflexivity).
    rewrite <- Z.add_assoc, <- len_app. apply slice_app. }
  assert (Hgo : forall sp, rest_at src sp (run ++ rest) ->
    sp < len src
    /\ number_chars_run (Z.to_nat (len src - sp)) src sp (len src) = sp + len run).
  { intros sp Hsp. split.
    - destruct (run ++ rest) as [|c t] eqn:E; [contradiction Hne; reflexivity|].
      apply rest_at_cons in Hsp. lia.
    - apply (number_chars_run_spec _ src sp run rest Hsp Hrun Hrest). lia. }
  unfold decodeFloat64.
  destruct Hsign as [-> | ->]; cbn [app] in H.
  - destruct (Hgo _ H) as (Hlt & Hr).
    assert (Hb : (byte_at src (len pre) == "-") = false).
    { specialize (Hfirst eq_refl).
      destruct run as [|d run'].
      - cbn [app] in H. destruct rest as [|c rest']; [contradiction Hne; reflexivity|].
        apply rest_at_cons in H as (-> & _).
        cbn in Hrest. apply negb_true_iff in Hrest.
        destruct (not_number_char c Hrest) as (_ & _ & _ & Hs).
        apply orb_false_iff in Hs. apply Hs.
      - cbn [app] in H. apply rest_at_cons in H as (-> & _).
        cbn in Hfirst. apply negb_true_iff in Hfirst. exact Hfirst. }
    cbv zeta.
    replace (len pre >=? len src) with false
      by (symmetry; rewrite Z.geb_leb; apply Z.leb_gt; exact Hlt).
    rewrite Hb.
    replace (len pre =? len src) with false by (symmetry; apply Z.eqb_neq; lia).
    rewrite Hr. rewrite len_nil, Z.add_0_r in Hslice. rewrite Hslice.
    rewrite len_nil, Z.add_0_r. cbn [app].
    destruct (ParseFloat run) as [v [[|]|]]; reflexivity.
  - pose proof H as H'. apply rest_at_cons in H' as (Hb & Hlt & H').
    destruct (Hgo _ H') as (Hlt' & Hr).
    cbv zeta.
    replace (len pre >=? len src) with false
      by (symmetry; rewrite Z.geb_leb; apply Z.leb_gt; exact Hlt).
    rewrite Hb. cbn [Ascii.eqb Bool.eqb andb].
    replace (len pre + 1 =? len src) with false by (symmetry; apply Z.eqb_neq; lia).
    rewrite Hr. change (len ["-"%char]) with 1 in *. rewrite Hslice.
    destruct (ParseFloat (["-"%char] ++ run)) as [v [[|]|]]; reflexivity.
Qed.

(** X9.  [decodeFloat64] hands the float parser exactly the optional minus
    sign at [pos] and the longest run of number bytes (digits, signs, dot,
    e, E) after it, without checking the run against the number grammar;
    it returns the end of that run with the parsed value, or with zero and
    the range error, and the invalid-character code when the parser
    rejects the span.  With nothing left at [pos], or nothing after the
    minus sign, it returns the EOF code. *)
Theorem decodeFloat64_parses_number_run :
  (forall pre sign run rest,
     sign = [] \/ sign = ["-"%char] ->
     (sign = [] -> next_byte (fun c => negb (c == "-")) run) ->
     Forall (fun c => isNumberChars c = true) run ->
     next_byte (fun c => negb (isNumberChars c)) rest ->
     run ++ rest <> [] ->
     decodeFloat64 ParseFloat (pre ++ sign ++ run ++ rest) (len pre)
     = float_result (ParseFloat (sign ++ run)) (len pre + len sign + len run))
  /\ (forall pre sign,
        sign = [] \/ sign = ["-"%char] ->
        decodeFloat64 ParseFloat (pre ++ sign) (len pre)
        = (- ERR_EOF, PrimFloat.zero, None)).
Proof.
  split; [exact decodeFloat64_span|].
  intros pre sign Hsign. unfold decodeFloat64. cbv zeta.
  destruct Hsign as [-> | ->].
  - rewrite app_nil_r.
    replace (len pre >=? len pre) with true
      by (symmetry; rewrite Z.geb_leb; apply Z.leb_le; lia).
    reflexivity.
  - pose proof (rest_at_app pre ["-"%char]) as H.
    apply rest_at_cons in H as (Hb & Hlt & _).
    replace (len pre >=? len (pre ++ ["-"%char])) with false
      by (symmetry; rewrite Z.geb_leb; apply Z.leb_gt; exact Hlt).
    rewrite Hb. cbn [Ascii.eqb Bool.eqb andb].
    replace (len pre + 1 =? len (pre ++ ["-"%char])) with true
      by (symmetry; apply Z.eqb_eq; len_simpl; lia).
    reflexivity.
Qed.

End FloatSpan.

Lemma decodeFloat64_parses_number_run_witness :
  decodeFloat64 ParseFloat_exact (bytes "[-2.5]") 1
  = float_result (ParseFloat_exact (bytes "-2.5")) 5
  /\ decodeFloat64 ParseFloat_exact (bytes "[1-2+3]") 1
     = float_result (ParseFloat_exact (bytes "1-2+3")) 6.
Proof.
  destruct (decodeFloat64_parses_number_run ParseFloat_exact) as [H _]. split.
  - apply (H (bytes "[") ["-"%char] (bytes "2.5") (bytes "]"));
      [right; reflexivity | discriminate | repeat constructor | reflexivity | discriminate].
  - apply (H (bytes "[") [] (bytes "1-2+3") (bytes "]"));
      [left; reflexivity | reflexivity | repeat constructor | reflexivity | discriminate].
Defined.

(** ** An exponent marker without digits *)

Lemma number_scan_break (c : byte) (t : list byte) (prev : byte) (ss sp : Z)
  (pointer exponent lastIsDigit : bool) :
  isNumberChars c = false ->
  number_scan (c :: t) prev ss sp pointer exponent lastIsDigit false
  = inr (sp, false).
Proof.
  intros Hc. destruct (not_number_char c Hc) as (H1 & H2 & H3 & H4).
  cbn [number_scan]. rewrite H1, H2, H3, H4. reflexivity.
Qed.

(** X11.  [skipNumber] asks for no digit after an exponent marker that a
    byte outside the number alphabet follows: on digits, then e or E, then
    such a byte, it returns the offset just past the marker. *)
Theorem skipNumber_dangling_exponent :
  forall src p ds e c rest,
    rest_at src p (ds ++ e :: c :: rest) -> digits ds -> ds <> [] ->
    e = "e"%char \/ e = "E"%char -> isNumberChars c = false ->
    skipNumber src p = p + len ds + 1.
Proof.
  intros src p ds e c rest H H1 N1 He Hc.
  destruct ds as [|d ds']; [contradiction N1; reflexivity|].
  cbn [app] in H. rewrite (skipNumber_unsigned src p d _ H).
  2:{ inversion H1; subst. apply digit_not_minus. assumption. }
  change (d :: ds' ++ e :: c :: rest) with ((d :: ds') ++ e :: c :: rest).
  destruct (number_scan_digits _ H1 N1 (e :: c :: rest)
              (byte_at src (p - 1)) p p false false false true) as (prev1 & ->).
  rewrite number_scan_marker by exact He.
  rewrite number_scan_break by exact Hc. reflexivity.
Qed.

Lemma skipNumber_dangling_exponent_witness :
  skipNumber (bytes "[1e,2]") 1 = 1 + 1 + 1.
Proof.
  apply (skipNumber_dangling_exponent _ 1 (bytes "1") "e"%char ","%char (bytes "2]")).
  - split; [lia | reflexivity].
  - repeat constructor.
  - discriminate.
  - left; reflexivity.
  - reflexivity.
Defined.

(** ** Dispatch and classification *)

(** X12.  The dispatchers follow the classifier: [Peek] reports the row of
    the lookup table for the byte at the post-blank offset, and at a byte
    that starts no value (comma, colon, closing bracket or brace, anything
    without a row) [SkipValue] and [DecodeValue] both return the
    invalid-character code. *)
Theorem dispatch_follows_Peek (ParseFloat : list byte -> float * option NumError) :
  forall src pos p,
    SkipBlank src pos = p -> 0 <= p ->
    snd (Peek src pos) = token_table (byte_at src p)
    /\ (starts_value (token_table (byte_at src p)) = false ->
        SkipValue src pos = (- ERR_INVALID_CHAR, p)
        /\ DecodeValue ParseFloat src pos
           = (- ERR_INVALID_CHAR, state_of (V_ERROR (- ERR_INVALID_CHAR)))).
Proof.
  intros src pos p Hp H0. unfold Peek, SkipValue, DecodeValue. rewrite Hp.
  replace (p <? 0) with false by (symmetry; apply Z.ltb_ge; exact H0).
  generalize (byte_at src p). intros c.
  byte_cases c; (split; [reflexivity|]); intros Hs;
    try discriminate Hs; split; reflexivity.
Qed.

Lemma dispatch_follows_Peek_witness :
  SkipValue (bytes " ,1") 0 = (- ERR_INVALID_CHAR, 1)
  /\ DecodeValue ParseFloat_exact (bytes " ,1") 0
     = (- ERR_INVALID_CHAR, state_of (V_ERROR (- ERR_INVALID_CHAR))).
Proof.
  apply (dispatch_follows_Peek ParseFloat_exact (bytes " ,1") 0 1);
    [reflexivity | lia | reflexivity].
Defined.

(** ** Results of the dispatchers: codes, tags and bounds *)

Lemma number_chars_run_bounds (n : nat) :
  forall src sp se,
    sp <= number_chars_run n src sp se
    /\ (sp <= se -> number_chars_run n src sp se <= se)
    /\ (sp < se -> (0 < n)%nat -> isNumberChars (byte_at src sp) = true ->
        sp + 1 <= number_chars_run n src sp se).
Proof.
  induction n as [|n IH]; intros src sp se.
  - cbn. repeat split; intros; lia.
  - cbn [number_chars_run]. destruct (IH src (sp + 1) se) as (H1 & H2 & _).
    destruct (Z.ltb_spec sp se) as [Hlt|Hge].
    + destruct (isNumberChars (byte_at src sp)); cbn [negb].
      * repeat split; intros; lia.
      * repeat split; intros; first [lia | discriminate].
    + repeat split; intros; lia.
Qed.

Lemma decodeInt64_end (pre sign ds rest : list byte) :
  sign = [] \/ sign = ["-"%char] -> digits ds -> ds <> [] ->
  next_byte (fun c => negb (isDigit c) && negb (isFloatMarker c)) rest ->
  fst (fst (decodeInt64 (pre ++ sign ++ ds ++ rest) (len pre)))
  = len pre + len sign + len ds.
Proof.
  intros Hsign Hds Hne Hnext.
  rewrite decodeInt64_span by assumption.
  rewrite ParseInt_signed_digits by assumption.
  destruct ((- 2 ^ 63 <=? signed_val sign ds) && (signed_val sign ds <=? 2 ^ 63 - 1));
    reflexivity.
Qed.

Lemma decodeInt64_bounds (src : list byte) (pos : Z) :
  0 <= pos -> 0 <= fst (fst (decodeInt64 src pos)) ->
  pos < fst (fst (decodeInt64 src pos)) <= len src.
Proof.
  intros H0 H.
  destruct (decodeInt64_accepts src pos H0 H)
    as (pre & sign & ds & rest & -> & <- & Hsign & Hds & Hne & Hnext).
  rewrite decodeInt64_end by assumption. len_simpl.
  pose proof (len_nonneg sign). pose proof (len_nonneg rest).
  destruct ds as [|d ds']; [contradiction Hne; reflexivity|].
  rewrite len_cons. pose proof (len_nonneg ds'). lia.
Qed.

Lemma decodeInt64_codes (src : list byte) (pos : Z) :
  0 <= pos -> fst (fst (decodeInt64 src pos)) < 0 ->
  fst (fst (decodeInt64 src pos)) = - ERR_EOF
  \/ fst (fst (decodeInt64 src pos)) = - ERR_INVALID_CHAR
  \/ fst (fst (decodeInt64 src pos)) = - ERR_INVALID_NUMBER_FMT.
Proof.
  intros H0. unfold decodeInt64.
  destruct (pos >=? len src); [left; reflexivity|].
  set (sp0 := if byte_at src pos == "-" then pos + 1 else pos).
  assert (Hsp0 : 0 <= sp0) by (unfold sp0; destruct (byte_at src pos == "-"); lia).
  destruct (sp0 >=? len src); [left; reflexivity|].
  destruct (digit_run_inv (Z.to_nat (len src - sp0)) src sp0 Hsp0)
    as (ds & _ & -> & _).
  pose proof (len_nonneg ds).
  match goal with |- context [if ?b then (- ERR_INVALID_NUMBER_FMT, 0, None) else _] =>
    destruct b end; [right; right; reflexivity|].
  destruct (ParseInt (slice src pos (sp0 + len ds))) as [v [[|]|]]; cbn [fst];
    intros; first [lia | right; left; reflexivity].
Qed.

Lemma skipPair_codes (src : list byte) (pos : Z) (lchar rchar : byte) :
  0 <= pos -> skipPair src pos lchar rchar < 0 ->
  skipPair src pos lchar rchar = - ERR_EOF
  \/ skipPair src pos lchar rchar = - ERR_INVALID_CHAR.
Proof.
  intros H0. unfold skipPair.
  destruct (pos + 1 >=? len src); [left; reflexivity|].
  destruct (Ascii.eqb (byte_at src pos) lchar); cbn [negb]; [|right; reflexivity].
  rewrite (skipPair_loop_scan _ src lchar rchar (pos + 1) 1 false _
             (rest_at_here src (pos + 1) ltac:(lia))) by lia.
  pose proof (pair_scan_bounds lchar rchar (skipn (Z.to_nat (pos + 1)) src)
                (pos + 1) 1 false ltac:(lia)) as Hb.
  destruct (pair_scan lchar rchar (skipn (Z.to_nat (pos + 1)) src) (pos + 1) 1 false)
    as [sp nbrace].
  cbn [fst snd] in Hb.
  destruct (nbrace =? 0) eqn:E; cbn [negb]; [|right; reflexivity].
  apply Z.eqb_eq in E. specialize (Hb E). lia.
Qed.

Lemma skipNumber_codes (src : list byte) (pos : Z) :
  0 <= pos -> skipNumber src pos < 0 ->
  skipNumber src pos = - ERR_EOF \/ skipNumber src pos = - ERR_INVALID_CHAR.
Proof.
  intros H0. unfold skipNumber.
  destruct (pos >=? len src); [left; reflexivity|].
  set (sp0 := if byte_at src pos == "-" then pos + 1 else pos).
  assert (Hsp0 : 0 <= sp0) by (unfold sp0; destruct (byte_at src pos == "-"); lia).
  rewrite (skipNumber_loop_scan _ src sp0 sp0 false false false true _
             (rest_at_here src sp0 Hsp0)) by lia.
  destruct (number_scan (skipn (Z.to_nat sp0) src) (byte_at src (sp0 - 1)) sp0 sp0
              false false false true) as [code|[sp' nnd']] eqn:E.
  - intros _. apply (skipNumber_loop_codes _ _ _ _ _ _ _ _ _ E).
  - destruct (number_scan_bounds _ _ _ _ _ _ _ _ _ _ E) as [Hb _].
    destruct nnd'; [left; reflexivity | lia].
Qed.

Lemma decode_literal_codes (src : list byte) (pos : Z) :
  0 <= pos ->
  (decodeNull src pos < 0 ->
   decodeNull src pos = - ERR_EOF \/ decodeNull src pos = - ERR_INVALID_CHAR)
  /\ (decodeTrue src pos < 0 ->
      decodeTrue src pos = - ERR_EOF \/ decodeTrue src pos = - ERR_INVALID_CHAR)
  /\ (decodeFalse src pos < 0 ->
      decodeFalse src pos = - ERR_EOF \/ decodeFalse src pos = - ERR_INVALID_CHAR).
Proof.
  intros H0. unfold decodeNull, decodeTrue, decodeFalse. cbv zeta.
  repeat split;
    match goal with
    | |- context [Z.gtb ?a ?b] => destruct (Z.gtb a b)
    end; try (left; reflexivity);
    match goal with
    | |- context [bytes_eqb ?a ?b] => destruct (bytes_eqb a b)
    end; try (right; reflexivity); lia.
Qed.

Section DispatcherResults.

Variable ParseFloat : list byte -> float * option NumError.

Lemma decodeFloat64_bounds (src : list byte) (pos : Z) :
  0 <= pos ->
  ((byte_at src pos == "-") || (byte_at src pos == "+") || isDigit (byte_at src pos))
  = true ->
  0 <= fst (fst (decodeFloat64 ParseFloat src pos)) ->
  pos < fst (fst (decodeFloat64 ParseFloat src pos)) <= len src.
Proof.
  intros H0 Hc. unfold decodeFloat64.
  destruct (pos >=? len src) eqn:Hpos; [cbn; unfold ERR_EOF; lia|].
  rewrite Z.geb_leb in Hpos. apply Z.leb_gt in Hpos.
  set (sp0 := if byte_at src pos == "-" then pos + 1 else pos).
  destruct (sp0 =? len src) eqn:Hsp0; [cbn; unfold ERR_EOF; lia|].
  apply Z.eqb_neq in Hsp0.
  pose proof (number_chars_run_bounds (Z.to_nat (len src - sp0)) src sp0 (len src))
    as (B1 & B2 & B3).
  assert (Hgt : pos < number_chars_run (Z.to_nat (len src - sp0)) src sp0 (len src)
                <= len src).
  { unfold sp0 in *. destruct (byte_at src pos == "-") eqn:Hm; [lia|].
    cbn [orb] in Hc. specialize (B2 ltac:(lia)).
    assert (Hn : isNumberChars (byte_at src pos) = true).
    { clear - Hc. destruct (byte_at src pos) as [[] [] [] [] [] [] [] []];
        try discriminate Hc; reflexivity. }
    specialize (B3 Hpos ltac:(lia) Hn). lia. }
  destruct (ParseFloat _) as [v [[|]|]]; cbn [fst]; intros;
    try exact Hgt; unfold ERR_INVALID_CHAR in *; lia.
Qed.

Lemma decodeFloat64_codes (src : list byte) (pos : Z) :
  0 <= pos -> fst (fst (decodeFloat64 ParseFloat src pos)) < 0 ->
  fst (fst (decodeFloat64 ParseFloat src pos)) = - ERR_EOF
  \/ fst (fst (decodeFloat64 ParseFloat src pos)) = - ERR_INVALID_CHAR.
Proof.
  intros H0. unfold decodeFloat64.
  destruct (pos >=? len src); [left; reflexivity|].
  set (sp0 := if byte_at src pos == "-" then pos + 1 else pos).
  assert (Hsp0 : 0 <= sp0) by (unfold sp0; destruct (byte_at src pos == "-"); lia).
  destruct (sp0 =? len src); [left; reflexivity|].
  pose proof (number_chars_run_bounds (Z.to_nat (len src - sp0)) src sp0 (len src))
    as (B1 & _).
  destruct (ParseFloat _) as [v [[|]|]]; cbn [fst]; intros;
    first [lia | right; reflexivity].
Qed.

(** X13.  A negative result of [Peek], [SkipValue] or [DecodeValue] is the
    EOF code or the invalid-character code, provided the blank skipper
    returns an offset or the EOF code: the number-format code with which
    [decodeInt64] asks for the float decoder never leaves [DecodeValue]. *)
Theorem negative_results_are_two_codes :
  forall src pos p,
    SkipBlank src pos = p -> 0 <= p \/ p = - ERR_EOF ->
    (fst (Peek src pos) < 0 ->
     fst (Peek src pos) = - ERR_EOF \/ fst (Peek src pos) = - ERR_INVALID_CHAR)
    /\ (fst (SkipValue src pos) < 0 ->
        fst (SkipValue src pos) = - ERR_EOF
        \/ fst (SkipValue src pos) = - ERR_INVALID_CHAR)
    /\ (fst (DecodeValue ParseFloat src pos) < 0 ->
        fst (DecodeValue ParseFloat src pos) = - ERR_EOF
        \/ fst (DecodeValue ParseFloat src pos) = - ERR_INVALID_CHAR).
Proof.
  intros src pos p Hp Hrange. unfold Peek, SkipValue, DecodeValue. rewrite Hp.
  destruct Hrange as [H0 | ->]; [|repeat split; intros _; left; reflexivity].
  replace (p <? 0) with false by (symmetry; apply Z.ltb_ge; exact H0).
  destruct (decode_literal_codes src p H0) as (HN & HT & HF).
  pose proof (skipString_negative_codes src p H0) as HS.
  pose proof (skipPair_codes src p "{"%char "}"%char H0) as HO.
  pose proof (skipPair_codes src p "["%char "]"%char H0) as HA.
  pose proof (skipNumber_codes src p H0) as HD.
  pose proof (decodeInt64_codes src p H0) as HI.
  pose proof (decodeFloat64_codes src p H0) as HFl.
  split; [|split].
  - generalize (byte_at src p). intros c.
    byte_cases c; cbv -[Z.lt Z.le Z.opp ERR_EOF ERR_INVALID_CHAR]; intros;
      first [lia | right; reflexivity].
  - cbn [fst].
    destruct (byte_at src p == "n"); [exact HN|].
    destruct (byte_at src p == dquote); [exact HS|].
    destruct (byte_at src p == "{"); [exact HO|].
    destruct (byte_at src p == "["); [exact HA|].
    destruct (byte_at src p == "t"); [exact HT|].
    destruct (byte_at src p == "f"); [exact HF|].
    destruct ((byte_at src p == "-") || (byte_at src p == "+") || isDigit (byte_at src p));
      [exact HD | intros _; right; reflexivity].
  - destruct (byte_at src p == "n").
    { destruct (Z.ltb_spec (decodeNull src p) 0); cbn [fst]; [exact HN | lia]. }
    destruct (byte_at src p == dquote).
    { destruct (skipString src p) as [ret ep]. cbn [fst] in HS.
      destruct (Z.ltb_spec ret 0); cbn [fst]; [exact HS | lia]. }
    destruct (byte_at src p == "{"); [cbn [fst]; lia|].
    destruct (byte_at src p == "["); [cbn [fst]; lia|].
    destruct (byte_at src p == "t").
    { destruct (Z.ltb_spec (decodeTrue src p) 0); cbn [fst]; [exact HT | lia]. }
    destruct (byte_at src p == "f").
    { destruct (Z.ltb_spec (decodeFalse src p) 0); cbn [fst]; [exact HF | lia]. }
    destruct ((byte_at src p == "-") || (byte_at src p == "+") || isDigit (byte_at src p));
      [|intros _; right; reflexivity].
    destruct (decodeInt64 src p) as [[ret iv] e]. cbn [fst] in HI.
    rewrite Z.geb_leb.
    destruct (Z.leb_spec 0 ret); [cbn [fst]; lia|].
    destruct (Z.eqb_spec ret (- ERR_INVALID_NUMBER_FMT)) as [E|E]; cbn [negb].
    + destruct (decodeFloat64 ParseFloat src p) as [[ret' fv] e']. cbn [fst] in HFl.
      rewrite Z.geb_leb. destruct (Z.leb_spec 0 ret'); cbn [fst]; [lia | exact HFl].
    + cbn [fst]. intros Hneg. destruct (HI Hneg) as [H1 | [H1 | H1]];
        [left | right | contradiction]; exact H1.
Qed.

(** X14.  The offset and the state [DecodeValue] returns go together: a
    negative offset comes with the error tag that carries it and no other
    field set; an offset that is not negative comes with a value tag, lies
    beyond the post-blank offset and is at most the length of the buffer. *)
Theorem DecodeValue_offset_and_tag :
  forall src pos,
    let r := DecodeValue ParseFloat src pos in
    (fst r < 0 -> snd r = state_of (V_ERROR (fst r)))
    /\ (0 <= fst r ->
        is_error (snd r) = false
        /\ 0 <= SkipBlank src pos < fst r /\ fst r <= len src).
Proof.
  intros src pos. cbv zeta. unfold DecodeValue.
  set (p := SkipBlank src pos).
  destruct (Z.ltb_spec p 0) as [Hneg|H0]; [cbn [fst snd]; split; [reflexivity | lia]|].
  destruct (decode_literal_bounds src p H0) as (HN & HT & HF).
  pose proof (skipString_bounds src p H0) as HS.
  pose proof (decodeInt64_bounds src p H0) as HI.
  pose proof (decodeFloat64_bounds src p H0) as HFl.
  destruct (byte_at src p == "n").
  { destruct (Z.ltb_spec (decodeNull src p) 0); cbn [fst snd];
      (split; [first [reflexivity | lia]|]); intros H'; first [lia | idtac].
    specialize (HN H'). repeat split; lia. }
  destruct (byte_at src p == dquote).
  { destruct (skipString src p) as [ret ep]. cbn [fst] in HS.
    destruct (Z.ltb_spec ret 0); cbn [fst snd];
      (split; [first [reflexivity | lia]|]); intros H'; first [lia | idtac].
    specialize (HS H'). repeat split; lia. }
  destruct (byte_at src p == "{") eqn:Eo.
  { cbn [fst snd]. split; [lia|]. intros _.
    assert (p < len src).
    { destruct (Z.ltb_spec p (len src)); [assumption|].
      unfold byte_at in Eo. rewrite nth_overflow in Eo by (unfold len in *; lia).
      discriminate Eo. }
    repeat split; lia. }
  destruct (byte_at src p == "[") eqn:Ea.
  { cbn [fst snd]. split; [lia|]. intros _.
    assert (p < len src).
    { destruct (Z.ltb_spec p (len src)); [assumption|].
      unfold byte_at in Ea. rewrite nth_overflow in Ea by (unfold len in *; lia).
      discriminate Ea. }
    repeat split; lia. }
  destruct (byte_at src p == "t").
  { destruct (Z.ltb_spec (decodeTrue src p) 0); cbn [fst snd];
      (split; [first [reflexivity | lia]|]); intros H'; first [lia | idtac].
    specialize (HT H'). repeat split; lia. }
  destruct (byte_at src p == "f").
  { destruct (Z.ltb_spec (decodeFalse src p) 0); cbn [fst snd];
      (split; [first [reflexivity | lia]|]); intros H'; first [lia | idtac].
    specialize (HF H'). repeat split; lia. }
  destruct ((byte_at src p == "-") || (byte_at src p == "+") || isDigit (byte_at src p))
    eqn:Hnum.
  2:{ cbn [fst snd]. split; [reflexivity | unfold ERR_INVALID_CHAR; lia]. }
  specialize (HFl eq_refl).
  destruct (decodeInt64 src p) as [[ret iv] e]. cbn [fst] in HI.
  rewrite Z.geb_leb.
  destruct (Z.leb_spec 0 ret) as [Hok|Hbad].
  { cbn [fst snd]. split; [lia|]. intros _. specialize (HI Hok). repeat split; lia. }
  destruct (Z.eqb_spec ret (- ERR_INVALID_NUMBER_FMT)) as [E|E]; cbn [negb].
  - destruct (decodeFloat64 ParseFloat src p) as [[ret' fv] e']. cbn [fst] in HFl.
    rewrite Z.geb_leb. destruct (Z.leb_spec 0 ret') as [Hok'|Hbad']; cbn [fst snd].
    + split; [lia|]. intros _. specialize (HFl Hok'). repeat split; lia.
    + split; [reflexivity | lia].
  - cbn [fst snd]. split; [reflexivity | lia].
Qed.

End DispatcherResults.

Lemma negative_results_are_two_codes_witness :
  (fst (SkipValue (bytes " {") 0) = - ERR_EOF
   \/ fst (SkipValue (bytes " {") 0) = - ERR_INVALID_CHAR)
  /\ (fst (DecodeValue ParseFloat_exact (bytes " 1.5.") 0) = - ERR_EOF
      \/ fst (DecodeValue ParseFloat_exact (bytes " 1.5.") 0) = - ERR_INVALID_CHAR).
Proof.
  split.
  - apply (negative_results_are_two_codes ParseFloat_exact (bytes " {") 0 1);
      [reflexivity | left; lia | reflexivity].
  - apply (negative_results_are_two_codes ParseFloat_exact (bytes " 1.5.") 0 1);
      [reflexivity | left; lia | reflexivity].
Defined.

Lemma DecodeValue_offset_and_tag_witness :
  snd (DecodeValue ParseFloat_exact (bytes " nul") 0)
  = state_of (V_ERROR (fst (DecodeValue ParseFloat_exact (bytes " nul") 0)))
  /\ is_error (snd (DecodeValue ParseFloat_exact (bytes " -12,") 0)) = false.
Proof.
  split.
  - apply (DecodeValue_offset_and_tag ParseFloat_exact (bytes " nul") 0). reflexivity.
  - apply (DecodeValue_offset_and_tag ParseFloat_exact (bytes " -12,") 0).
    vm_compute. discriminate.
Defined.

(** ** Where a scalar ends, for both dispatchers *)

Lemma json_number_split (n : list byte) :
  json_number n ->
  exists minus i tail,
    n = minus ++ i ++ tail
    /\ (minus = [] \/ minus = ["-"%char]) /\ digits i /\ i <> []
    /\ Forall (fun c => isNumberChars c = true) (i ++ tail)
    /\ (tail = [] \/ exists c t, tail = c :: t /\ isFloatMarker c = true).
Proof.
  intros Hn. pose proof (json_number_chars n Hn) as Hall.
  destruct Hn as [minus i f x Hminus Hi Hf Hx].
  destruct (json_int_digits i Hi) as [Hds Hne].
  exists minus, i, (f ++ x). repeat split; try assumption.
  - apply Forall_app in Hall as [_ Hall]. exact Hall.
  - destruct Hf as [|d ds Hd Hds'].
    + destruct Hx as [|e sign d ds He Hsign Hd Hds']; [left; reflexivity|].
      right. exists e, (sign ++ d :: ds). split; [reflexivity|].
      destruct He as [-> | ->]; reflexivity.
    + right. exists "."%char, ((d :: ds) ++ x). split; reflexivity.
Qed.

Lemma not_number_char_ends_digits (rest : list byte) :
  next_byte (fun c => negb (isNumberChars c)) rest ->
  next_byte (fun c => negb (isDigit c) && negb (isFloatMarker c)) rest.
Proof.
  destruct rest as [|c rest]; [intros; exact I|]. cbn [next_byte].
  byte_cases c; (discriminate || reflexivity).
Qed.

Section ScalarEnds.

Variable ParseFloat : list byte -> float * option NumError.

Lemma DecodeValue_number_end (src : list byte) (pos p : Z) (n rest : list byte) :
  SkipBlank src pos = p -> rest_at src p (n ++ rest) -> json_number n ->
  next_byte (fun c => negb (isNumberChars c)) rest ->
  (snd (ParseFloat n) = Some ErrSyntax -> False) ->
  fst (DecodeValue ParseFloat src pos) = p + len n.
Proof.
  intros Hp H Hn Hrest Hpf. pose proof H as [H0 _].
  destruct (json_number_head n Hn) as (c & t & Hnt & Hc).
  destruct (json_number_split n Hn)
    as (minus & i & tail & En & Hminus & Hi & Hine & Hall & Htail).
  assert (Hb : byte_at src p = c).
  { pose proof H as H'. rewrite Hnt in H'. cbn [app] in H'.
    apply rest_at_cons in H'. apply H'. }
  assert (Hsrc : exists pre, src = pre ++ n ++ rest /\ len pre = p).
  { pose proof H as H'. rewrite Hnt in H'. cbn [app] in H'.
    destruct (rest_at_split _ _ _ _ H') as (pre & E1 & E2).
    exists pre. split; [rewrite Hnt; exact E1 | exact E2]. }
  destruct Hsrc as (pre & Hsrc & Hpre).
  unfold DecodeValue. rewrite Hp.
  replace (p <? 0) with false by (symmetry; apply Z.ltb_ge; exact H0).
  rewrite Hb, (number_dispatch c Hc).
  assert (Hlen : p + len n = len pre + len minus + len (i ++ tail)).
  { rewrite En, Hpre. len_simpl. lia. }
  destruct Htail as [-> | (m & t' & -> & Hm)].
  - rewrite app_nil_r in *.
    assert (E : fst (fst (decodeInt64 src p)) = p + len n).
    { rewrite Hsrc, <- Hpre, En, <- !app_assoc.
      rewrite decodeInt64_end by
        (assumption || apply not_number_char_ends_digits; assumption).
      len_simpl. lia. }
    destruct (decodeInt64 src p) as [[ret iv] e]. cbn [fst] in E. subst ret.
    pose proof (len_nonneg n).
    replace (p + len n >=? 0) with true
      by (symmetry; rewrite Z.geb_leb; apply Z.leb_le; lia).
    reflexivity.
  - assert (E : decodeInt64 src p = (- ERR_INVALID_NUMBER_FMT, 0, None)).
    { rewrite Hsrc, <- Hpre, En, <- !app_assoc. cbn [app].
      apply decodeInt64_marker; assumption. }
    rewrite E. cbn [Z.geb Z.compare Z.opp ERR_INVALID_NUMBER_FMT Z.eqb negb Pos.eqb].
    assert (F : decodeFloat64 ParseFloat src p
                = float_result (ParseFloat n) (p + len n)).
    { rewrite Hsrc, <- Hpre, En.
      replace (pre ++ (minus ++ i ++ m :: t') ++ rest)
        with (pre ++ minus ++ (i ++ m :: t') ++ rest)
        by (rewrite <- !app_assoc; reflexivity).
      rewrite decodeFloat64_span; try assumption.
      - f_equal. len_simpl. lia.
      - intros _. destruct Hi as [|d ds Hd Hds]; [contradiction Hine; reflexivity|].
        cbn. rewrite (digit_not_minus d Hd). reflexivity.
      - destruct i; [contradiction Hine; reflexivity | discriminate]. }
    rewrite F. pose proof (len_nonneg n).
    destruct (ParseFloat n) as [v [[|]|]]; cbn [float_result snd] in *;
      try (exfalso; apply Hpf; reflexivity);
      replace (p + len n >=? 0) with true
        by (symmetry; rewrite Z.geb_leb; apply Z.leb_le; lia);
      reflexivity.
Qed.

(** X15.  On a JSON literal, string or number [DecodeValue] and [SkipValue]
    end at the same offset, the end of the value's text, so a caller may
    decode a scalar or skip it and resume at the same place (for a number:
    when it ends at the next byte and the float parser does not reject
    its text). *)
Theorem scalar_ends_agree :
  forall src pos p v rest,
    SkipBlank src pos = p -> rest_at src p (v ++ rest) -> json_scalar v ->
    (json_number v ->
     next_byte (fun c => negb (isNumberChars c)) rest
     /\ (snd (ParseFloat v) = Some ErrSyntax -> False)) ->
    fst (DecodeValue ParseFloat src pos) = p + len v
    /\ fst (SkipValue src pos) = p + len v.
Proof.
  intros src pos p v rest Hp H Hv Hnum. pose proof H as [H0 _].
  assert (Hneg : (p <? 0) = false) by (apply Z.ltb_ge; exact H0).
  split.
  - destruct Hv as [| | |n Hn|s Hs].
    + pose proof (decodeNull_json _ _ _ H) as E.
      apply rest_at_cons in H as (Hb & _).
      unfold DecodeValue. rewrite Hp, Hneg, Hb. cbn [Ascii.eqb Bool.eqb andb].
      rewrite E. replace (p + 4 <? 0) with false by (symmetry; apply Z.ltb_ge; lia).
      reflexivity.
    + pose proof (decodeTrue_json _ _ _ H) as E.
      apply rest_at_cons in H as (Hb & _).
      unfold DecodeValue. rewrite Hp, Hneg, Hb. cbn [Ascii.eqb Bool.eqb andb dquote].
      rewrite E. replace (p + 4 <? 0) with false by (symmetry; apply Z.ltb_ge; lia).
      reflexivity.
    + pose proof (decodeFalse_json _ _ _ H) as E.
      apply rest_at_cons in H as (Hb & _).
      unfold DecodeValue. rewrite Hp, Hneg, Hb. cbn [Ascii.eqb Bool.eqb andb dquote].
      rewrite E. replace (p + 5 <? 0) with false by (symmetry; apply Z.ltb_ge; lia).
      reflexivity.
    + destruct (Hnum Hn) as [Hrest Hpf].
      apply (DecodeValue_number_end src pos p n rest Hp H Hn Hrest Hpf).
    + pose proof (skipString_json _ _ _ _ H Hs) as E.
      destruct Hs as (body & _ & ->).
      cbn [app] in H. apply rest_at_cons in H as (Hb & _).
      unfold DecodeValue. rewrite Hp, Hneg, Hb. cbn [Ascii.eqb Bool.eqb andb dquote].
      destruct (skipString src p) as [ret ep]. cbn [fst] in E. subst ret.
      pose proof (len_nonneg (dquote :: body ++ [dquote])).
      match goal with |- context [?a <? 0] =>
        replace (a <? 0) with false by (symmetry; apply Z.ltb_ge; lia) end.
      reflexivity.
  - assert (Hjv : json_value v).
    { destruct Hv; [apply JV_null | apply JV_true | apply JV_false
                    | apply JV_number; assumption | apply JV_string; assumption]. }
    rewrite (SkipValue_at src pos p v rest Hp H Hjv); [reflexivity|].
    intros Hn. apply (Hnum Hn).
Qed.

End ScalarEnds.

Lemma scalar_ends_agree_witness :
  fst (DecodeValue ParseFloat_exact (bytes "[ -2.5,") 1) = 2 + 4
  /\ fst (SkipValue (bytes "[ -2.5,") 1) = 2 + 4.
Proof.
  apply (scalar_ends_agree ParseFloat_exact (bytes "[ -2.5,") 1 2 (bytes "-2.5") (bytes ",")).
  - reflexivity.
  - split; [lia | reflexivity].
  - apply JS_number.
    apply (JN_intro ["-"%char] (bytes "2") (bytes ".5") []);
      [right; reflexivity
      | apply JI_digits; [reflexivity | discriminate | constructor]
      | apply JF_some; [reflexivity | constructor]
      | constructor].
  - intros _. split; [reflexivity | vm_compute; discriminate].
Defined.

(** ** The grow-and-retry loop of [quote] *)

Section QuoteProtocol.

Variable appendCap : Z -> Z -> Z.
Variable growsliceCap : Z -> Z -> Z.
Variable nativeQuote : list byte -> Z -> Z * list byte.

(** The escaping the native routine performs, byte run by byte run. *)
Variable esc : list byte -> list byte.
Hypothesis esc_app : forall a b, esc (a ++ b) = esc a ++ esc b.

(** The protocol of the native routine, as [quote] uses it: a result that
    is not negative means the whole input was escaped into the output; a
    negative one is the complement of the number of input bytes consumed,
    whose escape is what was written. *)
Hypothesis native_protocol :
  forall input dn ret written,
    nativeQuote input dn = (ret, written) ->
    (0 <= ret -> written = esc input)
    /\ (ret < 0 ->
        written = esc (firstn (Z.to_nat (- ret - 1)) input)).

Lemma esc_nil : esc [] = [].
Proof.
  pose proof (esc_app [] []) as H. cbn [app] in H.
  apply (f_equal (@List.length _)) in H. rewrite length_app in H.
  destruct (esc []); [reflexivity | cbn in H; lia].
Qed.

Lemma quote_loop_output (fuel : nat) :
  forall b input out,
    quote_loop growsliceCap nativeQuote fuel b input = Some out ->
    Data out = Data b ++ esc input.
Proof.
  induction fuel as [|fuel IH]; intros b input out H.
  - cbn [quote_loop] in H. destruct (len input >? 0) eqn:E; [discriminate H|].
    inversion H; subst. destruct input as [|c input].
    + rewrite esc_nil, app_nil_r. reflexivity.
    + rewrite len_cons, Z.gtb_ltb in E. apply Z.ltb_ge in E.
      pose proof (len_nonneg input). lia.
  - cbn [quote_loop] in H. destruct (len input >? 0) eqn:E.
    + destruct (nativeQuote input (Cap b - len (Data b))) as [ret written] eqn:Q.
      destruct (native_protocol _ _ _ _ Q) as [Hdone Hpart].
      rewrite Z.geb_leb in H. destruct (Z.leb_spec 0 ret) as [Hok|Hneg].
      * inversion H; subst. cbn [Data]. rewrite (Hdone Hok). reflexivity.
      * apply IH in H. cbn [Data] in H. rewrite H, (Hpart Hneg), <- app_assoc.
        rewrite <- esc_app, firstn_skipn. reflexivity.
    + inversion H; subst. destruct input as [|c input].
      * rewrite esc_nil, app_nil_r. reflexivity.
      * rewrite len_cons, Z.gtb_ltb in E. apply Z.ltb_ge in E.
        pose proof (len_nonneg input). lia.
Qed.

Lemma append_data (b : GoSlice) (c : byte) :
  Data (append appendCap b c) = Data b ++ [c].
Proof. unfold append. destruct (len (Data b ++ [c]) <=? Cap b); reflexivity. Qed.

(** X16.  On a non-empty input, whatever [quote] returns is the buffer
    followed by a quote, the escape of the whole input and a quote: no
    input byte is escaped twice or lost over the grow-and-retry rounds, and
    the result does not depend on the capacities met on the way.  When the
    first call of the native routine finds room enough, [quote] returns
    with that content after one round. *)
Theorem quote_output :
  (forall fuel buf val out,
     val <> [] ->
     quote appendCap growsliceCap nativeQuote fuel buf val = Some out ->
     Data out = Data buf ++ dquote :: esc val ++ [dquote])
  /\ (forall fuel fuel' buf buf' val out out',
        val <> [] -> Data buf = Data buf' ->
        quote appendCap growsliceCap nativeQuote fuel buf val = Some out ->
        quote appendCap growsliceCap nativeQuote fuel' buf' val = Some out' ->
        Data out = Data out')
  /\ (forall fuel buf val,
        val <> [] ->
        0 <= fst (nativeQuote val
                    (Cap (append appendCap buf dquote)
                     - len (Data (append appendCap buf dquote)))) ->
        exists out,
          quote appendCap growsliceCap nativeQuote (S fuel) buf val = Some out
          /\ Data out = Data buf ++ dquote :: esc val ++ [dquote]).
Proof.
  assert (Hne : forall val : list byte, val <> [] -> (len val =? 0) = false).
  { intros val Hv. destruct val as [|c val]; [contradiction Hv; reflexivity|].
    apply Z.eqb_neq. rewrite len_cons. pose proof (len_nonneg val). lia. }
  assert (H1 : forall fuel buf val out,
     val <> [] ->
     quote appendCap growsliceCap nativeQuote fuel buf val = Some out ->
     Data out = Data buf ++ dquote :: esc val ++ [dquote]).
  { intros fuel buf val out Hv H. unfold quote in H. rewrite (Hne val Hv) in H.
    destruct (quote_loop growsliceCap nativeQuote fuel (append appendCap buf dquote) val)
      as [b|] eqn:L; [|discriminate H].
    inversion H; subst. apply quote_loop_output in L.
    rewrite append_data, L, append_data, <- !app_assoc. reflexivity. }
  split; [exact H1|]. split.
  - intros fuel fuel' buf buf' val out out' Hv Hd Ho Ho'.
    rewrite (H1 _ _ _ _ Hv Ho), (H1 _ _ _ _ Hv Ho'), Hd. reflexivity.
  - intros fuel buf val Hv Hfit.
    assert (Hq : exists out,
      quote appendCap growsliceCap nativeQuote (S fuel) buf val = Some out).
    { unfold quote. rewrite (Hne val Hv). cbn [quote_loop].
      replace (len val >? 0) with true.
      2:{ symmetry. rewrite Z.gtb_ltb. apply Z.ltb_lt.
          specialize (Hne val Hv). apply Z.eqb_neq in Hne.
          pose proof (len_nonneg val). lia. }
      destruct (nativeQuote val _) as [ret written]. cbn [fst] in Hfit.
      replace (ret >=? 0) with true
        by (symmetry; rewrite Z.geb_leb; apply Z.leb_le; exact Hfit).
      eexists. reflexivity. }
    destruct Hq as [out Hq]. exists out. split; [exact Hq | exact (H1 _ _ _ _ Hv Hq)].
Qed.

End QuoteProtocol.

Lemma copy_quote_protocol :
  forall input dn ret written,
    copy_quote input dn = (ret, written) ->
    (0 <= ret -> written = input)
    /\ (ret < 0 -> written = firstn (Z.to_nat (- ret - 1)) input).
Proof.
  intros input dn ret written H. unfold copy_quote in H.
  pose proof (len_nonneg input).
  destruct (len input <=? dn); inversion H; subst; split; intros; try lia.
  - reflexivity.
  - f_equal. lia.
Qed.

(** Two bytes quoted into an empty buffer that grows from nothing: three
    rounds of the loop. *)
Lemma quote_output_witness :
  option_map Data
    (quote (fun _ n => n) (fun _ n => n) copy_quote 5 (mkSlice [] 0) (bytes "hi"))
  = Some (dquote :: bytes "hi" ++ [dquote]).
Proof.
  destruct (quote (fun _ n => n) (fun _ n => n) copy_quote 5 (mkSlice [] 0) (bytes "hi"))
    as [out|] eqn:Q; [|vm_compute in Q; discriminate Q].
  cbn [option_map]. f_equal.
  apply (proj1 (quote_output (fun _ n => n) (fun _ n => n) copy_quote (fun l => l)
                  (fun a b => eq_refl) copy_quote_protocol)
           5%nat (mkSlice [] 0) (bytes "hi") out ltac:(discriminate) Q).
Defined.

(** ** What [skipPair] does not check *)

Lemma transparent_others (lchar rchar : byte) (body : list byte) :
  Forall (fun c => (c == bslash) = false /\ (c == dquote) = false
                   /\ Ascii.eqb c lchar = false /\ Ascii.eqb c rchar = false) body ->
  transparent lchar rchar body.
Proof.
  induction 1 as [|c t (H1 & H2 & H3 & H4) Ht IH]; [apply transparent_nil|].
  change (c :: t) with ([c] ++ t).
  apply transparent_app; [apply transparent_other; assumption | exact IH].
Qed.

(** X17.  [skipPair] checks the balance of its own delimiter pair and
    nothing else: whatever the bytes between an opening delimiter and the
    next closing one are, as long as none is a backslash, a quote or one of
    the two delimiters (delimiters of the other kind, unbalanced, among
    them), it returns the offset just past the closing delimiter. *)
Theorem skipPair_checks_only_balance :
  forall lchar rchar src p body rest,
    delims lchar rchar ->
    rest_at src p (lchar :: body ++ rchar :: rest) ->
    Forall (fun c => (c == bslash) = false /\ (c == dquote) = false
                     /\ Ascii.eqb c lchar = false /\ Ascii.eqb c rchar = false) body ->
    skipPair src p lchar rchar = p + len body + 2.
Proof.
  intros lchar rchar src p body rest Hd H Hbody.
  rewrite (skipPair_balanced lchar rchar src p body rest Hd).
  - len_simpl. lia.
  - rewrite <- app_comm_cons, <- app_assoc. exact H.
  - apply transparent_others. exact Hbody.
Qed.

Lemma skipPair_checks_only_balance_witness :
  skipPair (bytes "[1}:{{,x]") 0 "["%char "]"%char = 0 + 7 + 2.
Proof.
  apply (skipPair_checks_only_balance "["%char "]"%char _ 0 (bytes "1}:{{,x") []).
  - right; split; reflexivity.
  - apply rest_at_self.
  - repeat constructor.
Defined.
